(** * A moving-average crossover backtester: indicators, engine, drawdown replay

    Shallow embedding of [TechnicalIndicators.cpp], [Backtester.cpp] and
    [CSVParser.cpp].

    Numbers.  A C++ [double] is an IEEE-754 binary64 value; it is modelled by
    Rocq's primitive floats ([PrimFloat.float]), which compute with exactly
    that arithmetic (round to nearest even, infinities, signed zeros, NaN).
    The indicator library is written over a small arithmetic interface
    [Num], whose instance [binary64] is that arithmetic; a statement made for
    every [Num] holds of the doubles in particular.  The engine is stated
    directly on binary64.

    Integers.  An [int] is a [Z] in the 32-bit signed range and a [size_t] a
    [Z] in [0, 2^64); the conversions between them are written out
    ([to_size_t], [to_int]).  Arithmetic on [int] is exact: signed overflow is
    undefined in C++, and statements that depend on it assume [in_int].

    Vectors.  A [std::vector] is a [list]; [v[i]] is [vget] and [v[i] = x] is
    [vset].  Indexing outside the vector is undefined in C++; here a read
    yields the default and a write leaves the vector unchanged.

    Files.  A [std::string] is a [string]; an input stream is the string of
    the characters that are still to be read. *)

From Stdlib Require Import ZArith Floats Lia String Ascii.
From stdpp Require Import base list.

Local Open Scope Z_scope.

(** ** Integer conversions *)

Definition to_size_t (z : Z) : Z := z mod 2 ^ 64.

Definition to_int (z : Z) : Z := (z + 2 ^ 31) mod 2 ^ 32 - 2 ^ 31.

Definition in_int (z : Z) : Prop := - 2 ^ 31 <= z < 2 ^ 31.

(** ** Vectors indexed by machine integers *)

Definition in_bounds {A} (v : list A) (i : Z) : bool :=
  (0 <=? i) && (i <? Z.of_nat (length v)).

Definition vget {A} (d : A) (v : list A) (i : Z) : A :=
  if in_bounds v i then nth (Z.to_nat i) v d else d.

Definition vset {A} (v : list A) (i : Z) (x : A) : list A :=
  if in_bounds v i then <[Z.to_nat i := x]> v else v.

Definition vsize {A} (v : list A) : Z := Z.of_nat (length v).

(** ** Counted loops

    [for_range lo hi body s] is [for (i = lo; i < hi; i++) s = body i s]. *)

Fixpoint for_loop {S : Type} (n : nat) (i : Z) (body : Z -> S -> S) (s : S) : S :=
  match n with
  | O => s
  | Datatypes.S n' => for_loop n' (i + 1) body (body i s)
  end.

Definition for_range {S : Type} (lo hi : Z) (body : Z -> S -> S) (s : S) : S :=
  for_loop (Z.to_nat (hi - lo)) lo body s.

(** ** Bounds-checked vectors and loops

    The same accesses with the bounds made visible: [None] stands for an
    access outside the vector, which C++ leaves undefined. *)

Definition vget_checked {A} (v : list A) (i : Z) : option A :=
  if in_bounds v i then v !! Z.to_nat i else None.

Definition vset_checked {A} (v : list A) (i : Z) (x : A) : option (list A) :=
  if in_bounds v i then Some (<[Z.to_nat i := x]> v) else None.

Fixpoint for_loop_checked {S : Type} (n : nat) (i : Z)
    (body : Z -> S -> option S) (s : S) : option S :=
  match n with
  | O => Some s
  | Datatypes.S n' => s' ← body i s; for_loop_checked n' (i + 1) body s'
  end.

Definition for_range_checked {S : Type} (lo hi : Z)
    (body : Z -> S -> option S) (s : S) : option S :=
  for_loop_checked (Z.to_nat (hi - lo)) lo body s.

(** ** The arithmetic interface *)

Class Num (D : Type) : Type := {
  of_int : Z -> D;           (* conversion of an integer, integral literals *)
  add : D -> D -> D;
  sub : D -> D -> D;
  mul : D -> D -> D;
  div : D -> D -> D;
  neg : D -> D;
  ltb : D -> D -> bool;      (* [a < b] *)
  eqb : D -> D -> bool;      (* [a == b] *)
}.

Class Sqrt (D : Type) : Type := sqrt : D -> D.

Declare Scope num_scope.
Delimit Scope num_scope with num.
Infix "+" := add : num_scope.
Infix "-" := sub : num_scope.
Infix "*" := mul : num_scope.
Infix "/" := div : num_scope.
Notation "- x" := (neg x) : num_scope.
Infix "<?" := ltb : num_scope.
Infix "=?" := eqb : num_scope.

(** binary64: the arithmetic the compiled program runs with.  The conversion
    of an integer is exact below 2^53 in magnitude. *)
Definition float_of_int (z : Z) : float :=
  if 0 <=? z then PrimFloat.of_uint63 (Uint63.of_Z z)
  else PrimFloat.opp (PrimFloat.of_uint63 (Uint63.of_Z (- z))).

#[export] Instance binary64 : Num float := {|
  of_int := float_of_int;
  add := PrimFloat.add;
  sub := PrimFloat.sub;
  mul := PrimFloat.mul;
  div := PrimFloat.div;
  neg := PrimFloat.opp;
  ltb := PrimFloat.ltb;
  eqb := PrimFloat.eqb;
|}.

#[export] Instance binary64_sqrt : Sqrt float := PrimFloat.sqrt.

(** An upper bound on a binary64 number, on its specification: [x] is zero,
    or positive and finite with a value of at most [J * 2^K]. *)
Definition SFup (x : spec_float) (J K : Z) : Prop :=
  match x with
  | S754_zero _ => True
  | S754_finite false m e => Zpos m * 2 ^ (e + 1074) <= J * 2 ^ (K + 1074)
  | _ => False
  end.

(** ** TechnicalIndicators *)

Section Indicators.
Context {D : Type} `{Num D}.
Local Open Scope num_scope.

Notation "v [[ i ]]" := (vget (of_int 0) v i) (at level 1, format "v [[ i ]]").

Definition zeros (n : nat) : list D := replicate n (of_int 0).

(* Simple Moving Average *)
Definition SMA (prices : list D) (period : Z) : list D :=
  let sma := zeros (length prices) in
  if (vsize prices <? to_size_t period)%Z then sma else
  let sum := for_range 0 period (fun i sum => sum + prices[[i]]) (of_int 0) in
  let sma := vset sma (to_size_t (period - 1)) (sum / of_int period) in
  snd (for_range (to_size_t period) (vsize prices)
         (fun i '(sum, sma) =>
            let sum := sum - prices[[to_size_t (i - to_size_t period)]] + prices[[i]] in
            (sum, vset sma i (sum / of_int period)))
         (sum, sma)).

(* Exponential Moving Average *)
Definition EMA (prices : list D) (period : Z) : list D :=
  let ema := zeros (length prices) in
  if (vsize prices <? to_size_t period)%Z then ema else
  let sum := for_range 0 period (fun i sum => sum + prices[[i]]) (of_int 0) in
  let ema := vset ema (to_size_t (period - 1)) (sum / of_int period) in
  let multiplier := of_int 2 / (of_int period + of_int 1) in
  for_range (to_size_t period) (vsize prices)
    (fun i ema =>
       vset ema i ((prices[[i]] - ema[[to_size_t (i - 1)]]) * multiplier
                   + ema[[to_size_t (i - 1)]]))
    ema.

(* The two moving averages with every vector access checked. *)
Definition SMA_checked (prices : list D) (period : Z) : option (list D) :=
  let sma := zeros (length prices) in
  if (vsize prices <? to_size_t period)%Z then Some sma else
  sum ← for_range_checked 0 period
           (fun i sum => x ← vget_checked prices i; Some (sum + x)) (of_int 0);
  sma ← vset_checked sma (to_size_t (period - 1)) (sum / of_int period);
  st ← for_range_checked (to_size_t period) (vsize prices)
          (fun i '(sum, sma) =>
             old ← vget_checked prices (to_size_t (i - to_size_t period));
             new ← vget_checked prices i;
             let sum := sum - old + new in
             sma ← vset_checked sma i (sum / of_int period);
             Some (sum, sma))
          (sum, sma);
  Some (snd st).

Definition EMA_checked (prices : list D) (period : Z) : option (list D) :=
  let ema := zeros (length prices) in
  if (vsize prices <? to_size_t period)%Z then Some ema else
  sum ← for_range_checked 0 period
           (fun i sum => x ← vget_checked prices i; Some (sum + x)) (of_int 0);
  ema ← vset_checked ema (to_size_t (period - 1)) (sum / of_int period);
  let multiplier := of_int 2 / (of_int period + of_int 1) in
  for_range_checked (to_size_t period) (vsize prices)
    (fun i ema =>
       price ← vget_checked prices i;
       previous ← vget_checked ema (to_size_t (i - 1));
       vset_checked ema i ((price - previous) * multiplier + previous))
    ema.

(* Relative Strength Index *)

(* [rs = (avgLoss == 0.0) ? 100.0 : avgGain / avgLoss;
    100.0 - (100.0 / (1.0 + rs))] *)
Definition rsi_rs (avgGain avgLoss : D) : D :=
  if avgLoss =? of_int 0 then of_int 100 else avgGain / avgLoss.

Definition rsi_value (avgGain avgLoss : D) : D :=
  let rs := rsi_rs avgGain avgLoss in
  of_int 100 - (of_int 100 / (of_int 1 + rs)).

(* the initial accumulation over the first [period] changes *)
Definition rsi_init (prices : list D) (period : Z) : D * D :=
  let '(avgGain, avgLoss) :=
    for_range 1 (period + 1)
      (fun i '(avgGain, avgLoss) =>
         let change := prices[[i]] - prices[[to_size_t (i - 1)]] in
         if of_int 0 <? change then (avgGain + change, avgLoss)
         else (avgGain, avgLoss + - change))
      (of_int 0, of_int 0) in
  (avgGain / of_int period, avgLoss / of_int period).

(* one Wilder smoothing step of the two averages at index [i] *)
Definition rsi_smooth (prices : list D) (period : Z) (i : Z) (avg : D * D) : D * D :=
  let '(avgGain, avgLoss) := avg in
  let change := prices[[i]] - prices[[to_size_t (i - 1)]] in
  let gain := if of_int 0 <? change then change else of_int 0 in
  let loss := if change <? of_int 0 then - change else of_int 0 in
  ((avgGain * of_int (period - 1) + gain) / of_int period,
   (avgLoss * of_int (period - 1) + loss) / of_int period).

(* the two averages after [k] smoothing steps, those used at index [period + k] *)
Definition rsi_avg (prices : list D) (period : Z) (k : nat) : D * D :=
  for_loop k (to_size_t (period + 1)) (rsi_smooth prices period) (rsi_init prices period).

(* the body of the smoothing loop: update the averages, store the value *)
Definition rsi_body (prices : list D) (period : Z) (i : Z) (st : (D * D) * list D)
  : (D * D) * list D :=
  let '(avg, rsi) := st in
  let avg := rsi_smooth prices period i avg in
  (avg, vset rsi i (rsi_value (fst avg) (snd avg))).

Definition RSI (prices : list D) (period : Z) : list D :=
  let rsi := replicate (length prices) (of_int 50) in
  if (vsize prices <? to_size_t (period + 1))%Z then rsi else
  let '(avgGain, avgLoss) := rsi_init prices period in
  let rsi := vset rsi (to_size_t period) (rsi_value avgGain avgLoss) in
  snd (for_range (to_size_t (period + 1)) (vsize prices)
         (rsi_body prices period)
         ((avgGain, avgLoss), rsi)).

(* MACD *)
Record MACDResult : Type := { macd : list D; signal : list D; histogram : list D }.

Definition MACD (prices : list D) (fastPeriod slowPeriod signalPeriod : Z) : MACDResult :=
  let fastEMA := EMA prices fastPeriod in
  let slowEMA := EMA prices slowPeriod in
  let macd := for_range 0 (vsize prices)
                (fun i macd => vset macd i (fastEMA[[i]] - slowEMA[[i]]))
                (zeros (length prices)) in
  let signal := EMA macd signalPeriod in
  let histogram := for_range 0 (vsize prices)
                     (fun i hist => vset hist i (macd[[i]] - signal[[i]]))
                     (zeros (length prices)) in
  {| macd := macd; signal := signal; histogram := histogram |}.

(* Standard deviation over the trailing window *)
Definition StdDev `{Sqrt D} (prices : list D) (period : Z) : list D :=
  let stddev := zeros (length prices) in
  let sma := SMA prices period in
  for_range (to_size_t (period - 1)) (vsize prices)
    (fun i stddev =>
       let sum := for_range 0 period
                    (fun j sum =>
                       let diff := prices[[to_size_t (i - to_size_t j)]] - sma[[i]] in
                       sum + diff * diff)
                    (of_int 0) in
       vset stddev i (sqrt (sum / of_int period)))
    stddev.

(* Bollinger Bands *)
Record BollingerBands : Type := { upper : list D; middle : list D; lower : list D }.

Definition BollingerBand `{Sqrt D} (prices : list D) (period : Z) (numStdDev : D)
  : BollingerBands :=
  let middle := SMA prices period in
  let stddev := StdDev prices period in
  let upper := for_range 0 (vsize prices)
                 (fun i up => vset up i (middle[[i]] + numStdDev * stddev[[i]]))
                 (zeros (length prices)) in
  let lower := for_range 0 (vsize prices)
                 (fun i lo => vset lo i (middle[[i]] - numStdDev * stddev[[i]]))
                 (zeros (length prices)) in
  {| upper := upper; middle := middle; lower := lower |}.

End Indicators.

Arguments MACDResult D : clear implicits.
Arguments BollingerBands D : clear implicits.

(** ** Data model (types.hpp) *)

Record OHLCV : Type := {
  date : string;
  open : float;
  high : float;
  low : float;
  close : float;
  adjClose : float;
  volume : Z;
}.

Record Trade : Type := {
  entryDate : string;
  exitDate : string;
  entryPrice : float;
  exitPrice : float;
  shares : float;
  pnl : float;
  returnPct : float;
}.

(** The constructor arguments of [Backtester] other than the price series. *)
Record Params : Type := {
  shortPeriod : Z;
  longPeriod : Z;
  initialCapital : float;
  useRSI : bool;
  useEMA : bool;
  useMACD : bool;
  useBollinger : bool;
  stopLossPercent : float;
  takeProfitPercent : float;
  commissionRate : float;
  useKellyCriterion : bool;
}.

(** The mutable members of [Backtester]: the trade log and the ledger. *)
Record Backtester : Type := {
  trades : list Trade;
  currentCash : float;
  currentShares : float;
  inPosition : bool;
}.

Definition no_bar : OHLCV :=
  {| date := ""; open := 0; high := 0; low := 0; close := 0; adjClose := 0; volume := 0 |}.

Definition no_trade : Trade :=
  {| entryDate := ""; exitDate := ""; entryPrice := 0; exitPrice := 0;
     shares := 0; pnl := 0; returnPct := 0 |}.

(** [trades.back()] and assignment through the reference it returns. *)
Definition back (ts : list Trade) : Trade := List.last ts no_trade.

Fixpoint with_back (f : Trade -> Trade) (ts : list Trade) : list Trade :=
  match ts with
  | [] => []
  | [t] => [f t]
  | t :: ts' => t :: with_back f ts'
  end.

(** [std::max] and [std::min] as the standard defines them. *)
Definition std_max (a b : float) : float := if (a <? b)%float then b else a.
Definition std_min (a b : float) : float := if (b <? a)%float then b else a.

(** The accumulation loop of [calculateKellyFraction]:
    [wins], [totalWinAmount], [totalLossAmount]. *)
Definition kelly_step (acc : Z * float * float) (t : Trade) : Z * float * float :=
  let '(wins, totalWinAmount, totalLossAmount) := acc in
  if (0 <? pnl t)%float
  then ((wins + 1)%Z, (totalWinAmount + returnPct t)%float, totalLossAmount)
  else (wins, totalWinAmount, (totalLossAmount + - returnPct t)%float).

Definition kelly_loop (ts : list Trade) : Z * float * float :=
  fold_left kelly_step ts (0%Z, 0%float, 0%float).

(** The accumulation loop of [calculateMetrics]:
    [winningTrades], [totalWin], [totalLoss]. *)
Definition metrics_step (acc : Z * float * float) (t : Trade) : Z * float * float :=
  let '(winningTrades, totalWin, totalLoss) := acc in
  if (0 <? pnl t)%float
  then ((winningTrades + 1)%Z, (totalWin + pnl t)%float, totalLoss)
  else (winningTrades, totalWin, (totalLoss + - pnl t)%float).

Definition metrics_loop (ts : list Trade) : Z * float * float :=
  fold_left metrics_step ts (0%Z, 0%float, 0%float).

(** ** Backtester *)

Section Engine.
Variable data : list OHLCV.
Variable p : Params.
Local Open Scope float_scope.

Notation "'data[' i ]" := (vget no_bar data i) (at level 0, format "'data[' i ]").

(* the constructor *)
Definition Backtester_new : Backtester :=
  {| trades := []; currentCash := initialCapital p; currentShares := 0;
     inPosition := false |}.

Definition calculateKellyFraction (bt : Backtester) : float :=
  if (vsize (trades bt) <? 5)%Z then 1 else
  let '(wins, totalWinAmount, totalLossAmount) := kelly_loop (trades bt) in
  if (wins =? 0)%Z || (wins =? to_int (vsize (trades bt)))%Z then 1 else
  let winRate := float_of_int wins / float_of_int (vsize (trades bt)) in
  let avgWin := totalWinAmount / float_of_int wins in
  let avgLoss := totalLossAmount / float_of_int (to_size_t (vsize (trades bt) - wins)) in
  if avgLoss =? 0 then 1 else
  let kelly := winRate - (1 - winRate) / (avgWin / avgLoss) in
  std_max 0 (std_min (kelly * 0.5) 1).

Definition enterPosition (idx : Z) (bt : Backtester) : Backtester :=
  let entryPrice :=
    if (to_size_t (idx + 1) <? vsize data)%Z && (0 <? open data[to_size_t (idx + 1)])
    then open data[to_size_t (idx + 1)]
    else close data[idx] in
  let commission := currentCash bt * commissionRate p in
  let availableCash := currentCash bt - commission in
  let positionFraction :=
    if useKellyCriterion p && (5 <=? vsize (trades bt))%Z
    then calculateKellyFraction bt else 1 in
  let currentShares' := (availableCash * positionFraction) / entryPrice in
  (* [Trade t;] leaves exitPrice, pnl and returnPct unset until the exit *)
  let t := {| entryDate := date data[idx]; exitDate := "";
              entryPrice := entryPrice; exitPrice := 0;
              shares := currentShares'; pnl := 0; returnPct := 0 |} in
  {| trades := trades bt ++ [t]; currentCash := 0;
     currentShares := currentShares'; inPosition := true |}.

Definition exitPosition (idx : Z) (bt : Backtester) : Backtester :=
  let exitPrice :=
    if (to_size_t (idx + 1) <? vsize data)%Z && (0 <? open data[to_size_t (idx + 1)])
    then open data[to_size_t (idx + 1)]
    else close data[idx] in
  let grossProceeds := currentShares bt * exitPrice in
  let commission := grossProceeds * commissionRate p in
  let currentCash' := grossProceeds - commission in
  let close_trade (t : Trade) : Trade :=
    let pnl' := currentCash' - (shares t * entryPrice t) in
    {| entryDate := entryDate t; exitDate := date data[idx];
       entryPrice := entryPrice t; exitPrice := exitPrice;
       shares := shares t; pnl := pnl';
       returnPct := (pnl' / (shares t * entryPrice t)) * 100 |} in
  {| trades := with_back close_trade (trades bt); currentCash := currentCash';
     currentShares := 0; inPosition := false |}.

Definition checkStopLoss (idx : Z) (bt : Backtester) : bool :=
  if (stopLossPercent p <=? 0) || bool_decide (trades bt = []) then false else
  let currentPrice := close data[idx] in
  let entryPrice := entryPrice (back (trades bt)) in
  let pnlPercent := (currentPrice - entryPrice) / entryPrice in
  pnlPercent <=? - stopLossPercent p.

Definition checkTakeProfit (idx : Z) (bt : Backtester) : bool :=
  if (takeProfitPercent p <=? 0) || bool_decide (trades bt = []) then false else
  let currentPrice := close data[idx] in
  let entryPrice := entryPrice (back (trades bt)) in
  let pnlPercent := (currentPrice - entryPrice) / entryPrice in
  takeProfitPercent p <=? pnlPercent.

(** The indicator series [run] computes up front. *)
Record Series : Type := {
  closes : list float;
  shortMA : list float;
  longMA : list float;
  rsi : list float;
  macdData : MACDResult float;
  bb : BollingerBands float;
}.

Definition run_series : Series :=
  let closes := List.map close data in
  {| closes := closes;
     shortMA := if useEMA p then EMA closes (shortPeriod p) else SMA closes (shortPeriod p);
     longMA := if useEMA p then EMA closes (longPeriod p) else SMA closes (longPeriod p);
     rsi := if useRSI p then RSI closes 14 else [];
     macdData := if useMACD p then MACD closes 12 26 9
                 else {| macd := []; signal := []; histogram := [] |};
     bb := if useBollinger p then BollingerBand closes 20 2
           else {| upper := []; middle := []; lower := [] |} |}.

Notation "v [[ i ]]" := (vget 0 v i) (at level 1, format "v [[ i ]]").

(* the two crossover candidates of bar [i] *)
Definition crossover (s : Series) (i : Z) : bool * bool :=
  if (0 <? i)%Z then
    let currentCross := (longMA s)[[i]] <? (shortMA s)[[i]] in
    let previousCross := (longMA s)[[to_size_t (i - 1)]] <? (shortMA s)[[to_size_t (i - 1)]] in
    if currentCross && negb previousCross then (true, false)
    else if negb currentCross && previousCross then (false, true)
    else (false, false)
  else (false, false).

(* the three optional filters, applied to the entry candidate only *)
Definition filter_entry (s : Series) (i : Z) (entrySignal : bool) : bool :=
  let entrySignal :=
    if useRSI p && entrySignal
    then (if 70 <=? (rsi s)[[i]] then false else entrySignal)
    else entrySignal in
  let entrySignal :=
    if useMACD p && entrySignal
    then (if (histogram (macdData s))[[i]] <=? 0 then false else entrySignal)
    else entrySignal in
  if useBollinger p && entrySignal
  then (if (upper (bb s))[[i]] <? (closes s)[[i]] then false else entrySignal)
  else entrySignal.

(* the body of the forward pass at bar [i] *)
Definition run_step (s : Series) (i : Z) (bt : Backtester) : Backtester :=
  if inPosition bt && checkStopLoss i bt then exitPosition i bt
  else if inPosition bt && checkTakeProfit i bt then exitPosition i bt
  else
    let '(entrySignal, exitSignal) := crossover s i in
    let entrySignal := filter_entry s i entrySignal in
    if entrySignal && negb (inPosition bt) then enterPosition i bt
    else if exitSignal && inPosition bt then exitPosition i bt
    else bt.

(* the state after the first [n] iterations of the forward pass *)
Definition run_prefix (n : nat) (bt : Backtester) : Backtester :=
  for_loop n (to_size_t (longPeriod p)) (run_step run_series) bt.

Definition run_pass (bt : Backtester) : Backtester :=
  for_range (to_size_t (longPeriod p)) (vsize data) (run_step run_series) bt.

Definition run (bt : Backtester) : Backtester :=
  if (vsize data <? to_size_t (longPeriod p + 1))%Z then bt else
  let bt := run_pass bt in
  if inPosition bt then exitPosition (to_size_t (vsize data - 1)) bt else bt.

(** The equity-curve replay of [calculateMaxDrawdown]: its local variables. *)
Record Replay : Type := {
  peak : float;
  maxDD : float;
  equity : float;
  tradeIdx : Z;
  holding : bool;
  rp_entryPrice : float;
  rp_shares : float;
}.

Definition replay_match (ts : list Trade) (i : Z) (r : Replay) : Replay :=
  if (tradeIdx r <? vsize ts)%Z then
    let t := vget no_trade ts (tradeIdx r) in
    let r :=
      if negb (holding r) && String.eqb (date data[i]) (entryDate t)
      then {| peak := peak r; maxDD := maxDD r;
              equity := shares t * entryPrice t;
              tradeIdx := tradeIdx r; holding := true;
              rp_entryPrice := entryPrice t; rp_shares := shares t |}
      else r in
    if holding r then
      let equity' := rp_shares r * close data[i] in
      if String.eqb (date data[i]) (exitDate t)
      then {| peak := peak r; maxDD := maxDD r;
              equity := rp_shares r * exitPrice t;
              tradeIdx := (tradeIdx r + 1)%Z; holding := false;
              rp_entryPrice := rp_entryPrice r; rp_shares := rp_shares r |}
      else {| peak := peak r; maxDD := maxDD r; equity := equity';
              tradeIdx := tradeIdx r; holding := true;
              rp_entryPrice := rp_entryPrice r; rp_shares := rp_shares r |}
    else r
  else r.

Definition replay_step (ts : list Trade) (i : Z) (r : Replay) : Replay :=
  let r := replay_match ts i r in
  let peak' := if peak r <? equity r then equity r else peak r in
  let dd := ((peak' - equity r) / peak') * 100 in
  {| peak := peak'; maxDD := if maxDD r <? dd then dd else maxDD r;
     equity := equity r; tradeIdx := tradeIdx r; holding := holding r;
     rp_entryPrice := rp_entryPrice r; rp_shares := rp_shares r |}.

Definition replay_start : Replay :=
  {| peak := initialCapital p; maxDD := 0; equity := initialCapital p;
     tradeIdx := 0; holding := false; rp_entryPrice := 0; rp_shares := 0 |}.

(* the replay after its first [n] bars *)
Definition replay_prefix (ts : list Trade) (n : nat) : Replay :=
  for_loop n (to_size_t (longPeriod p)) (replay_step ts) replay_start.

Definition calculateMaxDrawdown (bt : Backtester) : float :=
  if bool_decide (data = []) then 0 else
  maxDD (for_range (to_size_t (longPeriod p)) (vsize data)
           (replay_step (trades bt)) replay_start).
End Engine.

(** ** Statements about the ledger and the fills *)

(** The fill rule in the words of the design: the next bar's open when that
    bar exists and its open is positive, otherwise the current bar's close. *)
Definition fill_price (data : list OHLCV) (i : nat) : float :=
  match data !! S i with
  | Some next => if (0 <? open next)%float then open next else close (nth i data no_bar)
  | None => close (nth i data no_bar)
  end.

(** [cash == 0 || shares == 0]: cash and shares are not both nonzero. *)
Definition cash_or_shares_zero (bt : Backtester) : bool :=
  (currentCash bt =? 0)%float || (currentShares bt =? 0)%float.

(** [cash == 0 XOR shares == 0]: exactly one of the two is zero. *)
Definition cash_xor_shares_zero (bt : Backtester) : bool :=
  xorb (currentCash bt =? 0)%float (currentShares bt =? 0)%float.

(** While a position is open, the last trade of the log is the open one. *)
Definition open_trade_tracked (bt : Backtester) : Prop :=
  inPosition bt = true ->
  trades bt <> [] /\ currentShares bt = shares (back (trades bt)).

(** What a closed trade brought in: before and after the exit commission. *)
Definition gross_proceeds (t : Trade) : float := (shares t * exitPrice t)%float.

Definition net_proceeds (p : Params) (t : Trade) : float :=
  (gross_proceeds t - gross_proceeds t * commissionRate p)%float.

(** While flat after at least one trade, cash is the net proceeds of the last. *)
Definition cash_is_net_proceeds (p : Params) (bt : Backtester) : Prop :=
  inPosition bt = false -> trades bt <> [] ->
  currentCash bt = net_proceeds p (back (trades bt)).

(** The rest of [run] from bar [i]: [m] more bars of the forward pass, then
    the closing of a position that is still open. *)
Definition run_rest (data : list OHLCV) (p : Params) (m : nat) (i : Z)
    (bt : Backtester) : Backtester :=
  let bt := for_loop m i (run_step data p (run_series data p)) bt in
  if inPosition bt then exitPosition data p (to_size_t (vsize data - 1)) bt else bt.

(** The trade was entered, or closed, at a bar from [i] on; the position
    left open by the forward pass is closed at the last bar. *)
Definition entered_from (data : list OHLCV) (i : Z) (t : Trade) : Prop :=
  exists j, i <= j < vsize data /\ entryDate t = date (vget no_bar data j).

Definition exited_from (data : list OHLCV) (i : Z) (t : Trade) : Prop :=
  exists x, (i <= x < vsize data \/ x = to_size_t (vsize data - 1))
            /\ exitDate t = date (vget no_bar data x).

(** The cost basis of a trade, and the return% [exitPosition] books on it. *)
Definition cost_basis (t : Trade) : float := (shares t * entryPrice t)%float.

Definition booked_return (t : Trade) : Prop :=
  returnPct t = (pnl t / cost_basis t * 100)%float.

(** ** The Kelly fraction in the words of the design

    [winRate = wins / total]; [avgWin] is the mean return% of the winning
    trades and [avgLoss] the mean of minus the return% of the others; the
    half-Kelly value is [(winRate - (1 - winRate) / (avgWin / avgLoss)) / 2],
    clamped to [0, 1]. *)
Definition is_win (t : Trade) : bool := (0 <? pnl t)%float.

Definition winners (ts : list Trade) : list Trade := List.filter is_win ts.

Definition losers (ts : list Trade) : list Trade :=
  List.filter (fun t => negb (is_win t)) ts.

Definition kelly_wins (ts : list Trade) : Z :=
  Z.of_nat (length (List.filter is_win ts)).

Definition kelly_avgWin (ts : list Trade) : float :=
  (fold_left (fun acc t => acc + returnPct t) (List.filter is_win ts) 0
   / float_of_int (kelly_wins ts))%float.

Definition kelly_avgLoss (ts : list Trade) : float :=
  (fold_left (fun acc t => acc + - returnPct t)
     (List.filter (fun t => negb (is_win t)) ts) 0
   / float_of_int (vsize ts - kelly_wins ts))%float.

Definition half_kelly (ts : list Trade) : float :=
  let winRate := (float_of_int (kelly_wins ts) / float_of_int (vsize ts))%float in
  ((winRate - (1 - winRate) / (kelly_avgWin ts / kelly_avgLoss ts)) * 0.5)%float.

Definition clamp01 (x : float) : float := std_max 0 (std_min x 1).

(** ** Scenarios

    Daily bars for a 1/2-bar crossover: the close alternates between 10 and 9,
    so that an entry is signalled on every even bar from bar 2 and an exit on
    every odd bar from bar 3; each fill is the next bar's open. *)
Module Scenario.
Local Open Scope string_scope.
Local Open Scope float_scope.

Definition bar (d : string) (o c : float) : OHLCV :=
  {| date := d; open := o; high := c; low := c; close := c; adjClose := c;
     volume := 0 |}.

Definition params (kelly : bool) (commission : float) : Params :=
  {| shortPeriod := 1; longPeriod := 2; initialCapital := 1000;
     useRSI := false; useEMA := false; useMACD := false; useBollinger := false;
     stopLossPercent := 0; takeProfitPercent := 0; commissionRate := commission;
     useKellyCriterion := kelly |}.

(* four round trips bought at 10 and sold at 11, one bought at 10 and sold
   at 9, then a sixth entry on the last bar *)
Definition mostly_wins : list OHLCV :=
  [ bar "2024-01-01" 10 10; bar "2024-01-02" 10 9;
    bar "2024-01-03" 10 10; bar "2024-01-04" 10 9;
    bar "2024-01-05" 11 10; bar "2024-01-08" 10 9;
    bar "2024-01-09" 11 10; bar "2024-01-10" 10 9;
    bar "2024-01-11" 11 10; bar "2024-01-12" 10 9;
    bar "2024-01-15" 11 10; bar "2024-01-16" 10 9;
    bar "2024-01-17" 9 10 ].

(* one round trip bought at 10 and sold at 11, four bought at 10 and sold
   at 9, then a sixth entry on the last bar *)
Definition mostly_losses : list OHLCV :=
  [ bar "2024-01-01" 10 10; bar "2024-01-02" 10 9;
    bar "2024-01-03" 10 10; bar "2024-01-04" 10 9;
    bar "2024-01-05" 11 10; bar "2024-01-08" 10 9;
    bar "2024-01-09" 9 10; bar "2024-01-10" 10 9;
    bar "2024-01-11" 9 10; bar "2024-01-12" 10 9;
    bar "2024-01-15" 9 10; bar "2024-01-16" 10 9;
    bar "2024-01-17" 9 10 ].

(* one round trip, then a flat bar *)
Definition one_trade : list OHLCV :=
  [ bar "2024-01-01" 10 10; bar "2024-01-02" 10 9;
    bar "2024-01-03" 10 10; bar "2024-01-04" 10 9;
    bar "2024-01-05" 9 9 ].

(* [mostly_losses] with two more bars: the sixth position, of 0 shares, is
   closed on a signal and a seventh entry is signalled on the last bar *)
Definition zero_stake : list OHLCV :=
  [ bar "2024-01-01" 10 10; bar "2024-01-02" 10 9;
    bar "2024-01-03" 10 10; bar "2024-01-04" 10 9;
    bar "2024-01-05" 11 10; bar "2024-01-08" 10 9;
    bar "2024-01-09" 9 10; bar "2024-01-10" 10 9;
    bar "2024-01-11" 9 10; bar "2024-01-12" 10 9;
    bar "2024-01-15" 9 10; bar "2024-01-16" 10 9;
    bar "2024-01-17" 9 10; bar "2024-01-18" 10 9;
    bar "2024-01-19" 9 10 ].

(* one round trip bought and sold at 10 *)
Definition break_even : list OHLCV :=
  [ bar "2024-01-01" 10 10; bar "2024-01-02" 10 9;
    bar "2024-01-03" 10 10; bar "2024-01-04" 10 9;
    bar "2024-01-05" 10 9 ].

(* sixteen closes rising by 1 a day *)
Definition rising : list float :=
  [1; 2; 3; 4; 5; 6; 7; 8; 9; 10; 11; 12; 13; 14; 15; 16].

(* fifteen finite closes swinging between 0 and 2^1023 *)
Definition huge : float := 0x1p1023.
Definition swinging : list float :=
  [0; huge; 0; huge; 0; huge; 0; huge; 0; huge; 0; huge; 0; huge; 0].

(* the default commission rate, the double nearest to 0.001 *)
Definition default_commission : float := 1 / 1000.
End Scenario.

(** ** Loop states of the moving averages

    The seed and the running sum of the sliding window of [SMA], named so
    that statements can refer to them. *)
Section Windows.
Context {D : Type} `{Num D}.
Local Open Scope num_scope.

Definition sma_seed (prices : list D) (period : Z) : D :=
  for_range 0 period (fun i sum => sum + vget (of_int 0) prices i) (of_int 0).

Definition sma_slide (prices : list D) (period : Z) (i : Z) (sum : D) : D :=
  sum - vget (of_int 0) prices (to_size_t (i - to_size_t period))
  + vget (of_int 0) prices i.

(* the running sum after [k] slides, the one used at index [period + k - 1] *)
Definition sma_sum (prices : list D) (period : Z) (k : nat) : D :=
  for_loop k (to_size_t period) (sma_slide prices period) (sma_seed prices period).

(* the smoothing factor of [EMA], and the value its loop stores at index [i] *)
Definition ema_multiplier (period : Z) : D :=
  of_int 2 / (of_int period + of_int 1).

Definition ema_next (prices : list D) (period : Z) (i : Z) (ema : list D) : D :=
  (vget (of_int 0) prices i - vget (of_int 0) ema (to_size_t (i - 1)))
  * ema_multiplier period
  + vget (of_int 0) ema (to_size_t (i - 1)).
End Windows.

(** A loop that carries a state and stores a function of it at each index. *)
Definition scan_body {A B : Type} (step : Z -> A -> A) (g : A -> B)
    (i : Z) (st : A * list B) : A * list B :=
  let '(a, v) := st in
  let a' := step i a in
  (a', vset v i (g a')).

(** ** More of the engine *)

(** The trades of the log that are closed: all of them while flat, all but
    the last while a position is open. *)
Definition closed_part (bt : Backtester) : list Trade :=
  if inPosition bt then removelast (trades bt) else trades bt.

(** The books of a closed trade as [exitPosition] writes them. *)
Definition settled (p : Params) (t : Trade) : Prop :=
  pnl t = (net_proceeds p t - cost_basis t)%float /\ booked_return t.

(** A binary64 value that is a zero of either sign or a NaN. *)
Definition zero_or_nan (x : float) : Prop :=
  match Prim2SF x with
  | S754_zero _ | S754_nan => True
  | _ => False
  end.

(** [finalValue] of [calculateMetrics] and [exportResults]. *)
Definition finalValue (data : list OHLCV) (bt : Backtester) : float :=
  (currentCash bt
   + (if inPosition bt then currentShares bt * close (List.last data no_bar)
      else 0))%float.

(** [calculateSharpeRatio]. *)
Definition calculateSharpeRatio (data : list OHLCV) (bt : Backtester) : float :=
  match trades bt with
  | [] => 0%float
  | _ =>
      let returns := map (fun t => (returnPct t / 100)%float) (trades bt) in
      let size := float_of_int (vsize returns) in
      let mean := (fold_left PrimFloat.add returns 0 / size)%float in
      let variance :=
        (fold_left (fun v r => v + (r - mean) * (r - mean)) returns 0 / size)%float in
      let stdDev := PrimFloat.sqrt variance in
      if (stdDev =? 0)%float then 0%float
      else (mean / stdDev
            * PrimFloat.sqrt
                (252 / (float_of_int (vsize data) / float_of_int (vsize (trades bt)))))%float
  end.

(** ** Reading the price file (CSVParser.cpp)

    An input stream is the string of the characters not yet read. *)

(* [isspace] in the "C" locale: space, \t, \n, \v, \f, \r *)
Definition isspace (ch : ascii) : bool :=
  let n := N_of_ascii ch in
  ((n =? 32) || ((9 <=? n) && (n <=? 13)))%N.

(* s.erase(s.begin(), find_if(s.begin(), s.end(), not isspace)) *)
Fixpoint erase_leading (s : string) : string :=
  match s with
  | EmptyString => EmptyString
  | String ch s' => if isspace ch then erase_leading s' else s
  end.

(* s.erase(find_if(s.rbegin(), s.rend(), not isspace).base(), s.end()):
   everything after the last character that is no space goes *)
Fixpoint erase_trailing (s : string) : string :=
  match s with
  | EmptyString => EmptyString
  | String ch s' =>
      match erase_trailing s' with
      | EmptyString => if isspace ch then EmptyString else String ch EmptyString
      | String _ _ as t => String ch t
      end
  end.

Definition trim (s : string) : string := erase_trailing (erase_leading s).

(** A string of white space only. *)
Fixpoint blank (s : string) : bool :=
  match s with
  | EmptyString => true
  | String ch s' => isspace ch && blank s'
  end.

(** What the first and the last character of a string satisfy, and whether
    a character occurs in it. *)
Definition starts_with (p : ascii -> bool) (s : string) : bool :=
  match s with
  | EmptyString => false
  | String ch _ => p ch
  end.

Fixpoint ends_with (p : ascii -> bool) (s : string) : bool :=
  match s with
  | EmptyString => false
  | String ch EmptyString => p ch
  | String _ s' => ends_with p s'
  end.

Fixpoint occurs (d : ascii) (s : string) : bool :=
  match s with
  | EmptyString => false
  | String ch s' => Ascii.eqb ch d || occurs d s'
  end.

Definition is_empty (s : string) : bool :=
  match s with EmptyString => true | String _ _ => false end.

(* the characters up to the delimiter, and the stream behind the delimiter *)
Fixpoint read_until (delim : ascii) (s : string) : string * string :=
  match s with
  | EmptyString => (EmptyString, EmptyString)
  | String ch s' =>
      if Ascii.eqb ch delim then (EmptyString, s')
      else let '(token, rest) := read_until delim s' in (String ch token, rest)
  end.

(* [getline(stream, token, delim)]: [None] when the stream fails, which it
   does when nothing is left to extract *)
Definition getline (delim : ascii) (s : string) : option (string * string) :=
  if is_empty s then None else Some (read_until delim s).

(* [while (getline(stream, token, delim))]: the tokens in order *)
Fixpoint getlines (fuel : nat) (delim : ascii) (s : string) : list string :=
  match fuel with
  | O => []
  | Datatypes.S fuel' =>
      match getline delim s with
      | None => []
      | Some (token, rest) => token :: getlines fuel' delim rest
      end
  end.

Definition tokens (delim : ascii) (s : string) : list string :=
  getlines (String.length s) delim s.

(** The tokens written back with the delimiter between them. *)
Fixpoint join (delim : ascii) (l : list string) : string :=
  match l with
  | [] => EmptyString
  | [t] => t
  | t :: l' => String.append t (String delim (join delim l'))
  end.

Definition comma : ascii := ","%char.
Definition newline : ascii := "010"%char.

Section CSVParser.
(* [std::stod] and [std::stoll]; [None] when they throw *)
Variable stod : string -> option float.
Variable stoll : string -> option Z.

Definition parseDouble (s : string) : float :=
  if is_empty s then 0%float else
  match stod s with Some x => x | None => 0%float end.

Definition parseLong (s : string) : Z :=
  if is_empty s then 0 else
  match stoll s with Some n => n | None => 0 end.

(* the [switch (col)] of [parseLine] *)
Definition set_column (col : Z) (token : string) (row : OHLCV) : OHLCV :=
  match col with
  | 0 => {| date := token; open := open row; high := high row; low := low row;
            close := close row; adjClose := adjClose row; volume := volume row |}
  | 1 => {| date := date row; open := parseDouble token; high := high row;
            low := low row; close := close row; adjClose := adjClose row;
            volume := volume row |}
  | 2 => {| date := date row; open := open row; high := parseDouble token;
            low := low row; close := close row; adjClose := adjClose row;
            volume := volume row |}
  | 3 => {| date := date row; open := open row; high := high row;
            low := parseDouble token; close := close row; adjClose := adjClose row;
            volume := volume row |}
  | 4 => {| date := date row; open := open row; high := high row; low := low row;
            close := parseDouble token; adjClose := adjClose row;
            volume := volume row |}
  | 5 => {| date := date row; open := open row; high := high row; low := low row;
            close := close row; adjClose := parseDouble token;
            volume := volume row |}
  | 6 => {| date := date row; open := open row; high := high row; low := low row;
            close := close row; adjClose := adjClose row;
            volume := parseLong token |}
  | _ => row
  end.

Definition parseLine_body (token : string) (st : Z * OHLCV) : Z * OHLCV :=
  let '(col, row) := st in (col + 1, set_column col (trim token) row).

(* [OHLCV row;] default-constructs the date and leaves the numbers as they
   lie in memory: [junk] stands for what lay there *)
Definition fresh_row (junk : OHLCV) : OHLCV :=
  {| date := EmptyString; open := open junk; high := high junk; low := low junk;
     close := close junk; adjClose := adjClose junk; volume := volume junk |}.

Definition parseLine (junk : OHLCV) (line : string) : OHLCV :=
  snd (fold_left (fun st token => parseLine_body token st)
         (tokens comma line) (0, fresh_row junk)).

(* the [while (getline(file, line))] of [parse]; the [k]-th call of
   [parseLine] finds [junk k] in memory *)
Fixpoint parse_loop (fuel : nat) (junk : nat -> OHLCV) (file : string)
    (data : list OHLCV) : list OHLCV :=
  match fuel with
  | O => data
  | Datatypes.S fuel' =>
      match getline newline file with
      | None => data
      | Some (line, file') =>
          if is_empty line then parse_loop fuel' junk file' data
          else parse_loop fuel' junk file'
                 (data ++ [parseLine (junk (length data)) line])
      end
  end.

(* [parse] on a file that opened, given by its contents *)
Definition parse_stream (junk : nat -> OHLCV) (contents : string) : list OHLCV :=
  let file := match getline newline contents with
              | Some (_, rest) => rest
              | None => contents
              end in
  parse_loop (String.length file) junk file [].

(* [None]: the file cannot be opened, and [parse] throws *)
Definition parse (junk : nat -> OHLCV) (file : option string) : option (list OHLCV) :=
  match file with
  | Some contents => Some (parse_stream junk contents)
  | None => None
  end.

(** The rows that a list of lines gives: one for each line that is not
    empty, the [k]-th of them read over [junk k]. *)
Definition rows_of (junk : nat -> OHLCV) (lines : list string) : list OHLCV :=
  imap (fun k line => parseLine (junk k) line)
    (List.filter (fun line => negb (is_empty line)) lines).
End CSVParser.

(** ** The report (Backtester.cpp, types.hpp) *)

(** [std::stoi] in base 10: white space is skipped, a sign is read, then the
    decimal digits up to the first other character.  [None] stands for the
    two exceptions, [std::invalid_argument] when there is no digit and
    [std::out_of_range] when the number is no [int]. *)
Definition digit (ch : ascii) : option Z :=
  let n := Z.of_N (N_of_ascii ch) in
  if (48 <=? n) && (n <=? 57) then Some (n - 48) else None.

Fixpoint digits (s : string) (acc : option Z) : option Z :=
  match s with
  | EmptyString => acc
  | String ch s' =>
      match digit ch with
      | Some d => digits s' (Some (10 * default 0 acc + d))
      | None => acc
      end
  end.

Definition stoi (s : string) : option Z :=
  let s := erase_leading s in
  let '(negative, s) :=
    match s with
    | String "-" s' => (true, s')
    | String "+" s' => (false, s')
    | _ => (false, s)
    end in
  n ← digits s None;
  let n := if negative : bool then - n else n in
  if (- 2 ^ 31 <=? n) && (n <? 2 ^ 31) then Some n else None.

(** The report of [calculateMetrics]. *)
Record PerformanceMetrics : Type := {
  totalReturn : float;
  cagr : float;
  maxDrawdown : float;
  sharpeRatio : float;
  numTrades : Z;
  winningTrades : Z;
  winRate : float;
  avgWin : float;
  avgLoss : float;
  profitFactor : float;
}.

Section Metrics.
(* [std::pow] *)
Variable pow : float -> float -> float.
Variable data : list OHLCV.
Variable p : Params.

(* four characters keep both years within [-999, 9999]: the [int]
   subtraction does not wrap *)
Definition calculateYears (start finish : string) : option float :=
  startYear ← stoi (substring 0 4 start);
  endYear ← stoi (substring 0 4 finish);
  let years := float_of_int (endYear - startYear) in
  Some (if (0 <? years)%float then years else 1%float).

#[local] Set Warnings "-inexact-float".

(* [None]: [data.front()] on an empty series, or [std::stoi] throws *)
Definition calculateMetrics (bt : Backtester) : option PerformanceMetrics :=
  let numTrades := to_int (vsize (trades bt)) in
  let finalValue := finalValue data bt in
  let totalReturn := ((finalValue - initialCapital p) / initialCapital p * 100)%float in
  first ← head data;
  years ← calculateYears (date first) (date (List.last data no_bar));
  let cagr := ((pow (finalValue / initialCapital p) (1 / years) - 1) * 100)%float in
  let maxDrawdown := calculateMaxDrawdown data p bt in
  let '(winningTrades, totalWin, totalLoss) := metrics_loop (trades bt) in
  Some {| totalReturn := totalReturn;
          cagr := cagr;
          maxDrawdown := maxDrawdown;
          sharpeRatio := calculateSharpeRatio data bt;
          numTrades := numTrades;
          winningTrades := winningTrades;
          winRate := if 0 <? numTrades
                     then (float_of_int winningTrades * 100 / float_of_int numTrades)%float
                     else 0%float;
          avgWin := if 0 <? winningTrades
                    then (totalWin / float_of_int winningTrades)%float else 0%float;
          avgLoss := if 0 <? numTrades - winningTrades
                     then (totalLoss / float_of_int (numTrades - winningTrades))%float
                     else 0%float;
          profitFactor := if (0 <? totalLoss)%float then (totalWin / totalLoss)%float
                          else if (0 <? totalWin)%float then 999.99%float
                               else 0%float |}.

#[local] Set Warnings "inexact-float".
End Metrics.

(** * Properties *)

(** ** Loops and vectors *)

Lemma for_loop_inv {S : Type} (P : S -> Prop) (body : Z -> S -> S) :
  (forall i s, P s -> P (body i s)) ->
  forall n i s, P s -> P (for_loop n i body s).
Proof.
  intros Hbody n. induction n as [|n IH]; intros i s Hs; simpl; auto.
Qed.

Lemma for_range_inv {S : Type} (P : S -> Prop) (body : Z -> S -> S) lo hi s :
  (forall i s, P s -> P (body i s)) -> P s -> P (for_range lo hi body s).
Proof. intros Hbody Hs. unfold for_range. now apply for_loop_inv. Qed.

Lemma for_loop_snoc {S : Type} (body : Z -> S -> S) n i s :
  for_loop (Datatypes.S n) i body s = body (i + Z.of_nat n) (for_loop n i body s).
Proof.
  revert i s. induction n as [|n IH]; intros i s.
  - simpl. now rewrite Z.add_0_r.
  - change (for_loop (Datatypes.S (Datatypes.S n)) i body s)
      with (for_loop (Datatypes.S n) (i + 1) body (body i s)).
    rewrite IH. simpl for_loop. f_equal. lia.
Qed.

Lemma in_bounds_true {A} (v : list A) i :
  in_bounds v i = true <-> 0 <= i < vsize v.
Proof. unfold in_bounds, vsize. rewrite andb_true_iff, Z.leb_le, Z.ltb_lt. tauto. Qed.

Lemma length_vset {A} (v : list A) i x : length (vset v i x) = length v.
Proof. unfold vset. destruct (in_bounds v i); [apply length_insert | reflexivity]. Qed.

Lemma vsize_vset {A} (v : list A) i x : vsize (vset v i x) = vsize v.
Proof. unfold vsize. now rewrite length_vset. Qed.

Lemma vget_vset_eq {A} (d : A) (v : list A) i x :
  0 <= i < vsize v -> vget d (vset v i x) i = x.
Proof.
  intros Hi. unfold vget. replace (in_bounds (vset v i x) i) with true.
  2:{ symmetry. apply in_bounds_true. now rewrite vsize_vset. }
  unfold vset. apply in_bounds_true in Hi as Hb. rewrite Hb.
  apply nth_lookup_Some. apply list_lookup_insert_eq. unfold vsize in Hi. lia.
Qed.

Lemma vget_vset_ne {A} (d : A) (v : list A) i j x :
  i <> j -> vget d (vset v i x) j = vget d v j.
Proof.
  intros Hij. unfold vget.
  replace (in_bounds (vset v i x) j) with (in_bounds v j).
  2:{ unfold in_bounds. now rewrite length_vset. }
  destruct (in_bounds v j) eqn:Hj; [|reflexivity].
  unfold vset. destruct (in_bounds v i) eqn:Hi; [|reflexivity].
  apply in_bounds_true in Hi, Hj.
  rewrite !nth_lookup. f_equal. apply list_lookup_insert_ne. lia.
Qed.

Lemma Forall_vset {A} (P : A -> Prop) (v : list A) i x :
  Forall P v -> P x -> Forall P (vset v i x).
Proof.
  intros Hv Hx. unfold vset. destruct (in_bounds v i); [|assumption].
  now apply Forall_insert.
Qed.

Lemma to_size_t_small z : 0 <= z < 2 ^ 64 -> to_size_t z = z.
Proof. intros Hz. unfold to_size_t. now apply Z.mod_small. Qed.

Lemma to_int_small z : in_int z -> to_int z = z.
Proof. unfold in_int, to_int. intros Hz. rewrite Z.mod_small; lia. Qed.

(** ** The trade log *)

Lemma with_back_nil f ts : with_back f ts = [] <-> ts = [].
Proof.
  destruct ts as [|t [|t' ts]]; simpl; split; intros Hts; congruence.
Qed.

Lemma back_with_back f ts : ts <> [] -> back (with_back f ts) = f (back ts).
Proof.
  unfold back. induction ts as [|t ts IH]; intros Hne; [congruence|].
  destruct ts as [|t' ts]; [reflexivity|].
  change (with_back f (t :: t' :: ts)) with (t :: with_back f (t' :: ts)).
  assert (Hne' : with_back f (t' :: ts) <> []) by (rewrite with_back_nil; congruence).
  destruct (with_back f (t' :: ts)) as [|u us] eqn:Hw; [congruence|].
  change (List.last (t :: u :: us) no_trade) with (List.last (u :: us) no_trade).
  rewrite IH by congruence. reflexivity.
Qed.

Lemma back_snoc ts t : back (ts ++ [t]) = t.
Proof. unfold back. apply List.last_last. Qed.

Lemma with_back_removelast f ts :
  ts <> [] -> with_back f ts = removelast ts ++ [f (back ts)].
Proof.
  unfold back. induction ts as [|t ts IH]; intros Hne; [congruence|].
  destruct ts as [|t' ts]; [reflexivity|].
  change (with_back f (t :: t' :: ts)) with (t :: with_back f (t' :: ts)).
  rewrite IH by congruence. reflexivity.
Qed.

(** ** The forward pass, one bar at a time *)

Lemma run_step_cases data p s i bt :
  run_step data p s i bt = bt
  \/ (inPosition bt = false /\ run_step data p s i bt = enterPosition data p i bt)
  \/ (inPosition bt = true /\ run_step data p s i bt = exitPosition data p i bt).
Proof.
  unfold run_step.
  destruct (inPosition bt) eqn:Hin; simpl.
  - destruct (checkStopLoss data p i bt); [now right; right|].
    destruct (checkTakeProfit data p i bt); [now right; right|].
    destruct (crossover s i) as [entrySignal exitSignal].
    rewrite andb_false_r, andb_true_r.
    destruct exitSignal; [now right; right | now left].
  - destruct (crossover s i) as [entrySignal exitSignal].
    rewrite andb_false_r, andb_true_r.
    destruct (filter_entry p s i entrySignal); [now right; left | now left].
Qed.

Lemma run_unfold data p bt :
  run data p bt =
  if vsize data <? to_size_t (longPeriod p + 1) then bt
  else if inPosition (run_pass data p bt)
       then exitPosition data p (to_size_t (vsize data - 1)) (run_pass data p bt)
       else run_pass data p bt.
Proof. reflexivity. Qed.

Lemma run_pass_prefix data p bt :
  run_pass data p bt =
  run_prefix data p (Z.to_nat (vsize data - to_size_t (longPeriod p))) bt.
Proof. reflexivity. Qed.

(** ** The invariants of the forward pass *)

Lemma enterPosition_zero data p i bt :
  cash_or_shares_zero (enterPosition data p i bt) = true.
Proof. reflexivity. Qed.

Lemma exitPosition_zero data p i bt :
  cash_or_shares_zero (exitPosition data p i bt) = true.
Proof. unfold cash_or_shares_zero. simpl. apply orb_true_r. Qed.

Lemma run_step_zero data p s i bt :
  cash_or_shares_zero bt = true -> cash_or_shares_zero (run_step data p s i bt) = true.
Proof.
  intros Hbt.
  destruct (run_step_cases data p s i bt) as [-> | [[_ ->] | [_ ->]]];
    auto using enterPosition_zero, exitPosition_zero.
Qed.

Lemma enterPosition_tracked data p i bt : open_trade_tracked (enterPosition data p i bt).
Proof.
  intros _. simpl. split.
  - intros Hnil. apply app_eq_nil in Hnil as [_ Hnil]. discriminate.
  - now rewrite back_snoc.
Qed.

Lemma exitPosition_tracked data p i bt : open_trade_tracked (exitPosition data p i bt).
Proof. intros Hin. discriminate. Qed.

Lemma run_step_tracked data p s i bt :
  open_trade_tracked bt -> open_trade_tracked (run_step data p s i bt).
Proof.
  intros Hbt.
  destruct (run_step_cases data p s i bt) as [-> | [[_ ->] | [_ ->]]];
    auto using enterPosition_tracked, exitPosition_tracked.
Qed.

Lemma Backtester_new_tracked p : open_trade_tracked (Backtester_new p).
Proof. intros Hin. discriminate. Qed.

Lemma run_prefix_tracked data p n :
  open_trade_tracked (run_prefix data p n (Backtester_new p)).
Proof.
  unfold run_prefix. apply for_loop_inv.
  - intros i s. apply run_step_tracked.
  - apply Backtester_new_tracked.
Qed.

(** ** C3: too few bars *)

(** C3. When the series has fewer than [longPeriod + 1] bars, [run] returns at
    once without touching any member: the trade log stays empty and the ledger
    is the one the constructor set up (cash = initial capital, no shares, not
    in a position). *)
Theorem run_insufficient_data (data : list OHLCV) (p : Params) :
  in_int (longPeriod p) ->
  vsize data < longPeriod p + 1 ->
  (forall bt, run data p bt = bt)
  /\ trades (run data p (Backtester_new p)) = []
  /\ currentCash (run data p (Backtester_new p)) = initialCapital p
  /\ currentShares (run data p (Backtester_new p)) = 0%float
  /\ inPosition (run data p (Backtester_new p)) = false.
Proof.
  intros Hint Hlen.
  assert (Hrun : forall bt, run data p bt = bt).
  { intros bt. rewrite run_unfold.
    assert (Hguard : (vsize data <? to_size_t (longPeriod p + 1)) = true).
    { apply Z.ltb_lt. rewrite to_size_t_small; [assumption|].
      unfold in_int, vsize in *. lia. }
    now rewrite Hguard. }
  split; [exact Hrun|]. rewrite Hrun. repeat split.
Qed.

Lemma run_insufficient_data_witness :
  let data := [Scenario.bar "2024-01-01" 10 10; Scenario.bar "2024-01-02" 10 9] in
  let p := Scenario.params false Scenario.default_commission in
  trades (run data p (Backtester_new p)) = []
  /\ currentCash (run data p (Backtester_new p)) = 1000%float.
Proof.
  intros data p.
  assert (Hint : in_int (longPeriod p)) by (unfold in_int; simpl; lia).
  assert (Hlen : vsize data < longPeriod p + 1) by (unfold vsize; simpl; lia).
  destruct (run_insufficient_data data p Hint Hlen) as (_ & Htrades & Hcash & _).
  split; [exact Htrades | exact Hcash].
Defined.

(** ** C4: fills *)

Lemma vget_nth {A} (d : A) (v : list A) i :
  0 <= i < vsize v -> vget d v i = nth (Z.to_nat i) v d.
Proof. intros Hi. unfold vget. apply in_bounds_true in Hi. now rewrite Hi. Qed.

Lemma fill_expression data i :
  vsize data < 2 ^ 64 -> 0 <= i < vsize data ->
  (if (to_size_t (i + 1) <? vsize data)
      && (0 <? open (vget no_bar data (to_size_t (i + 1))))%float
   then open (vget no_bar data (to_size_t (i + 1)))
   else close (vget no_bar data i))
  = fill_price data (Z.to_nat i).
Proof.
  intros Hmax Hi. unfold fill_price.
  rewrite to_size_t_small by lia. rewrite (vget_nth _ _ i) by assumption.
  destruct (Z.ltb_spec (i + 1) (vsize data)) as [Hnext | Hlast]; simpl.
  - rewrite vget_nth by lia.
    replace (Z.to_nat (i + 1)) with (Datatypes.S (Z.to_nat i)) by lia.
    assert (Hlt : (Datatypes.S (Z.to_nat i) < length data)%nat)
      by (unfold vsize in Hnext; lia).
    destruct (lookup_lt_is_Some_2 data _ Hlt) as [next Hlook].
    rewrite Hlook. now rewrite (nth_lookup_Some _ _ no_bar _ Hlook).
  - rewrite lookup_ge_None_2; [reflexivity|]. unfold vsize in Hlast. lia.
Qed.

Lemma fill_price_last data :
  data <> [] ->
  fill_price data (Z.to_nat (vsize data - 1)) = close (List.last data no_bar).
Proof.
  intros Hne. unfold fill_price, vsize.
  rewrite lookup_ge_None_2 by lia.
  destruct data as [|b data _] using rev_ind; [congruence|].
  rewrite List.last_last, length_app. simpl length.
  replace (Z.to_nat (Z.of_nat (length data + 1) - 1)) with (length data) by lia.
  now rewrite nth_middle.
Qed.

Lemma enterPosition_fill data p i bt :
  vsize data < 2 ^ 64 -> 0 <= i < vsize data ->
  entryPrice (back (trades (enterPosition data p i bt))) = fill_price data (Z.to_nat i).
Proof.
  intros Hmax Hi. unfold enterPosition. cbn [trades].
  rewrite back_snoc. cbn [entryPrice]. now apply fill_expression.
Qed.

Lemma exitPosition_fill data p i bt :
  vsize data < 2 ^ 64 -> 0 <= i < vsize data -> trades bt <> [] ->
  exitPrice (back (trades (exitPosition data p i bt))) = fill_price data (Z.to_nat i).
Proof.
  intros Hmax Hi Hne. unfold exitPosition. cbn [trades].
  rewrite back_with_back by assumption. cbn [exitPrice]. now apply fill_expression.
Qed.

Lemma run_prefix_succ data p n bt :
  run_prefix data p (Datatypes.S n) bt =
  run_step data p (run_series data p) (to_size_t (longPeriod p) + Z.of_nat n)
    (run_prefix data p n bt).
Proof. unfold run_prefix. apply for_loop_snoc. Qed.

Lemma to_size_t_range z : 0 <= to_size_t z < 2 ^ 64.
Proof. unfold to_size_t. apply Z.mod_pos_bound. lia. Qed.

(** C4. Every transition of the forward pass at bar [i] (an entry, a signal
    exit or a risk exit) fills at the open of bar [i+1] when that bar exists
    and its open is positive, and at the close of bar [i] otherwise; a position
    still open after the pass is closed at the last index by the same rule,
    that is, at the close of the last bar. *)
Theorem fill_rule (data : list OHLCV) (p : Params) :
  vsize data < 2 ^ 64 ->
  (forall n : nat,
     let i := to_size_t (longPeriod p) + Z.of_nat n in
     let before := run_prefix data p n (Backtester_new p) in
     let after := run_prefix data p (Datatypes.S n) (Backtester_new p) in
     i < vsize data ->
     after = before
     \/ (inPosition before = false /\ after = enterPosition data p i before
         /\ entryPrice (back (trades after)) = fill_price data (Z.to_nat i))
     \/ (inPosition before = true /\ after = exitPosition data p i before
         /\ exitPrice (back (trades after)) = fill_price data (Z.to_nat i)))
  /\ (let open_at_end := run_pass data p (Backtester_new p) in
      let final := run data p (Backtester_new p) in
      (vsize data <? to_size_t (longPeriod p + 1)) = false ->
      inPosition open_at_end = true ->
      final = exitPosition data p (vsize data - 1) open_at_end
      /\ exitPrice (back (trades final)) = fill_price data (Z.to_nat (vsize data - 1))
      /\ exitPrice (back (trades final)) = close (List.last data no_bar)).
Proof.
  intros Hmax. split.
  - intros n i before after Hi.
    assert (Hi0 : 0 <= i) by (pose proof (to_size_t_range (longPeriod p)); lia).
    subst after. rewrite run_prefix_succ. fold i. fold before.
    destruct (run_step_cases data p (run_series data p) i before)
      as [Hsame | [[Hflat Henter] | [Hlong Hexit]]].
    + now left.
    + right; left. rewrite Henter. repeat split; [assumption|].
      now apply enterPosition_fill.
    + right; right. rewrite Hexit. repeat split; [assumption|].
      apply exitPosition_fill; [assumption | lia |].
      now apply (run_prefix_tracked data p n).
  - intros open_at_end final Hguard Hopen.
    assert (Hne : data <> []).
    { intros ->. subst open_at_end. unfold run_pass, for_range in Hopen.
      change (vsize []) with 0 in Hopen.
      pose proof (to_size_t_range (longPeriod p)) as Hlo.
      replace (Z.to_nat (0 - to_size_t (longPeriod p))) with O in Hopen by lia.
      discriminate. }
    assert (Hsize : 0 < vsize data).
    { unfold vsize. destruct data; [congruence | simpl; lia]. }
    assert (Hfinal : final = exitPosition data p (vsize data - 1) open_at_end).
    { subst final. rewrite run_unfold, Hguard. fold open_at_end. rewrite Hopen.
      now rewrite to_size_t_small by lia. }
    assert (Hfill : exitPrice (back (trades final))
                    = fill_price data (Z.to_nat (vsize data - 1))).
    { rewrite Hfinal. apply exitPosition_fill; [assumption | lia |].
      subst open_at_end. rewrite run_pass_prefix in Hopen |- *.
      now apply run_prefix_tracked. }
    repeat split; [assumption | assumption |].
    rewrite Hfill. now apply fill_price_last.
Qed.

Lemma fill_rule_witness :
  let data := Scenario.one_trade in
  let p := Scenario.params false Scenario.default_commission in
  exitPrice (back (trades (run_prefix data p 2 (Backtester_new p)))) = 9%float
  /\ fill_price data 3 = 9%float.
Proof.
  intros data p.
  assert (Hmax : vsize data < 2 ^ 64) by (unfold vsize; simpl; lia).
  destruct (fill_rule data p Hmax) as [Hstep _].
  specialize (Hstep 1%nat). cbv zeta in Hstep.
  assert (Hi : to_size_t (longPeriod p) + Z.of_nat 1 < vsize data)
    by (vm_compute; reflexivity).
  destruct (Hstep Hi) as [Hsame | [[Hflat _] | [_ [_ Hprice]]]].
  - exfalso. vm_compute in Hsame. discriminate.
  - exfalso. vm_compute in Hflat. discriminate.
  - split; [|vm_compute; reflexivity].
    rewrite Hprice. vm_compute. reflexivity.
Defined.

(** ** C1: cash and shares *)

(** C1 (amended). After every [enterPosition], after every [exitPosition], and
    at every point of a run, for any series and configuration, at least one of
    cash and shares is zero: they are never both nonzero. *)
Theorem ledger_never_both_nonzero (data : list OHLCV) (p : Params) :
  (forall i bt, cash_or_shares_zero (enterPosition data p i bt) = true)
  /\ (forall i bt, cash_or_shares_zero (exitPosition data p i bt) = true)
  /\ (forall n, cash_or_shares_zero (run_prefix data p n (Backtester_new p)) = true)
  /\ cash_or_shares_zero (run data p (Backtester_new p)) = true.
Proof.
  assert (Hprefix : forall n,
             cash_or_shares_zero (run_prefix data p n (Backtester_new p)) = true).
  { intros n. unfold run_prefix.
    apply (for_loop_inv (fun bt => cash_or_shares_zero bt = true)).
    - intros i s. apply run_step_zero.
    - unfold cash_or_shares_zero. simpl. apply orb_true_r. }
  split; [|split; [|split]].
  - intros i bt. apply enterPosition_zero.
  - intros i bt. apply exitPosition_zero.
  - exact Hprefix.
  - rewrite run_unfold.
    destruct (vsize data <? to_size_t (longPeriod p + 1)).
    + apply (Hprefix O).
    + rewrite run_pass_prefix.
      destruct (inPosition _); [apply exitPosition_zero | apply Hprefix].
Qed.

(** C1 as stated fails: with Kelly sizing and a losing record (one win, four
    losses) the fraction is clamped to 0, so the sixth entry buys 0 shares and
    still sets cash to 0; cash and shares are both zero right after that
    [enterPosition], and remain so after the closing [exitPosition]. *)
Lemma ledger_xor_counterexample :
  let data := Scenario.mostly_losses in
  let p := Scenario.params true 0 in
  let before := run_prefix data p 10 (Backtester_new p) in
  let entered := run_prefix data p 11 (Backtester_new p) in
  vsize (trades before) = 5
  /\ calculateKellyFraction before = 0%float
  /\ entered = enterPosition data p 12 before
  /\ currentCash entered = 0%float /\ currentShares entered = 0%float
  /\ cash_xor_shares_zero entered = false
  /\ cash_xor_shares_zero (run data p (Backtester_new p)) = false.
Proof. vm_compute. repeat split. Qed.

(** ** C2: what an entry leaves in the ledger *)

(** C2 (amended). An entry converts the Kelly fraction of the available cash
    (cash after the entry commission) into shares at the fill price, the
    fraction being 1 unless Kelly sizing is on and five trades are logged; it
    then sets the ledger's cash to 0, whatever the fraction was. *)
Theorem enterPosition_sizing (data : list OHLCV) (p : Params) (i : Z) (bt : Backtester) :
  let f := if useKellyCriterion p && (5 <=? vsize (trades bt))
           then calculateKellyFraction bt else 1%float in
  let availableCash := (currentCash bt - currentCash bt * commissionRate p)%float in
  let entered := enterPosition data p i bt in
  currentShares entered
    = ((availableCash * f) / entryPrice (back (trades entered)))%float
  /\ shares (back (trades entered)) = currentShares entered
  /\ currentCash entered = 0%float
  /\ inPosition entered = true.
Proof.
  intros f availableCash entered. subst entered. unfold enterPosition.
  cbn [trades currentShares currentCash inPosition]. rewrite back_snoc.
  cbn [entryPrice shares]. repeat split.
Qed.

(** C2 as stated fails: after four wins and one loss the Kelly fraction is
    about 0.3; the sixth entry turns 0.3 of the 1317.69 of cash into shares,
    and the ledger's cash is 0 afterwards, not the remaining 0.7 of it. *)
Lemma kelly_remainder_counterexample :
  let data := Scenario.mostly_wins in
  let p := Scenario.params true 0 in
  let before := run_prefix data p 10 (Backtester_new p) in
  let f := calculateKellyFraction before in
  let availableCash := (currentCash before - currentCash before * commissionRate p)%float in
  let entered := enterPosition data p 12 before in
  useKellyCriterion p = true
  /\ vsize (trades before) = 5
  /\ (0 <? f)%float = true /\ (f <? 1)%float = true
  /\ run_prefix data p 11 (Backtester_new p) = entered
  /\ (0 <? currentShares entered)%float = true
  /\ currentCash entered = 0%float
  /\ (0 <? (1 - f) * availableCash)%float = true
  /\ (currentCash entered =? (1 - f) * availableCash)%float = false.
Proof. vm_compute. repeat split. Qed.

(** ** C5: the Kelly fraction *)

(** Two facts about the order of binary64, from its specification. *)
Lemma Prim2SF_zero : Prim2SF 0 = S754_zero false.
Proof. vm_compute. reflexivity. Qed.

Lemma Prim2SF_one : Prim2SF 1 = S754_finite false 4503599627370496 (-52).
Proof. vm_compute. reflexivity. Qed.

Lemma Prim2SF_hundred : Prim2SF 100 = S754_finite false 7036874417766400 (-46).
Proof. vm_compute. reflexivity. Qed.

Lemma float_pos_nonneg (x : float) : (0 <? x)%float = true -> (0 <=? x)%float = true.
Proof.
  rewrite ltb_spec, leb_spec, Prim2SF_zero.
  destruct (Prim2SF x) as [s | s | | s m e]; unfold SFltb, SFleb, SFcompare;
    try destruct s; congruence.
Qed.

Lemma float_pos_not_above_one (x : float) :
  (0 <? x)%float = true -> (1 <? x)%float = false -> (x <=? 1)%float = true.
Proof.
  rewrite !ltb_spec, leb_spec, Prim2SF_zero, Prim2SF_one.
  destruct (Prim2SF x) as [s | s | | s m e]; unfold SFltb, SFleb, SFcompare;
    try destruct s; try congruence.
  intros _. rewrite (Z.compare_antisym e (-52)).
  pose proof (Pos.compare_cont_antisym m 4503599627370496 Eq) as Hm.
  cbn [CompOpp] in Hm. rewrite <- Hm.
  destruct (e ?= -52); unfold CompOpp; try congruence.
  destruct (Pos.compare_cont Eq m 4503599627370496); congruence.
Qed.

Lemma clamp01_range (x : float) :
  (0 <=? clamp01 x)%float = true /\ (clamp01 x <=? 1)%float = true.
Proof.
  unfold clamp01, std_min, std_max.
  destruct (1 <? x)%float eqn:Hhigh.
  - split; reflexivity.
  - destruct (0 <? x)%float eqn:Hlow.
    + split; [now apply float_pos_nonneg | now apply float_pos_not_above_one].
    + split; reflexivity.
Qed.

(** The accumulation loop computes the three aggregates. *)
Lemma kelly_fold (ts : list Trade) (w : Z) (a b : float) :
  fold_left kelly_step ts (w, a, b)
  = (w + kelly_wins ts,
     fold_left (fun acc t => (acc + returnPct t)%float) (List.filter is_win ts) a,
     fold_left (fun acc t => (acc + - returnPct t)%float)
       (List.filter (fun t => negb (is_win t)) ts) b).
Proof.
  revert w a b. induction ts as [|t ts IH]; intros w a b.
  - unfold kelly_wins. simpl. now rewrite Z.add_0_r.
  - cbn [fold_left kelly_step]. unfold kelly_wins in *. cbn [List.filter].
    change (0 <? pnl t)%float with (is_win t).
    destruct (is_win t); cbn [negb]; rewrite IH; cbn [length fold_left].
    + do 2 f_equal. lia.
    + reflexivity.
Qed.

Lemma kelly_wins_range ts : 0 <= kelly_wins ts <= vsize ts.
Proof.
  unfold kelly_wins, vsize. pose proof (List.filter_length_le is_win ts). lia.
Qed.

Lemma calculateKellyFraction_cases (bt : Backtester) :
  calculateKellyFraction bt = 1%float
  \/ exists x, calculateKellyFraction bt = clamp01 x.
Proof.
  unfold calculateKellyFraction.
  destruct (vsize (trades bt) <? 5); [now left|].
  destruct (kelly_loop (trades bt)) as [[wins totalWinAmount] totalLossAmount].
  destruct ((wins =? 0) || (wins =? to_int (vsize (trades bt)))); [now left|].
  destruct (_ =? 0)%float; [now left|].
  right. eexists. reflexivity.
Qed.

Lemma calculateKellyFraction_unfold (bt : Backtester) :
  vsize (trades bt) < 2 ^ 31 ->
  calculateKellyFraction bt =
  if vsize (trades bt) <? 5 then 1%float
  else if (kelly_wins (trades bt) =? 0) || (kelly_wins (trades bt) =? vsize (trades bt))
       then 1%float
       else if (kelly_avgLoss (trades bt) =? 0)%float then 1%float
            else clamp01 (half_kelly (trades bt)).
Proof.
  intros Hsize. unfold calculateKellyFraction.
  destruct (vsize (trades bt) <? 5); [reflexivity|].
  unfold kelly_loop. rewrite kelly_fold. rewrite Z.add_0_l.
  pose proof (kelly_wins_range (trades bt)) as Hwins.
  rewrite to_int_small by (unfold in_int, vsize in *; lia).
  rewrite to_size_t_small by lia.
  reflexivity.
Qed.

(** C5 (amended). For every trade history [calculateKellyFraction] returns a
    value in [0, 1].  It returns exactly 1.0 when fewer than five trades are
    logged, when no trade or every trade is a win, and when the average loss
    is 0; with five or more trades and none of these cases, it returns the
    half-Kelly value [(winRate - (1 - winRate) / (avgWin / avgLoss)) * 0.5]
    clamped to [0, 1]. *)
Theorem kelly_fraction (bt : Backtester) :
  let ts := trades bt in
  let k := calculateKellyFraction bt in
  ((0 <=? k)%float = true /\ (k <=? 1)%float = true)
  /\ (vsize ts < 2 ^ 31 ->
      (vsize ts < 5 -> k = 1%float)
      /\ (kelly_wins ts = 0 \/ kelly_wins ts = vsize ts -> k = 1%float)
      /\ ((kelly_avgLoss ts =? 0)%float = true -> k = 1%float)
      /\ (5 <= vsize ts -> kelly_wins ts <> 0 -> kelly_wins ts <> vsize ts ->
          (kelly_avgLoss ts =? 0)%float = false ->
          k = clamp01 (half_kelly ts))).
Proof.
  intros ts k. split.
  - subst k. destruct (calculateKellyFraction_cases bt) as [-> | [x ->]].
    + split; reflexivity.
    + apply clamp01_range.
  - intros Hsize. subst k ts.
    rewrite (calculateKellyFraction_unfold bt Hsize).
    split; [|split; [|split]].
    + intros Hfew. apply Z.ltb_lt in Hfew. now rewrite Hfew.
    + intros Hwins. destruct (vsize (trades bt) <? 5); [reflexivity|].
      replace ((kelly_wins (trades bt) =? 0)
               || (kelly_wins (trades bt) =? vsize (trades bt))) with true;
        [reflexivity|].
      symmetry. apply orb_true_iff. rewrite !Z.eqb_eq. exact Hwins.
    + intros Hzero. rewrite Hzero.
      destruct (vsize (trades bt) <? 5); [reflexivity|].
      now destruct (_ || _).
    + intros Hmany Hsome Hnotall Hloss.
      apply Z.ltb_ge in Hmany. apply Z.eqb_neq in Hsome, Hnotall.
      now rewrite Hmany, Hsome, Hnotall, Hloss.
Qed.

Lemma kelly_fraction_witness :
  let bt := run_prefix Scenario.mostly_wins (Scenario.params true 0) 10
              (Backtester_new (Scenario.params true 0)) in
  calculateKellyFraction bt = clamp01 (half_kelly (trades bt))
  /\ (0 <? calculateKellyFraction bt)%float = true
  /\ (calculateKellyFraction bt <? 1)%float = true.
Proof.
  intros bt.
  destruct (kelly_fraction bt) as [_ Hcases].
  assert (Hsize : vsize (trades bt) < 2 ^ 31) by (vm_compute; reflexivity).
  destruct (Hcases Hsize) as (_ & _ & _ & Hkelly).
  split; [|split; vm_compute; reflexivity].
  apply Hkelly.
  - vm_compute. discriminate.
  - vm_compute. discriminate.
  - vm_compute. discriminate.
  - vm_compute. reflexivity.
Defined.

(** C5 as stated fails for short histories: after the first two round trips
    of a run, one a win of 10% and one a loss of 10%, none of the listed
    degenerate cases applies and the clamped half-Kelly value is 0, yet the
    function returns 1.0. *)
Lemma kelly_short_history_counterexample :
  let p := Scenario.params true 0 in
  let bt := run_prefix Scenario.mostly_losses p 4 (Backtester_new p) in
  let ts := trades bt in
  vsize ts = 2
  /\ kelly_wins ts = 1
  /\ (kelly_avgLoss ts =? 0)%float = false
  /\ clamp01 (half_kelly ts) = 0%float
  /\ calculateKellyFraction bt = 1%float
  /\ (calculateKellyFraction bt =? clamp01 (half_kelly ts))%float = false.
Proof. vm_compute. repeat split. Qed.

(** ** The RSI loop, index by index *)

Section RSI_loop.
Context {D : Type} `{Num D}.
Variable prices : list D.
Variable period : Z.

Lemma RSI_unfold :
  RSI prices period =
  if vsize prices <? to_size_t (period + 1)
  then replicate (length prices) (of_int 50)
  else snd (for_range (to_size_t (period + 1)) (vsize prices) (rsi_body prices period)
              (rsi_init prices period,
               vset (replicate (length prices) (of_int 50)) (to_size_t period)
                 (rsi_value (fst (rsi_init prices period))
                    (snd (rsi_init prices period))))).
Proof.
  unfold RSI. destruct (vsize prices <? to_size_t (period + 1)); [reflexivity|].
  destruct (rsi_init prices period) as [avgGain avgLoss]. reflexivity.
Qed.

Lemma RSI_loop_avg n i avg rsi :
  fst (for_loop n i (rsi_body prices period) (avg, rsi)) = for_loop n i (rsi_smooth prices period) avg.
Proof.
  revert i avg rsi. induction n as [|n IH]; intros i avg rsi; [reflexivity|].
  cbn [for_loop]. unfold rsi_body at 2. apply IH.
Qed.

Lemma RSI_loop_length n i avg rsi :
  length (snd (for_loop n i (rsi_body prices period) (avg, rsi))) = length rsi.
Proof.
  revert i avg rsi. induction n as [|n IH]; intros i avg rsi; [reflexivity|].
  cbn [for_loop]. unfold rsi_body at 2. rewrite IH. apply length_vset.
Qed.

Lemma RSI_loop_untouched d n i avg rsi j :
  j < i -> vget d (snd (for_loop n i (rsi_body prices period) (avg, rsi))) j = vget d rsi j.
Proof.
  revert i avg rsi. induction n as [|n IH]; intros i avg rsi Hj; [reflexivity|].
  cbn [for_loop]. unfold rsi_body at 2. rewrite IH by lia.
  apply vget_vset_ne. lia.
Qed.

Lemma RSI_loop_written d n i avg rsi j :
  i <= j < i + Z.of_nat n -> 0 <= j < vsize rsi ->
  vget d (snd (for_loop n i (rsi_body prices period) (avg, rsi))) j =
  rsi_value
    (fst (for_loop (Datatypes.S (Z.to_nat (j - i))) i (rsi_smooth prices period) avg))
    (snd (for_loop (Datatypes.S (Z.to_nat (j - i))) i (rsi_smooth prices period) avg)).
Proof.
  revert i avg rsi. induction n as [|n IH]; intros i avg rsi Hj Hbound; [lia|].
  cbn [for_loop]. unfold rsi_body at 2.
  destruct (Z.eq_dec j i) as [-> | Hne].
  - rewrite RSI_loop_untouched by lia.
    rewrite vget_vset_eq by assumption.
    now rewrite Z.sub_diag.
  - rewrite IH; [| lia | now rewrite vsize_vset].
    replace (Z.to_nat (j - i)) with (Datatypes.S (Z.to_nat (j - (i + 1)))) by lia.
    reflexivity.
Qed.

(** Every position from [period] on holds [rsi_value] of the two averages
    reached at that position. *)
Lemma RSI_at (k : nat) :
  0 <= period -> vsize prices < 2 ^ 64 -> period + Z.of_nat k < vsize prices ->
  vget (of_int 0) (RSI prices period) (period + Z.of_nat k) =
  rsi_value (fst (rsi_avg prices period k)) (snd (rsi_avg prices period k)).
Proof.
  intros Hperiod Hmax Hk. rewrite RSI_unfold.
  rewrite !to_size_t_small by lia.
  destruct (Z.ltb_spec (vsize prices) (period + 1)) as [Hshort | Hlong]; [lia|].
  unfold rsi_avg. rewrite to_size_t_small by lia.
  destruct k as [|k].
  - rewrite Z.add_0_r. unfold for_range. rewrite RSI_loop_untouched by lia.
    apply vget_vset_eq. unfold vsize. rewrite length_replicate. fold (vsize prices). lia.
  - unfold for_range. rewrite RSI_loop_written.
    + replace (Z.to_nat (period + Z.of_nat (Datatypes.S k) - (period + 1))) with k by lia.
      reflexivity.
    + lia.
    + rewrite vsize_vset. unfold vsize. rewrite length_replicate.
      fold (vsize prices). lia.
Qed.
End RSI_loop.

(** ** C7: a zero average loss *)

(** C7 (amended). At every RSI position whose smoothed average loss is exactly
    0, RS is taken to be 100 and the value stored at that position is
    [100 - 100 / (1 + 100)], that is 10000/101 (about 99.01), not 100. *)
Theorem RSI_zero_average_loss {D : Type} `{Num D}
    (prices : list D) (period : Z) (k : nat) :
  0 <= period -> vsize prices < 2 ^ 64 -> period + Z.of_nat k < vsize prices ->
  (snd (rsi_avg prices period k) =? of_int 0)%num = true ->
  rsi_rs (fst (rsi_avg prices period k)) (snd (rsi_avg prices period k)) = of_int 100
  /\ vget (of_int 0) (RSI prices period) (period + Z.of_nat k)
     = (of_int 100 - of_int 100 / (of_int 1 + of_int 100))%num.
Proof.
  intros Hperiod Hmax Hk Hzero.
  assert (Hrs : rsi_rs (fst (rsi_avg prices period k)) (snd (rsi_avg prices period k))
                = of_int 100).
  { unfold rsi_rs. now rewrite Hzero. }
  split; [exact Hrs|].
  rewrite RSI_at by assumption. unfold rsi_value. now rewrite Hrs.
Qed.

Lemma RSI_zero_average_loss_witness :
  vget 0%float (RSI Scenario.rising 14) 15 = (100 - 100 / (1 + 100))%float.
Proof.
  refine (proj2 (RSI_zero_average_loss Scenario.rising 14 1 _ _ _ _)).
  - lia.
  - vm_compute. reflexivity.
  - vm_compute. reflexivity.
  - vm_compute. reflexivity.
Defined.

(** C7 as stated fails: on sixteen rising closes with period 14 the average
    loss is 0 at positions 14 and 15, and the value stored there is
    99.00990099009901, which is not 100. *)
Lemma RSI_saturation_counterexample :
  let series := RSI Scenario.rising 14 in
  (snd (rsi_avg Scenario.rising 14 0) =? 0)%float = true
  /\ (snd (rsi_avg Scenario.rising 14 1) =? 0)%float = true
  /\ vget 0%float series 14 = (10000 / 101)%float
  /\ vget 0%float series 15 = (10000 / 101)%float
  /\ (vget 0%float series 14 =? 100)%float = false
  /\ (vget 0%float series 15 <? 100)%float = true.
Proof. vm_compute. repeat split. Qed.

(** ** Binary64 arithmetic

    Signs and bounds of the rounded operations, from the specification of
    the primitive floats. *)

(** *** Digits *)

Lemma digits2_size (p : positive) : digits2_pos p = Pos.size p.
Proof. induction p as [p IH | p IH |]; cbn; now rewrite ?IH. Qed.

Lemma digits2_bounds (p : positive) :
  2 ^ (Zpos (digits2_pos p) - 1) <= Zpos p < 2 ^ Zpos (digits2_pos p).
Proof.
  rewrite digits2_size. split.
  - pose proof (Pos.size_le p) as Hle.
    assert (H2 : 2 ^ Zpos (Pos.size p) <= 2 * Zpos p).
    { change (2 * Zpos p) with (Zpos p~0). rewrite <- Pos2Z.inj_pow. exact Hle. }
    replace (Zpos (Pos.size p)) with (Z.succ (Zpos (Pos.size p) - 1)) in H2 by lia.
    rewrite Z.pow_succ_r in H2 by lia. lia.
  - rewrite <- Pos2Z.inj_pow. exact (Pos.size_gt p).
Qed.

Lemma Zdigits2_bounds (m : Z) :
  0 < m -> 2 ^ (Zdigits2 m - 1) <= m < 2 ^ Zdigits2 m.
Proof. destruct m as [|p|p]; try lia. intros _. apply digits2_bounds. Qed.

Lemma Zdigits2_pos (m : Z) : 0 < m -> 0 < Zdigits2 m.
Proof. destruct m; cbn; lia. Qed.

Lemma Zdigits2_nonneg (m : Z) : 0 <= Zdigits2 m.
Proof. destruct m; cbn; lia. Qed.

Lemma Zdigits2_unique (m d : Z) :
  2 ^ (d - 1) <= m < 2 ^ d -> 0 < m -> Zdigits2 m = d.
Proof.
  intros Hd Hm. pose proof (Zdigits2_bounds m Hm) as Hb.
  pose proof (Zdigits2_pos m Hm) as Hp.
  assert (Hd0 : 0 < d).
  { destruct (Z_lt_le_dec 0 d) as [|Hle]; [assumption|].
    rewrite (Z.pow_neg_r 2 (d - 1)) in Hd by lia.
    assert (2 ^ d <= 1); [|lia].
    destruct (Z.eq_dec d 0) as [-> | Hne]; [cbn; lia|].
    rewrite Z.pow_neg_r by lia. lia. }
  destruct (Z_lt_le_dec (Zdigits2 m) d) as [Hlt | Hge].
  - assert (2 ^ Zdigits2 m <= 2 ^ (d - 1)) by (apply Z.pow_le_mono_r; lia). lia.
  - destruct (Z_lt_le_dec d (Zdigits2 m)) as [Hlt | Hle]; [|lia].
    assert (2 ^ d <= 2 ^ (Zdigits2 m - 1)) by (apply Z.pow_le_mono_r; lia). lia.
Qed.

Lemma Zdigits2_le (m1 m2 : Z) : 0 < m1 -> m1 <= m2 -> Zdigits2 m1 <= Zdigits2 m2.
Proof.
  intros H1 Hle.
  pose proof (Zdigits2_bounds m1 H1) as B1.
  pose proof (Zdigits2_bounds m2 ltac:(lia)) as B2.
  pose proof (Zdigits2_pos m1 H1).
  destruct (Z_lt_le_dec (Zdigits2 m2) (Zdigits2 m1)) as [Hlt|]; [|assumption].
  assert (2 ^ Zdigits2 m2 <= 2 ^ (Zdigits2 m1 - 1))
    by (apply Z.pow_le_mono_r; pose proof (Zdigits2_nonneg m2); lia).
  lia.
Qed.

Lemma Zdigits2_shift (m k : Z) :
  0 < m -> 0 <= k -> Zdigits2 (m * 2 ^ k) = Zdigits2 m + k.
Proof.
  intros Hm Hk. pose proof (Zdigits2_bounds m Hm) as [Hlo Hhi].
  pose proof (Zdigits2_pos m Hm).
  assert (Hpow : 0 < 2 ^ k) by (apply Z.pow_pos_nonneg; lia).
  apply Zdigits2_unique; [|nia].
  replace (Zdigits2 m + k - 1) with (Zdigits2 m - 1 + k) by lia.
  rewrite !Z.pow_add_r by lia. nia.
Qed.

Lemma Zdigits2_div (m k : Z) :
  0 < m -> 0 <= k -> k < Zdigits2 m -> Zdigits2 (m / 2 ^ k) = Zdigits2 m - k.
Proof.
  intros Hm Hk Hlt. pose proof (Zdigits2_bounds m Hm) as [Hlo Hhi].
  assert (Hpow : 0 < 2 ^ k) by (apply Z.pow_pos_nonneg; lia).
  assert (Hlow : 2 ^ (Zdigits2 m - k - 1) <= m / 2 ^ k).
  { apply Z.div_le_lower_bound; [assumption|].
    rewrite <- Z.pow_add_r by lia. now replace (k + (Zdigits2 m - k - 1)) with (Zdigits2 m - 1) by lia. }
  assert (Hpos : 0 < 2 ^ (Zdigits2 m - k - 1)) by (apply Z.pow_pos_nonneg; lia).
  apply Zdigits2_unique; [|lia]. split; [exact Hlow|].
  apply Z.div_lt_upper_bound; [assumption|].
  rewrite <- Z.pow_add_r by lia. now replace (k + (Zdigits2 m - k)) with (Zdigits2 m) by lia.
Qed.

Lemma div_small_zero (m k : Z) :
  0 <= m -> Zdigits2 m <= k -> m / 2 ^ k = 0.
Proof.
  intros Hm Hk. destruct (Z.eq_dec m 0) as [-> | Hne]; [apply Z.div_0_l; pose proof (Zdigits2_nonneg 0);
    apply Z.pow_nonzero; [lia | cbn in Hk; lia]|].
  pose proof (Zdigits2_bounds m ltac:(lia)) as [_ Hhi].
  pose proof (Zdigits2_pos m ltac:(lia)).
  apply Z.div_small. split; [lia|].
  assert (2 ^ Zdigits2 m <= 2 ^ k) by (apply Z.pow_le_mono_r; lia). lia.
Qed.

(** *** Shifting a mantissa to the right *)

Lemma shr_1_nonneg (m : Z) (r s : bool) :
  0 <= m ->
  shr_1 {| shr_m := m; shr_r := r; shr_s := s |}
  = {| shr_m := m / 2; shr_r := Z.odd m; shr_s := r || s |}.
Proof.
  intros Hm. destruct m as [|p|p]; [reflexivity | | lia].
  destruct p as [p|p|]; cbn [shr_1].
  - assert (Hdiv : Z.pos p~1 / 2 = Z.pos p)
      by (symmetry; apply Z.div_unique with 1; lia).
    rewrite Hdiv. reflexivity.
  - assert (Hdiv : Z.pos p~0 / 2 = Z.pos p)
      by (symmetry; apply Z.div_unique with 0; lia).
    rewrite Hdiv. reflexivity.
  - reflexivity.
Qed.

Lemma iter_pos_nat {A : Type} (f : A -> A) (p : positive) (x : A) :
  SpecFloat.iter_pos f p x = Nat.iter (Pos.to_nat p) f x.
Proof.
  revert x. induction p as [p IH | p IH |]; intros x; cbn [SpecFloat.iter_pos].
  - rewrite !IH, Pos2Nat.inj_xI. cbn [Nat.iter Nat.mul].
    rewrite Nat.add_0_r, <- Nat.iter_add, <- Nat.iter_succ_r. reflexivity.
  - rewrite !IH, Pos2Nat.inj_xO. cbn [Nat.mul].
    rewrite Nat.add_0_r, <- Nat.iter_add. reflexivity.
  - reflexivity.
Qed.

Lemma shr_nat_m (k : nat) (m : Z) (r s : bool) :
  0 <= m ->
  shr_m (Nat.iter k shr_1 {| shr_m := m; shr_r := r; shr_s := s |}) = m / 2 ^ Z.of_nat k.
Proof.
  revert m r s. induction k as [|k IH]; intros m r s Hm.
  - cbn. now rewrite Z.div_1_r.
  - rewrite Nat.iter_succ_r, shr_1_nonneg by assumption.
    rewrite IH by (apply Z.div_pos; lia).
    rewrite Nat2Z.inj_succ, Z.pow_succ_r by lia.
    rewrite Z.div_div by (try apply Z.pow_pos_nonneg; lia). reflexivity.
Qed.

Lemma shr_nat_exact (k : nat) (m : Z) :
  0 <= m -> m mod 2 ^ Z.of_nat k = 0 ->
  loc_of_shr_record (Nat.iter k shr_1 {| shr_m := m; shr_r := false; shr_s := false |})
  = loc_Exact.
Proof.
  revert m. induction k as [|k IH]; intros m Hm Hmod; [reflexivity|].
  rewrite Nat.iter_succ_r, shr_1_nonneg by assumption.
  rewrite Nat2Z.inj_succ, Z.pow_succ_r in Hmod by lia.
  assert (Hpow : 0 < 2 ^ Z.of_nat k) by (apply Z.pow_pos_nonneg; lia).
  rewrite Z.rem_mul_r in Hmod by lia.
  pose proof (Z.mod_pos_bound m 2 ltac:(lia)) as Hb2.
  pose proof (Z.mod_pos_bound (m / 2) (2 ^ Z.of_nat k) Hpow) as Hbk.
  assert (Heven : m mod 2 = 0) by lia.
  assert (Hodd : Z.odd m = false).
  { rewrite Zodd_mod, Heven. reflexivity. }
  rewrite Hodd. cbn [orb]. apply IH; [apply Z.div_pos; lia | lia].
Qed.

(** *** Rounding to binary64 *)

Lemma fexp_spec (z : Z) : fexp prec emax z = Z.max (z - 53) (-1074).
Proof. reflexivity. Qed.

Lemma shr_nonneg_m (mrs : shr_record) (e n : Z) :
  0 <= shr_m mrs -> fst (shr mrs e n) = mrs \/
  shr_m (fst (shr mrs e n)) = shr_m mrs / 2 ^ n /\ 0 < n.
Proof.
  intros Hm. destruct n as [|p|p]; [now left | right | now left].
  cbn [shr fst]. rewrite iter_pos_nat. destruct mrs as [m r s]. cbn [shr_m] in *.
  rewrite shr_nat_m by assumption. rewrite positive_nat_Z. split; [reflexivity | lia].
Qed.

Lemma shr_fexp_m (m e : Z) (l : location) :
  0 <= m -> e <= fexp prec emax (Zdigits2 m + e) ->
  let E := fexp prec emax (Zdigits2 m + e) in
  shr_fexp prec emax m e l
  = (fst (shr_fexp prec emax m e l), E)
  /\ shr_m (fst (shr_fexp prec emax m e l)) = m / 2 ^ (E - e)
  /\ (l = loc_Exact -> m mod 2 ^ (E - e) = 0 ->
      loc_of_shr_record (fst (shr_fexp prec emax m e l)) = loc_Exact).
Proof.
  intros Hm Hn E. unfold shr_fexp. fold E.
  destruct (E - e) as [|p|p] eqn:Hd; [| |lia].
  - cbn [shr fst]. assert (E = e) as -> by lia.
    split; [reflexivity|]. split.
    + destruct l as [|[]]; cbn; now rewrite Z.div_1_r.
    + intros -> _. reflexivity.
  - cbn [shr fst]. replace (e + Z.pos p) with E by lia.
    split; [reflexivity|]. rewrite iter_pos_nat. split.
    + destruct l as [|[]]; cbn [shr_record_of_loc];
        rewrite shr_nat_m by assumption; now rewrite positive_nat_Z.
    + intros -> Hmod. cbn [shr_record_of_loc].
      apply shr_nat_exact; [assumption | now rewrite positive_nat_Z].
Qed.

Lemma round_nearest_even_cases (t : Z) (l : location) :
  t <= round_nearest_even t l <= t + 1
  /\ (l = loc_Exact -> round_nearest_even t l = t).
Proof.
  split; [|now intros ->].
  destruct l as [|[]]; cbn; try destruct (Z.even t); lia.
Qed.

Lemma round_aux_nonneg (s : bool) (m e : Z) (l : location) :
  0 <= m ->
  match binary_round_aux prec emax s m e l with
  | S754_zero s' | S754_infinity s' | S754_finite s' _ _ => s' = s
  | S754_nan => False
  end.
Proof.
  intros Hm. unfold binary_round_aux.
  destruct (shr_fexp prec emax m e l) as [mrs' e'] eqn:H1.
  assert (Hm' : 0 <= shr_m mrs').
  { unfold shr_fexp in H1.
    destruct (shr_nonneg_m (shr_record_of_loc m l) e
                (fexp prec emax (Zdigits2 m + e) - e)) as [Hsame | [Hdiv Hpos]].
    - destruct l as [|[]]; cbn; assumption.
    - rewrite H1 in Hsame. cbn [fst] in Hsame. subst mrs'.
      destruct l as [|[]]; cbn; assumption.
    - rewrite H1 in Hdiv. cbn [fst] in Hdiv. rewrite Hdiv.
      apply Z.div_pos; [destruct l as [|[]]; cbn; assumption|].
      apply Z.pow_pos_nonneg; lia. }
  set (u := round_nearest_even (shr_m mrs') (loc_of_shr_record mrs')).
  assert (Hu : 0 <= u)
    by (pose proof (round_nearest_even_cases (shr_m mrs') (loc_of_shr_record mrs')); subst u; lia).
  destruct (shr_fexp prec emax u e' loc_Exact) as [mrs'' e''] eqn:H2.
  assert (Hm'' : 0 <= shr_m mrs'').
  { unfold shr_fexp in H2.
    destruct (shr_nonneg_m (shr_record_of_loc u loc_Exact) e'
                (fexp prec emax (Zdigits2 u + e') - e')) as [Hsame | [Hdiv Hpos]].
    - cbn; assumption.
    - rewrite H2 in Hsame. cbn [fst] in Hsame. subst mrs''. cbn. assumption.
    - rewrite H2 in Hdiv. cbn [fst] in Hdiv. rewrite Hdiv. cbn [shr_record_of_loc shr_m].
      apply Z.div_pos; [assumption | apply Z.pow_pos_nonneg; lia]. }
  destruct (shr_m mrs'') as [|p|p]; [reflexivity | | lia].
  destruct (e'' <=? emax - prec); reflexivity.
Qed.

Lemma round_aux_cases (s : bool) (m e : Z) (l : location) :
  0 < m -> e <= fexp prec emax (Zdigits2 m + e) ->
  let E := fexp prec emax (Zdigits2 m + e) in
  let t := m / 2 ^ (E - e) in
  let R := binary_round_aux prec emax s m e l in
  exists u, t <= u <= t + 1
    /\ (l = loc_Exact -> m mod 2 ^ (E - e) = 0 -> u = t)
    /\ ((u = 0 /\ R = S754_zero s)
        \/ (0 < u < 2 ^ 53
            /\ R = if E <=? 971 then S754_finite s (Z.to_pos u) E else S754_infinity s)
        \/ (u = 2 ^ 53
            /\ R = if E + 1 <=? 971 then S754_finite s (Z.to_pos (2 ^ 52)) (E + 1)
                   else S754_infinity s)).
Proof.
  intros Hm Hn E t R.
  destruct (shr_fexp_m m e l ltac:(lia) Hn) as (Hshr & Hmant & Hexact). fold E in Hshr, Hmant, Hexact.
  fold t in Hmant.
  assert (HE : -1074 <= E) by (subst E; rewrite fexp_spec; lia).
  assert (Hpow : 0 < 2 ^ (E - e)) by (apply Z.pow_pos_nonneg; lia).
  assert (Ht0 : 0 <= t) by (subst t; apply Z.div_pos; lia).
  assert (Ht : t < 2 ^ 53).
  { subst t. apply Z.div_lt_upper_bound; [assumption|].
    pose proof (Zdigits2_bounds m Hm) as [_ Hhi].
    rewrite <- Z.pow_add_r by lia.
    assert (2 ^ Zdigits2 m <= 2 ^ (E - e + 53)); [|lia].
    apply Z.pow_le_mono_r; [lia|]. subst E. rewrite fexp_spec. lia. }
  set (mrs' := fst (shr_fexp prec emax m e l)) in *.
  set (u := round_nearest_even (shr_m mrs') (loc_of_shr_record mrs')).
  pose proof (round_nearest_even_cases (shr_m mrs') (loc_of_shr_record mrs')) as [Hu Hux].
  fold u in Hu, Hux. rewrite Hmant in Hu.
  exists u. split; [exact Hu|]. split.
  { intros Hl Hmod. rewrite <- Hmant. apply Hux. now apply Hexact. }
  assert (HR : R = let '(mrs'', e'') := shr_fexp prec emax u E loc_Exact in
                   match shr_m mrs'' with
                   | 0 => S754_zero s
                   | Z.pos m0 => if e'' <=? emax - prec
                                 then S754_finite s m0 e'' else S754_infinity s
                   | Z.neg _ => S754_nan
                   end).
  { subst R. unfold binary_round_aux. rewrite Hshr. reflexivity. }
  change (emax - prec) with 971 in HR.
  destruct (Z.eq_dec u 0) as [Hu0 | Hu0].
  - left. split; [assumption|]. rewrite HR, Hu0. unfold shr_fexp.
    change (Zdigits2 0) with 0. rewrite Z.add_0_l.
    destruct (fexp prec emax E - E) as [|p|p] eqn:Hd.
    + reflexivity.
    + rewrite fexp_spec in Hd. lia.
    + reflexivity.
  - right. destruct (Z.eq_dec u (2 ^ 53)) as [Hu1 | Hu1].
    + right. split; [assumption|]. rewrite HR, Hu1. unfold shr_fexp.
      change (Zdigits2 (2 ^ 53)) with 54.
      assert (Hd : fexp prec emax (54 + E) - E = 1) by (rewrite fexp_spec; lia).
      rewrite Hd. reflexivity.
    + left. split; [lia|]. rewrite HR. unfold shr_fexp.
      assert (Hdu : Zdigits2 u <= 53).
      { destruct (Z_lt_le_dec 53 (Zdigits2 u)) as [Hgt|]; [|assumption].
        pose proof (Zdigits2_bounds u ltac:(lia)) as [Hlo _].
        assert (2 ^ 53 <= 2 ^ (Zdigits2 u - 1)) by (apply Z.pow_le_mono_r; lia). lia. }
      destruct (fexp prec emax (Zdigits2 u + E) - E) as [|p|p] eqn:Hd.
      * cbn [shr shr_record_of_loc shr_m]. destruct u; try lia. reflexivity.
      * rewrite fexp_spec in Hd. lia.
      * cbn [shr shr_record_of_loc shr_m]. destruct u; try lia. reflexivity.
Qed.

(** *** Canonical binary64 numbers *)

Lemma bounded_spec (m : positive) (e : Z) :
  bounded prec emax m e = true ->
  Z.max (Zpos (digits2_pos m) + e - 53) (-1074) = e /\ e <= 971.
Proof.
  unfold bounded, canonical_mantissa. intros Hb.
  apply andb_true_iff in Hb as [Hc He].
  apply Z.eqb_eq in Hc. apply Z.leb_le in He.
  rewrite fexp_spec in Hc. change (emax - prec) with 971 in He. now split.
Qed.

Lemma bounded_mantissa (m : positive) (e : Z) :
  bounded prec emax m e = true ->
  Zpos m < 2 ^ 53 /\ -1074 <= e <= 971 /\ (-1074 < e -> 2 ^ 52 <= Zpos m).
Proof.
  intros Hb. apply bounded_spec in Hb as [Hc He].
  pose proof (digits2_bounds m) as [Hlo Hhi].
  assert (Hd : Zpos (digits2_pos m) <= 53) by lia.
  split; [|split; [lia|]].
  - assert (2 ^ Zpos (digits2_pos m) <= 2 ^ 53) by (apply Z.pow_le_mono_r; lia). lia.
  - intros Hn. assert (Zpos (digits2_pos m) = 53) as Hd53 by lia.
    rewrite Hd53 in Hlo. exact Hlo.
Qed.

(** *** Bounds that survive rounding *)

Lemma round_aux_normal (m e : Z) :
  0 < m -> e <= fexp prec emax (Zdigits2 m + e) ->
  let E := fexp prec emax (Zdigits2 m + e) in
  (-1074 < E -> 2 ^ 52 <= m / 2 ^ (E - e))
  /\ (-1074 <= e -> 0 < m / 2 ^ (E - e)).
Proof.
  intros Hm Hn E.
  pose proof (Zdigits2_bounds m Hm) as [Hlo Hhi].
  pose proof (Zdigits2_pos m Hm) as Hd.
  assert (HE : E = Z.max (Zdigits2 m + e - 53) (-1074)) by (subst E; now rewrite fexp_spec).
  assert (Hnorm : -1074 < E -> 2 ^ 52 <= m / 2 ^ (E - e)).
  { intros Hgt. assert (Hd53 : E - e = Zdigits2 m - 53) by lia.
    rewrite Hd53. apply Z.div_le_lower_bound; [apply Z.pow_pos_nonneg; lia|].
    rewrite <- Z.pow_add_r by lia.
    now replace (Zdigits2 m - 53 + 52) with (Zdigits2 m - 1) by lia. }
  split; [exact Hnorm|]. intros He.
  destruct (Z_lt_le_dec (-1074) E) as [Hgt | Hle].
  - specialize (Hnorm Hgt). lia.
  - assert (E - e = 0) as -> by lia. now rewrite Z.div_1_r.
Qed.

Lemma round_aux_lower (m e : Z) (l : location) (mc : positive) (ec : Z) :
  0 < m -> bounded prec emax mc ec = true -> e <= ec ->
  Zpos mc * 2 ^ (ec - e) <= m ->
  SFleb (S754_finite false mc ec) (binary_round_aux prec emax false m e l) = true.
Proof.
  intros Hm Hb Hec HK.
  pose proof (bounded_spec _ _ Hb) as [Hcan Hmax].
  pose proof (bounded_mantissa _ _ Hb) as (Hmc & Hrange & Hnormal).
  assert (Hdig : Zpos (digits2_pos mc) + ec <= Zdigits2 m + e).
  { pose proof (Zdigits2_le (Zpos mc * 2 ^ (ec - e)) m) as Hle.
    rewrite Zdigits2_shift in Hle by lia. cbn [Zdigits2] in Hle.
    assert (0 < 2 ^ (ec - e)) by (apply Z.pow_pos_nonneg; lia).
    specialize (Hle ltac:(nia) HK). lia. }
  assert (HE : ec <= fexp prec emax (Zdigits2 m + e)) by (rewrite fexp_spec; lia).
  destruct (round_aux_cases false m e l Hm ltac:(lia)) as (u & Hu & _ & Hcases).
  destruct (round_aux_normal m e Hm ltac:(lia)) as [Hnorm _].
  set (E := fexp prec emax (Zdigits2 m + e)) in *.
  assert (Ht : ec = E -> Zpos mc <= m / 2 ^ (E - e)).
  { intros <-. apply Z.div_le_lower_bound; [apply Z.pow_pos_nonneg; lia | lia]. }
  assert (Hpos : 0 < m / 2 ^ (E - e)).
  { destruct (Z.eq_dec ec E) as [Heq | Hne]; [specialize (Ht Heq); lia|].
    assert (-1074 < E) by lia. specialize (Hnorm ltac:(lia)). lia. }
  destruct Hcases as [[Hu0 _] | [[Hur ->] | [Hu1 ->]]]; [lia | |].
  - destruct (E <=? 971); [|reflexivity].
    unfold SFleb, SFcompare. destruct (Z.compare_spec ec E) as [Heq | Hlt | Hgt];
      [|reflexivity | lia].
    specialize (Ht Heq).
    rewrite Pos.compare_cont_spec. cbn [Pos.switch_Eq].
    destruct (Pos.compare_spec mc (Z.to_pos u)) as [| |Hgt]; [reflexivity | reflexivity |].
    apply Pos2Z.pos_lt_pos in Hgt. rewrite Z2Pos.id in Hgt by lia. lia.
  - destruct (E + 1 <=? 971); [|reflexivity].
    unfold SFleb, SFcompare. destruct (Z.compare_spec ec (E + 1)) as [Heq | Hlt | Hgt];
      [lia | reflexivity | lia].
Qed.

Lemma round_aux_upper (m e : Z) (l : location) (mc : positive) (ec : Z) :
  0 < m -> e <= fexp prec emax (Zdigits2 m + e) ->
  bounded prec emax mc ec = true -> e <= ec ->
  (m < Zpos mc * 2 ^ (ec - e) \/ (m <= Zpos mc * 2 ^ (ec - e) /\ l = loc_Exact)) ->
  SFleb (binary_round_aux prec emax false m e l) (S754_finite false mc ec) = true.
Proof.
  intros Hm Hn Hb Hec HK.
  pose proof (bounded_spec _ _ Hb) as [Hcan Hmax].
  pose proof (bounded_mantissa _ _ Hb) as (Hmc & Hrange & Hnormal).
  assert (Hpow : 0 < 2 ^ (ec - e)) by (apply Z.pow_pos_nonneg; lia).
  assert (Hle : m <= Zpos mc * 2 ^ (ec - e)) by lia.
  assert (Hdig : Zdigits2 m + e <= Zpos (digits2_pos mc) + ec).
  { pose proof (Zdigits2_le m (Zpos mc * 2 ^ (ec - e)) Hm Hle) as Hd.
    rewrite Zdigits2_shift in Hd by lia. cbn [Zdigits2] in Hd. lia. }
  assert (HE : fexp prec emax (Zdigits2 m + e) <= ec) by (rewrite fexp_spec; lia).
  destruct (round_aux_cases false m e l Hm Hn) as (u & Hu & Hexact & Hcases).
  set (E := fexp prec emax (Zdigits2 m + e)) in *.
  assert (Hsame : E = ec -> u <= Zpos mc).
  { intros HEq. rewrite HEq in *.
    assert (Ht : m / 2 ^ (ec - e) <= Zpos mc).
    { apply Z.div_le_upper_bound; [assumption | lia]. }
    destruct (Z.eq_dec (m / 2 ^ (ec - e)) (Zpos mc)) as [Heq | Hne]; [|lia].
    assert (Hge : Zpos mc * 2 ^ (ec - e) <= m).
    { rewrite <- Heq. rewrite Z.mul_comm. apply Z.mul_div_le. assumption. }
    destruct HK as [Hlt | [_ Hl]]; [lia|].
    assert (Hm' : m = Zpos mc * 2 ^ (ec - e)) by lia.
    rewrite Hexact; [lia | assumption |].
    rewrite Hm'. apply Z.mod_mul. lia. }
  destruct Hcases as [[Hu0 ->] | [[Hur ->] | [Hu1 ->]]].
  - reflexivity.
  - assert (HE971 : (E <=? 971) = true) by (apply Z.leb_le; lia). rewrite HE971.
    unfold SFleb, SFcompare. destruct (Z.compare_spec E ec) as [Heq | Hlt | Hgt];
      [|reflexivity | lia].
    specialize (Hsame Heq).
    rewrite Pos.compare_cont_spec. cbn [Pos.switch_Eq].
    destruct (Pos.compare_spec (Z.to_pos u) mc) as [| |Hgt]; [reflexivity | reflexivity |].
    apply Pos2Z.pos_lt_pos in Hgt. rewrite Z2Pos.id in Hgt by lia. lia.
  - assert (HEne : E <> ec) by (intros HEq; specialize (Hsame HEq); lia).
    assert (HE971 : (E + 1 <=? 971) = true) by (apply Z.leb_le; lia). rewrite HE971.
    unfold SFleb, SFcompare. destruct (Z.compare_spec (E + 1) ec) as [Heq | Hlt | Hgt];
      [|reflexivity | lia].
    assert (Hn52 : 2 ^ 52 <= Zpos mc) by (apply Hnormal; subst E; rewrite fexp_spec in *; lia).
    rewrite Pos.compare_cont_spec. cbn [Pos.switch_Eq].
    destruct (Pos.compare_spec (Z.to_pos (2 ^ 52)) mc) as [| |Hgt];
      [reflexivity | reflexivity |].
    apply Pos2Z.pos_lt_pos in Hgt. rewrite Z2Pos.id in Hgt by lia. lia.
Qed.

Lemma round_aux_positive (m e : Z) (l : location) :
  0 < m -> e <= fexp prec emax (Zdigits2 m + e) -> -1074 <= e ->
  SFltb (S754_zero false) (binary_round_aux prec emax false m e l) = true.
Proof.
  intros Hm Hn He.
  destruct (round_aux_cases false m e l Hm Hn) as (u & Hu & _ & Hcases).
  destruct (round_aux_normal m e Hm Hn) as [_ Hpos]. specialize (Hpos He).
  destruct Hcases as [[Hu0 _] | [[Hur ->] | [Hu1 ->]]]; [lia | |].
  - now destruct (_ <=? 971).
  - now destruct (_ <=? 971).
Qed.

(** *** [binary_round] and [binary_normalize] *)

Lemma iter_xO (m d : positive) : Zpos (Pos.iter xO m d) = Zpos m * 2 ^ Zpos d.
Proof.
  induction d as [|d IH] using Pos.peano_ind.
  - change (Pos.iter xO m 1) with (m~0)%positive. change (2 ^ 1) with 2. lia.
  - rewrite Pos.iter_succ, Pos2Z.inj_xO, IH, Pos2Z.inj_succ, Z.pow_succ_r by lia. lia.
Qed.

Lemma shl_align_spec (mx : positive) (ex ex' : Z) :
  snd (shl_align mx ex ex') = Z.min ex ex'
  /\ Zpos (fst (shl_align mx ex ex')) = Zpos mx * 2 ^ (ex - Z.min ex ex').
Proof.
  unfold shl_align. destruct (ex' - ex) as [|d|d] eqn:Hd; cbn [fst snd].
  - replace (Z.min ex ex') with ex by lia. rewrite Z.sub_diag. lia.
  - replace (Z.min ex ex') with ex by lia. rewrite Z.sub_diag. lia.
  - replace (Z.min ex ex') with ex' by lia.
    split; [reflexivity|]. rewrite iter_xO. now replace (ex - ex') with (Zpos d) by lia.
Qed.

Lemma binary_round_aligned (s : bool) (mx : positive) (ex : Z) :
  exists m e,
    binary_round prec emax s mx ex = binary_round_aux prec emax s m e loc_Exact
    /\ 0 < m /\ e <= ex /\ m = Zpos mx * 2 ^ (ex - e)
    /\ e <= fexp prec emax (Zdigits2 m + e)
    /\ (-1074 <= ex -> -1074 <= e).
Proof.
  unfold binary_round.
  pose proof (shl_align_spec mx ex (fexp prec emax (Zpos (digits2_pos mx) + ex)))
    as [He Hm].
  destruct (shl_align mx ex (fexp prec emax (Zpos (digits2_pos mx) + ex))) as [mz ez].
  cbn [fst snd] in *.
  exists (Zpos mz), ez. split; [reflexivity|]. split; [lia|].
  split; [lia|]. split; [now rewrite Hm, He|].
  assert (Hdig : Zdigits2 (Zpos mz) + ez = Zpos (digits2_pos mx) + ex).
  { rewrite Hm, Zdigits2_shift by lia. cbn [Zdigits2]. lia. }
  rewrite Hdig. split; [lia|]. intros Hex. rewrite fexp_spec in He. lia.
Qed.

(** *** Signs of the binary64 operations *)

Lemma sf_nonneg_cases (x : spec_float) :
  SFleb (S754_zero false) x = true <->
  match x with
  | S754_zero _ | S754_infinity false | S754_finite false _ _ => True
  | _ => False
  end.
Proof. destruct x as [s | s | | s m e]; try destruct s; cbn; intuition discriminate. Qed.

Lemma round_aux_leb (m e : Z) (l : location) :
  0 <= m -> SFleb (S754_zero false) (binary_round_aux prec emax false m e l) = true.
Proof.
  intros Hm. apply sf_nonneg_cases. pose proof (round_aux_nonneg false m e l Hm) as Hs.
  destruct (binary_round_aux prec emax false m e l) as [s | s | | s m' e'];
    try subst s; auto.
Qed.

Lemma binary_round_leb (mx : positive) (ex : Z) :
  SFleb (S754_zero false) (binary_round prec emax false mx ex) = true.
Proof.
  destruct (binary_round_aligned false mx ex) as (m & e & -> & Hm & _).
  apply round_aux_leb. lia.
Qed.

Lemma SFadd_nonneg (x y : spec_float) :
  SFleb (S754_zero false) x = true -> SFleb (S754_zero false) y = true ->
  SFleb (S754_zero false) (SF64add x y) = true.
Proof.
  intros Hx Hy. apply sf_nonneg_cases in Hx, Hy.
  destruct x as [[|] | [|] | | [|] mx ex]; try contradiction;
    destruct y as [[|] | [|] | | [|] my ey]; try contradiction;
    try reflexivity.
  unfold SF64add, SFadd. cbn [cond_Zopp]. rewrite <- Pos2Z.inj_add.
  cbn [binary_normalize]. apply binary_round_leb.
Qed.

Lemma SFmul_nonneg (x y : spec_float) :
  SFleb (S754_zero false) x = true -> SFleb (S754_zero false) y = true ->
  SF64mul x y <> S754_nan ->
  SFleb (S754_zero false) (SF64mul x y) = true.
Proof.
  intros Hx Hy Hnan. apply sf_nonneg_cases in Hx, Hy.
  destruct x as [[|] | [|] | | [|] mx ex]; try contradiction;
    destruct y as [[|] | [|] | | [|] my ey]; try contradiction;
    try (cbn in Hnan; congruence); try reflexivity.
  unfold SF64mul, SFmul. cbn [xorb]. apply round_aux_leb. lia.
Qed.

Lemma SFdiv_core_nonneg (m1 e1 m2 e2 : Z) :
  0 < m1 -> 0 < m2 -> 0 <= fst (fst (SFdiv_core_binary prec emax m1 e1 m2 e2)).
Proof.
  intros H1 H2. unfold SFdiv_core_binary.
  set (s := e1 - e2 - _).
  set (m' := match s with Z.pos _ => Z.shiftl m1 s | 0 => m1 | Z.neg _ => 0 end).
  assert (Hm' : 0 <= m').
  { subst m'. destruct s; [lia | | lia]. apply Z.shiftl_nonneg. lia. }
  pose proof (Z_div_mod m' m2 ltac:(lia)) as Hdm.
  destruct (Z.div_eucl m' m2) as [q r]. cbn [fst].
  destruct Hdm as [Heq Hr]. nia.
Qed.

Lemma sf_pos_cases (x : spec_float) :
  SFltb (S754_zero false) x = true <->
  match x with
  | S754_infinity false | S754_finite false _ _ => True
  | _ => False
  end.
Proof. destruct x as [s | s | | s m e]; try destruct s; cbn; intuition discriminate. Qed.

Lemma SFdiv_nonneg (x y : spec_float) :
  SFleb (S754_zero false) x = true -> SFltb (S754_zero false) y = true ->
  SF64div x y <> S754_nan ->
  SFleb (S754_zero false) (SF64div x y) = true.
Proof.
  intros Hx Hy Hnan. apply sf_nonneg_cases in Hx. apply sf_pos_cases in Hy.
  destruct x as [[|] | [|] | | [|] mx ex]; try contradiction;
    destruct y as [[|] | [|] | | [|] my ey]; try contradiction;
    try (cbn in Hnan; congruence); try reflexivity.
  unfold SF64div, SFdiv. cbn [xorb].
  pose proof (SFdiv_core_nonneg (Zpos mx) ex (Zpos my) ey ltac:(lia) ltac:(lia)) as Hq.
  destruct (SFdiv_core_binary prec emax (Zpos mx) ex (Zpos my) ey) as [[q e'] l].
  cbn [fst] in Hq. now apply round_aux_leb.
Qed.

(** *** Order and value of canonical numbers *)

Lemma leb_value (mx : positive) (ex : Z) (my : positive) (ey : Z) (ez : Z) :
  bounded prec emax mx ex = true -> bounded prec emax my ey = true ->
  SFleb (S754_finite false mx ex) (S754_finite false my ey) = true ->
  ez <= ex -> ez <= ey ->
  Zpos mx * 2 ^ (ex - ez) <= Zpos my * 2 ^ (ey - ez).
Proof.
  intros Hbx Hby Hle Hzx Hzy.
  pose proof (bounded_mantissa _ _ Hbx) as (Hmx & Hrx & _).
  pose proof (bounded_mantissa _ _ Hby) as (Hmy & Hry & Hny).
  unfold SFleb, SFcompare in Hle.
  destruct (Z.compare_spec ex ey) as [Heq | Hlt | Hgt]; [| |discriminate].
  - subst ey. rewrite Pos.compare_cont_spec in Hle. cbn [Pos.switch_Eq] in Hle.
    assert (Hm : Zpos mx <= Zpos my).
    { destruct (Pos.compare_spec mx my) as [-> | Hl | Hg]; [lia | lia | discriminate]. }
    assert (0 < 2 ^ (ex - ez)) by (apply Z.pow_pos_nonneg; lia). nia.
  - specialize (Hny ltac:(lia)).
    replace (ey - ez) with ((ey - ex - 1) + 1 + (ex - ez)) by lia.
    rewrite !Z.pow_add_r by lia. change (2 ^ 1) with 2.
    assert (0 < 2 ^ (ex - ez)) by (apply Z.pow_pos_nonneg; lia).
    assert (0 < 2 ^ (ey - ex - 1)) by (apply Z.pow_pos_nonneg; lia).
    assert (Hm : Zpos mx <= 2 * Zpos my) by lia.
    pose proof (Pos2Z.is_pos my) as Hpy. pose proof (Pos2Z.is_pos mx) as Hpx.
    generalize dependent (Zpos mx). generalize dependent (Zpos my).
    generalize dependent (2 ^ (ex - ez)). generalize dependent (2 ^ (ey - ex - 1)).
    clear. intros B HB A HA y _ _ Hy x _ Hxy Hx.
    transitivity (2 * y * A); [nia|].
    replace (y * (B * 2 * A)) with ((2 * y * A) * B) by ring.
    assert (0 <= 2 * y * A) by nia. nia.
Qed.

(** *** The three operations of the RSI formula *)

Lemma pow2_split (a b : Z) : 0 <= a -> 0 <= b -> 2 ^ (a + b) = 2 ^ a * 2 ^ b.
Proof. intros. now apply Z.pow_add_r. Qed.

Lemma SFadd_one_lower (y : spec_float) :
  SFleb (S754_zero false) y = true ->
  SFleb (Prim2SF 1) (SF64add (Prim2SF 1) y) = true.
Proof.
  intros Hy. apply sf_nonneg_cases in Hy. rewrite Prim2SF_one.
  destruct y as [[|] | [|] | | [|] my ey]; try contradiction; try reflexivity.
  unfold SF64add, SFadd. cbn [cond_Zopp].
  set (ez := Z.min (-52) ey).
  pose proof (shl_align_spec 4503599627370496 (-52) ez) as [_ Ha].
  replace (Z.min (-52) ez) with ez in Ha by lia.
  set (a := fst (shl_align 4503599627370496 (-52) ez)) in *.
  set (b := fst (shl_align my ey ez)).
  rewrite <- Pos2Z.inj_add. cbn [binary_normalize].
  destruct (binary_round_aligned false (a + b) ez) as (m & e & -> & Hm & He & Hval & _).
  apply round_aux_lower; [assumption | reflexivity | lia |].
  rewrite Hval, Pos2Z.inj_add.
  assert (Hp : 0 < 2 ^ (ez - e)) by (apply Z.pow_pos_nonneg; lia).
  replace (-52 - e) with ((-52 - ez) + (ez - e)) by lia.
  rewrite pow2_split by lia. rewrite Z.mul_assoc, <- Ha.
  pose proof (Pos2Z.is_pos b). nia.
Qed.

Lemma new_location_exact (m : Z) : new_location m 0 = loc_Exact.
Proof. unfold new_location. destruct (Z.even m); reflexivity. Qed.

Lemma div_core_spec (m1 e1 m2 e2 : Z) :
  0 < m1 -> 0 < m2 ->
  let e' := Z.min (fexp prec emax (Zdigits2 m1 + e1 - (Zdigits2 m2 + e2))) (e1 - e2) in
  exists q r l,
    SFdiv_core_binary prec emax m1 e1 m2 e2 = (q, e', l)
    /\ m1 * 2 ^ (e1 - e2 - e') = m2 * q + r /\ 0 <= r < m2
    /\ (r = 0 -> l = loc_Exact).
Proof.
  intros H1 H2 e'. unfold SFdiv_core_binary. fold e'.
  set (s := e1 - e2 - e').
  assert (Hs : 0 <= s) by (subst s e'; lia).
  set (m' := match s with Z.pos _ => Z.shiftl m1 s | 0 => m1 | Z.neg _ => 0 end).
  assert (Hm' : m' = m1 * 2 ^ s).
  { subst m'. destruct s as [|p|p]; [cbn; lia | now rewrite Z.shiftl_mul_pow2 | lia]. }
  pose proof (Z_div_mod m' m2 ltac:(lia)) as Hdm.
  destruct (Z.div_eucl m' m2) as [q r]. destruct Hdm as [Heq Hr].
  exists q, r, (new_location m2 r). split; [reflexivity|].
  split; [now rewrite <- Hm'|]. split; [assumption|].
  intros ->. apply new_location_exact.
Qed.

Lemma SFdiv_hundred (y : spec_float) :
  valid_binary y = true -> SFleb (Prim2SF 1) y = true ->
  SFleb (S754_zero false) (SF64div (Prim2SF 100) y) = true
  /\ SFleb (SF64div (Prim2SF 100) y) (Prim2SF 100) = true.
Proof.
  intros Hv Hy. rewrite Prim2SF_one in Hy. rewrite Prim2SF_hundred.
  destruct y as [[|] | [|] | | [|] my ey]; try discriminate; [now split|].
  cbn [valid_binary] in Hv.
  pose proof (bounded_mantissa _ _ Hv) as (Hmy & Hrange & Hnormal).
  assert (Hey : -52 <= ey).
  { unfold SFleb, SFcompare in Hy.
    destruct (Z.compare_spec (-52) ey); [lia | lia | discriminate]. }
  specialize (Hnormal ltac:(lia)).
  assert (Hdy : Zdigits2 (Zpos my) = 53) by (apply Zdigits2_unique; lia).
  unfold SF64div, SFdiv. cbn [xorb].
  destruct (div_core_spec 7036874417766400 (-46) (Zpos my) ey ltac:(lia) ltac:(lia))
    as (q & r & l & -> & Heq & Hr & Hexact).
  rewrite Hdy in Heq |- *.
  change (Zdigits2 7036874417766400) with 53 in Heq |- *.
  assert (He' : Z.min (fexp prec emax (53 + -46 - (53 + ey))) (-46 - ey) = -99 - ey)
    by (rewrite fexp_spec; lia).
  rewrite He' in Heq |- *.
  replace (-46 - ey - (-99 - ey)) with 53 in Heq by lia.
  assert (Hq : 2 ^ 52 <= q).
  { change (2 ^ 52) with 4503599627370496. change (2 ^ 53) with 9007199254740992 in *.
    nia. }
  split; [apply round_aux_leb; lia|].
  assert (Hdq : 53 <= Zdigits2 q).
  { change 53 with (Zdigits2 (2 ^ 52)). apply Zdigits2_le; [reflexivity | assumption]. }
  apply round_aux_upper; [lia | rewrite fexp_spec; lia | reflexivity | lia |].
  replace (-46 - (-99 - ey)) with (53 + ey) by lia.
  destruct (Z_lt_le_dec ey 0) as [Hneg | Hpos].
  - (* 2^52 <= my < 2^53 and -52 <= ey < 0 *)
    assert (Hsplit : 2 ^ 53 = 2 ^ (53 + ey) * 2 ^ (- ey))
      by (rewrite <- pow2_split by lia; f_equal; lia).
    assert (Hsmall : 2 ^ (- ey) <= 2 ^ 52) by (apply Z.pow_le_mono_r; lia).
    assert (Hpa : 0 < 2 ^ (53 + ey)) by (apply Z.pow_pos_nonneg; lia).
    assert (Hpb : 0 < 2 ^ (- ey)) by (apply Z.pow_pos_nonneg; lia).
    rewrite Hsplit in Heq.
    generalize dependent (2 ^ (53 + ey)). generalize dependent (2 ^ (- ey)).
    intros B HB1 HB2 A HA1 HA2 HA3.
    assert (Hle : q <= 7036874417766400 * A) by nia.
    destruct (Z.eq_dec q (7036874417766400 * A)) as [Hqe | Hqne]; [right | left; lia].
    split; [lia|]. apply Hexact. nia.
  - left.
    assert (Hsplit : 2 ^ (53 + ey) = 2 ^ 53 * 2 ^ ey) by (apply pow2_split; lia).
    assert (Hpe : 0 < 2 ^ ey) by (apply Z.pow_pos_nonneg; lia).
    rewrite Hsplit. generalize dependent (2 ^ ey). intros A HA1 HA2.
    change (2 ^ 52) with 4503599627370496 in *. change (2 ^ 53) with 9007199254740992 in *.
    nia.
Qed.

Lemma SFsub_hundred (q : spec_float) :
  valid_binary q = true ->
  SFleb (S754_zero false) q = true -> SFleb q (Prim2SF 100) = true ->
  SFleb (S754_zero false) (SF64sub (Prim2SF 100) q) = true
  /\ SFleb (SF64sub (Prim2SF 100) q) (Prim2SF 100) = true.
Proof.
  intros Hv H0 Hq. apply sf_nonneg_cases in H0. rewrite Prim2SF_hundred in *.
  destruct q as [[|] | [|] | | [|] mq eq]; try contradiction; try discriminate;
    try (now split).
  cbn [valid_binary] in Hv.
  unfold SF64sub, SFsub. cbn [cond_Zopp].
  set (ez := Z.min (-46) eq).
  pose proof (shl_align_spec 7036874417766400 (-46) ez) as [_ Ha].
  pose proof (shl_align_spec mq eq ez) as [_ Hb].
  replace (Z.min (-46) ez) with ez in Ha by lia.
  replace (Z.min eq ez) with ez in Hb by lia.
  pose proof (leb_value mq eq 7036874417766400 (-46) ez Hv eq_refl Hq ltac:(lia) ltac:(lia))
    as Hle.
  rewrite <- Ha, <- Hb in Hle.
  set (a := fst (shl_align 7036874417766400 (-46) ez)) in *.
  set (b := fst (shl_align mq eq ez)) in *.
  destruct (Z.pos a - Z.pos b) as [|p|p] eqn:Hd; [now split | | lia].
  cbn [binary_normalize]. split; [apply binary_round_leb|].
  destruct (binary_round_aligned false p ez) as (m & e & -> & Hm & He & Hval & Hn & _).
  apply round_aux_upper; [assumption | assumption | reflexivity | lia |].
  right. split; [|reflexivity].
  rewrite Hval.
  replace (-46 - e) with ((-46 - ez) + (ez - e)) by lia.
  rewrite pow2_split by lia. rewrite Z.mul_assoc, <- Ha.
  assert (Hp : 0 < 2 ^ (ez - e)) by (apply Z.pow_pos_nonneg; lia).
  pose proof (Pos2Z.is_pos b). nia.
Qed.

(** *** Converted integers *)

Lemma of_Z_finite (p : positive) :
  Zpos p < 2 ^ 31 ->
  exists m e, binary_normalize prec emax (Zpos p) 0 false = S754_finite false m e.
Proof.
  intros Hp. cbn [binary_normalize].
  destruct (binary_round_aligned false p 0) as (m & e & HR & Hm & He & Hval & Hn & Hmin).
  specialize (Hmin ltac:(lia)).
  pose proof (round_aux_positive m e loc_Exact Hm Hn Hmin) as Hpos.
  assert (Hdig : Zdigits2 m + e <= 31).
  { rewrite Hval, Zdigits2_shift by lia.
    assert (Zdigits2 (Zpos p) <= Zdigits2 (2 ^ 31 - 1))
      by (apply Zdigits2_le; lia).
    change (Zdigits2 (2 ^ 31 - 1)) with 31 in *. lia. }
  assert (He21 : e <= -21) by (rewrite fexp_spec in Hn; lia).
  pose proof (round_aux_upper m e loc_Exact 4503599627370496 (-21) Hm Hn eq_refl He21) as Hup.
  rewrite HR.
  assert (Hcond : m < 4503599627370496 * 2 ^ (-21 - e)
                  \/ m <= 4503599627370496 * 2 ^ (-21 - e) /\ loc_Exact = loc_Exact).
  { left. rewrite Hval. replace (0 - e) with (- e) by lia.
    replace (- e) with (21 + (-21 - e)) by lia. rewrite pow2_split by lia.
    assert (0 < 2 ^ (-21 - e)) by (apply Z.pow_pos_nonneg; lia).
    change (2 ^ 21) with 2097152. change (2 ^ 31) with 2147483648 in Hp. nia. }
  specialize (Hup Hcond).
  apply sf_pos_cases in Hpos.
  destruct (binary_round_aux prec emax false m e loc_Exact) as [s | [|] | | [|] m' e'];
    try contradiction; try discriminate.
  eauto.
Qed.

(** *** Binary64 numbers that are finite, and those that are not negative *)

Lemma is_finite_SF (x : float) :
  is_finite x = true <->
  match Prim2SF x with
  | S754_zero _ | S754_finite _ _ _ => True
  | _ => False
  end.
Proof.
  unfold is_finite, is_nan, is_infinity.
  rewrite !FloatAxioms.eqb_spec, abs_spec.
  change (Prim2SF infinity) with (S754_infinity false).
  destruct (Prim2SF x) as [s | s | | s m e]; try destruct s; cbn; try tauto;
    try (split; [discriminate | contradiction]).
  all: unfold SFeqb, SFcompare; rewrite Z.compare_refl, Pos.compare_cont_refl; cbn; tauto.
Qed.

Lemma float_nonneg_SF (x : float) :
  (0 <=? x)%float = true <-> SFleb (S754_zero false) (Prim2SF x) = true.
Proof. now rewrite leb_spec, Prim2SF_zero. Qed.

Lemma float_pos_SF (x : float) :
  (0 <? x)%float = true <-> SFltb (S754_zero false) (Prim2SF x) = true.
Proof. now rewrite ltb_spec, Prim2SF_zero. Qed.

Lemma float_add_finite (x y : float) :
  is_finite (x + y) = true -> is_finite x = true /\ is_finite y = true.
Proof.
  rewrite !is_finite_SF, add_spec.
  destruct (Prim2SF x) as [[|] | [|] | | sx mx ex], (Prim2SF y) as [[|] | [|] | | sy my ey];
    cbn; tauto.
Qed.

Lemma float_mul_finite (x y : float) :
  is_finite (x * y) = true -> is_finite x = true /\ is_finite y = true.
Proof.
  rewrite !is_finite_SF, mul_spec.
  destruct (Prim2SF x) as [[|] | [|] | | sx mx ex], (Prim2SF y) as [[|] | [|] | | sy my ey];
    cbn; tauto.
Qed.

Lemma float_div_finite (x y : float) :
  is_finite (x / y) = true -> is_finite x = true.
Proof.
  rewrite !is_finite_SF, div_spec.
  destruct (Prim2SF x) as [[|] | [|] | | sx mx ex], (Prim2SF y) as [[|] | [|] | | sy my ey];
    cbn; tauto.
Qed.

Lemma float_opp_finite (x : float) : is_finite (- x) = true -> is_finite x = true.
Proof.
  rewrite !is_finite_SF, opp_spec. destruct (Prim2SF x) as [[|] | [|] | | sx mx ex]; cbn; tauto.
Qed.

Lemma float_finite_not_nan (x : float) : is_finite x = true -> Prim2SF x <> S754_nan.
Proof. rewrite is_finite_SF. intros Hf Hn. now rewrite Hn in Hf. Qed.

Lemma float_add_nonneg (x y : float) :
  (0 <=? x)%float = true -> (0 <=? y)%float = true -> (0 <=? x + y)%float = true.
Proof. rewrite !float_nonneg_SF, add_spec. apply SFadd_nonneg. Qed.

Lemma float_mul_nonneg (x y : float) :
  (0 <=? x)%float = true -> (0 <=? y)%float = true -> is_finite (x * y) = true ->
  (0 <=? x * y)%float = true.
Proof.
  rewrite !float_nonneg_SF. intros Hx Hy Hf. apply float_finite_not_nan in Hf.
  rewrite mul_spec in *. now apply SFmul_nonneg.
Qed.

Lemma float_div_nonneg (x y : float) :
  (0 <=? x)%float = true -> (0 <? y)%float = true -> is_finite (x / y) = true ->
  (0 <=? x / y)%float = true.
Proof.
  rewrite !float_nonneg_SF, float_pos_SF. intros Hx Hy Hf. apply float_finite_not_nan in Hf.
  rewrite div_spec in *. now apply SFdiv_nonneg.
Qed.

(* a number that is not above zero, negated *)
Lemma float_opp_nonneg (x : float) :
  is_finite x = true -> (0 <? x)%float = false -> (0 <=? - x)%float = true.
Proof.
  rewrite is_finite_SF, ltb_spec, leb_spec, opp_spec, Prim2SF_zero.
  destruct (Prim2SF x) as [[|] | [|] | | [|] mx ex]; cbn; try tauto; try discriminate.
  all: intros _ _; reflexivity.
Qed.

Lemma float_neg_opp_nonneg (x : float) :
  (x <? 0)%float = true -> (0 <=? - x)%float = true.
Proof.
  rewrite ltb_spec, leb_spec, opp_spec, Prim2SF_zero.
  destruct (Prim2SF x) as [[|] | [|] | | [|] mx ex]; cbn; try tauto; try discriminate.
  all: intros _; reflexivity.
Qed.

(** *** Periods as binary64 numbers *)

Lemma float_of_int_SF (z : Z) :
  0 <= z < 2 ^ 31 -> Prim2SF (float_of_int z) = binary_normalize prec emax z 0 false.
Proof.
  intros Hz. unfold float_of_int.
  destruct (Z.leb_spec 0 z) as [_ | Hneg]; [|lia].
  rewrite of_uint63_spec, Uint63.of_Z_spec.
  rewrite Z.mod_small; [reflexivity|]. change Uint63.wB with (2 ^ 63). lia.
Qed.

Lemma float_of_int_pos (z : Z) :
  1 <= z < 2 ^ 31 -> exists m e, Prim2SF (float_of_int z) = S754_finite false m e.
Proof.
  intros Hz. rewrite float_of_int_SF by lia.
  destruct z as [|p|p]; try lia. apply of_Z_finite. lia.
Qed.

Lemma float_of_int_nonneg (z : Z) :
  0 <= z < 2 ^ 31 ->
  is_finite (float_of_int z) = true /\ (0 <=? float_of_int z)%float = true.
Proof.
  intros Hz. destruct (Z.eq_dec z 0) as [-> | Hne]; [split; reflexivity|].
  destruct (float_of_int_pos z ltac:(lia)) as (m & e & Hsf).
  rewrite is_finite_SF, float_nonneg_SF, Hsf. split; [exact I | reflexivity].
Qed.

Lemma float_of_int_positive (z : Z) :
  1 <= z < 2 ^ 31 ->
  is_finite (float_of_int z) = true /\ (0 <? float_of_int z)%float = true.
Proof.
  intros Hz. destruct (float_of_int_pos z Hz) as (m & e & Hsf).
  rewrite is_finite_SF, float_pos_SF, Hsf. split; [exact I | reflexivity].
Qed.

(** *** The value stored by [RSI] *)

Lemma rsi_value_range (avgGain avgLoss : float) :
  is_finite avgGain = true -> (0 <=? avgGain)%float = true ->
  is_finite avgLoss = true -> (0 <=? avgLoss)%float = true ->
  (0 <=? rsi_value avgGain avgLoss)%float = true
  /\ (rsi_value avgGain avgLoss <=? 100)%float = true.
Proof.
  intros HfG HnG HfL HnL. unfold rsi_value, rsi_rs.
  cbn [of_int add sub div eqb binary64].
  change (float_of_int 100) with 100%float. change (float_of_int 1) with 1%float.
  change (float_of_int 0) with 0%float.
  destruct (avgLoss =? 0)%float eqn:Hzero; [vm_compute; split; reflexivity|].
  set (rs := (avgGain / avgLoss)%float).
  assert (Hrs : SFleb (S754_zero false) (Prim2SF rs) = true).
  { subst rs. rewrite div_spec.
    apply is_finite_SF in HfG, HfL. apply float_nonneg_SF in HnG, HnL.
    rewrite FloatAxioms.eqb_spec, Prim2SF_zero in Hzero.
    apply sf_nonneg_cases in HnG, HnL.
    destruct (Prim2SF avgLoss) as [[|] | [|] | | [|] ml el]; try contradiction;
      try discriminate.
    destruct (Prim2SF avgGain) as [[|] | [|] | | [|] mg eg]; try contradiction;
      try reflexivity.
    unfold SF64div, SFdiv. cbn [xorb].
    pose proof (SFdiv_core_nonneg (Zpos mg) eg (Zpos ml) el ltac:(lia) ltac:(lia)) as Hq.
    destruct (SFdiv_core_binary prec emax (Zpos mg) eg (Zpos ml) el) as [[q e'] l].
    cbn [fst] in Hq. now apply round_aux_leb. }
  pose proof (SFadd_one_lower _ Hrs) as Hone. rewrite <- add_spec in Hone.
  pose proof (SFdiv_hundred _ (Prim2SF_valid (1 + rs)) Hone) as [Hq0 Hq100].
  rewrite <- div_spec in Hq0, Hq100.
  pose proof (SFsub_hundred _ (Prim2SF_valid (100 / (1 + rs))) Hq0 Hq100) as [Hr0 Hr100].
  rewrite <- sub_spec in Hr0, Hr100.
  split; [now apply float_nonneg_SF | now rewrite leb_spec].
Qed.

(** *** Upper bounds that survive rounding *)

Lemma SFup_weaken (x : spec_float) (J J' K : Z) :
  J <= J' -> -1074 <= K -> SFup x J K -> SFup x J' K.
Proof.
  intros HJ HK. destruct x as [s | s | | [|] m e]; cbn; try tauto.
  assert (0 < 2 ^ (K + 1074)) by (apply Z.pow_pos_nonneg; lia). nia.
Qed.

Lemma SFup_nonneg (x : spec_float) (J K : Z) :
  SFup x J K -> SFleb (S754_zero false) x = true.
Proof. destruct x as [s | s | | [|] m e]; cbn; try tauto; reflexivity. Qed.

(* the canonical form of [J * 2^K] *)
Lemma canonical_bound (J K : Z) :
  0 < J < 2 ^ 53 -> -1074 <= K + Zdigits2 J - 53 <= 971 ->
  exists mc ec,
    bounded prec emax mc ec = true
    /\ 0 <= K - ec /\ Zpos mc = J * 2 ^ (K - ec) /\ K - 52 <= ec.
Proof.
  intros HJ HK.
  pose proof (Zdigits2_bounds J ltac:(lia)) as [Hlo Hhi].
  pose proof (Zdigits2_pos J ltac:(lia)) as Hd.
  assert (Hd53 : Zdigits2 J <= 53).
  { destruct (Z_lt_le_dec 53 (Zdigits2 J)) as [Hgt|]; [|assumption].
    assert (2 ^ 53 <= 2 ^ (Zdigits2 J - 1)) by (apply Z.pow_le_mono_r; lia). lia. }
  set (s := 53 - Zdigits2 J).
  assert (Hpos : 0 < J * 2 ^ s).
  { apply Z.mul_pos_pos; [lia | apply Z.pow_pos_nonneg; lia]. }
  exists (Z.to_pos (J * 2 ^ s)), (K - s).
  replace (K - (K - s)) with s by lia.
  split; [|split; [lia | split; [now rewrite Z2Pos.id | lia]]].
  unfold bounded, canonical_mantissa.
  change (Zpos (digits2_pos (Z.to_pos (J * 2 ^ s))))
    with (Zdigits2 (Zpos (Z.to_pos (J * 2 ^ s)))).
  rewrite Z2Pos.id by assumption. rewrite Zdigits2_shift by lia.
  rewrite fexp_spec. change (emax - prec) with 971.
  apply andb_true_intro. split; [apply Z.eqb_eq | apply Z.leb_le]; lia.
Qed.

Lemma SFleb_up (x : spec_float) (mc : positive) (ec J K : Z) :
  valid_binary x = true -> SFleb (S754_zero false) x = true ->
  SFleb x (S754_finite false mc ec) = true ->
  bounded prec emax mc ec = true -> 0 <= K - ec -> Zpos mc = J * 2 ^ (K - ec) ->
  SFup x J K.
Proof.
  intros Hv Hpos Hle Hb Hs Hmc. apply sf_nonneg_cases in Hpos.
  destruct x as [s | [|] | | [|] m e]; try contradiction; try discriminate; [exact I|].
  cbn [valid_binary] in Hv. cbn [SFup].
  pose proof (bounded_mantissa _ _ Hv) as (_ & He & _).
  pose proof (bounded_mantissa _ _ Hb) as (_ & Hec & _).
  pose proof (leb_value m e mc ec (-1074) Hv Hb Hle ltac:(lia) ltac:(lia)) as Hval.
  replace (e - -1074) with (e + 1074) in Hval by lia.
  rewrite Hmc in Hval. rewrite <- Z.mul_assoc, <- Z.pow_add_r in Hval by lia.
  now replace (K - ec + (ec - -1074)) with (K + 1074) in Hval by lia.
Qed.

Lemma round_aux_sign (s : bool) (m e : Z) (l : location) :
  SFabs (binary_round_aux prec emax s m e l)
  = SFabs (binary_round_aux prec emax false m e l)
  /\ valid_binary (binary_round_aux prec emax s m e l)
     = valid_binary (binary_round_aux prec emax false m e l).
Proof.
  unfold binary_round_aux.
  destruct (shr_fexp prec emax m e l) as [mrs' e'].
  destruct (shr_fexp prec emax _ e' loc_Exact) as [mrs'' e''].
  destruct (shr_m mrs'') as [|p|p]; [split; reflexivity | | split; reflexivity].
  destruct (e'' <=? emax - prec); split; reflexivity.
Qed.

(* a value below a number of the format is rounded to a number below it *)
Lemma round_up (m e e0 : Z) (l : location) (J K : Z) :
  0 < m -> e <= fexp prec emax (Zdigits2 m + e) ->
  0 < J < 2 ^ 53 -> -1074 <= K + Zdigits2 J - 53 <= 971 ->
  e0 <= e -> e0 <= K - 52 ->
  (m * 2 ^ (e - e0) < J * 2 ^ (K - e0)
   \/ (m * 2 ^ (e - e0) <= J * 2 ^ (K - e0) /\ l = loc_Exact)) ->
  valid_binary (binary_round_aux prec emax false m e l) = true ->
  SFup (binary_round_aux prec emax false m e l) J K.
Proof.
  intros Hm Hn HJ HK He0 HK0 Hval Hvalid.
  destruct (canonical_bound J K HJ HK) as (mc & ec & Hb & Hs & Hmc & Hec).
  pose proof (bounded_mantissa _ _ Hb) as (Hmc53 & Hrange & _).
  assert (Hp0 : 0 < 2 ^ (e - e0)) by (apply Z.pow_pos_nonneg; lia).
  assert (Hsplit : J * 2 ^ (K - e0) = Zpos mc * 2 ^ (ec - e0)).
  { rewrite Hmc, <- Z.mul_assoc, <- Z.pow_add_r by lia. do 2 f_equal. lia. }
  rewrite Hsplit in Hval.
  assert (Hle : e <= ec).
  { destruct (Z_le_gt_dec e ec) as [|Hgt]; [assumption|]. exfalso.
    assert (Hsmall : m * 2 ^ (e - ec) <= Zpos mc).
    { assert (Hpc : 0 < 2 ^ (ec - e0)) by (apply Z.pow_pos_nonneg; lia).
      replace (e - e0) with ((e - ec) + (ec - e0)) in Hval by lia.
      rewrite Z.pow_add_r, Z.mul_assoc in Hval by lia. nia. }
    assert (Hpe : 0 < 2 ^ (e - ec)) by (apply Z.pow_pos_nonneg; lia).
    pose proof (Zdigits2_le (m * 2 ^ (e - ec)) (Zpos mc) ltac:(nia) Hsmall) as Hd.
    rewrite Zdigits2_shift in Hd by lia.
    assert (Hdc : Zdigits2 (Zpos mc) <= 53).
    { destruct (Z_lt_le_dec 53 (Zdigits2 (Zpos mc))) as [Hbig|]; [|assumption].
      pose proof (Zdigits2_bounds (Zpos mc) ltac:(lia)) as [Hlo _].
      assert (2 ^ 53 <= 2 ^ (Zdigits2 (Zpos mc) - 1)) by (apply Z.pow_le_mono_r; lia).
      lia. }
    rewrite fexp_spec in Hn. lia. }
  assert (Hcond : m < Zpos mc * 2 ^ (ec - e)
                  \/ (m <= Zpos mc * 2 ^ (ec - e) /\ l = loc_Exact)).
  { replace (ec - e0) with ((ec - e) + (e - e0)) in Hval by lia.
    rewrite Z.pow_add_r, Z.mul_assoc in Hval by lia.
    destruct Hval as [Hlt | [Hlt Hl]]; [left | right; split; [|exact Hl]]; nia. }
  pose proof (round_aux_upper m e l mc ec Hm Hn Hb Hle Hcond) as Hupper.
  pose proof (round_aux_leb m e l ltac:(lia)) as Hlower.
  exact (SFleb_up _ mc ec J K Hvalid Hlower Hupper Hb Hs Hmc).
Qed.

Lemma round_zero (e : Z) (l : location) :
  e <= fexp prec emax (Zdigits2 0 + e) ->
  binary_round_aux prec emax false 0 e l = S754_zero false
  \/ binary_round_aux prec emax false 0 e l = S754_finite false 1 (-1074).
Proof.
  intros Hn.
  destruct (shr_fexp_m 0 e l ltac:(lia) Hn) as (Hshr & Hmant & _).
  change (Zdigits2 0 + e) with e in *.
  assert (HE : fexp prec emax e = -1074) by (rewrite fexp_spec in *; lia).
  rewrite HE in *. rewrite Z.div_0_l in Hmant
    by (apply Z.pow_nonzero; lia).
  unfold binary_round_aux. rewrite Hshr.
  set (mrs := fst (shr_fexp prec emax 0 e l)) in *.
  pose proof (round_nearest_even_cases (shr_m mrs) (loc_of_shr_record mrs)) as [Hu _].
  set (u := round_nearest_even (shr_m mrs) (loc_of_shr_record mrs)) in *.
  rewrite Hmant in Hu.
  assert (Hcase : u = 0 \/ u = 1) by lia.
  destruct Hcase as [-> | ->]; [left | right]; reflexivity.
Qed.

Lemma SFup_abs (x : spec_float) (J K : Z) : SFup x J K -> SFup (SFabs x) J K.
Proof. destruct x as [s | s | | [|] m e]; cbn; tauto. Qed.

Lemma SFup_of_abs (x : spec_float) (J K : Z) :
  SFleb (S754_zero false) x = true -> SFup (SFabs x) J K -> SFup x J K.
Proof.
  intros Hpos. apply sf_nonneg_cases in Hpos.
  destruct x as [s | [|] | | [|] m e]; cbn; tauto.
Qed.

(** *** Sums and differences *)

Lemma binary_round_sign (s : bool) (m : positive) (e : Z) :
  SFabs (binary_round prec emax s m e) = SFabs (binary_round prec emax false m e)
  /\ valid_binary (binary_round prec emax s m e)
     = valid_binary (binary_round prec emax false m e).
Proof.
  unfold binary_round. destruct (shl_align m e _) as [mz ez]. apply round_aux_sign.
Qed.

Lemma normalize_mag (d ez J K : Z) :
  -1074 <= ez -> -1022 <= K ->
  0 < J < 2 ^ 53 -> -1074 <= K + Zdigits2 J - 53 <= 971 ->
  Z.abs d * 2 ^ (ez + 1074) <= J * 2 ^ (K + 1074) ->
  valid_binary (binary_normalize prec emax d ez false) = true ->
  SFup (SFabs (binary_normalize prec emax d ez false)) J K.
Proof.
  intros Hez HK HJ Hrange Hval Hvalid.
  assert (Hcore : forall p : positive,
            Zpos p * 2 ^ (ez + 1074) <= J * 2 ^ (K + 1074) ->
            valid_binary (binary_round prec emax false p ez) = true ->
            SFup (binary_round prec emax false p ez) J K).
  { intros p Hp Hv.
    destruct (binary_round_aligned false p ez) as (m & e & HR & Hm & He & Hme & Hn & Hmin).
    specialize (Hmin Hez). rewrite HR in Hv |- *.
    apply (round_up m e (-1074)); try assumption; try lia.
    right. split; [|reflexivity].
    replace (e - -1074) with (e + 1074) by lia.
    replace (K - -1074) with (K + 1074) by lia.
    rewrite Hme, <- Z.mul_assoc, <- Z.pow_add_r by lia.
    now replace (ez - e + (e + 1074)) with (ez + 1074) by lia. }
  destruct d as [|p|p]; cbn [binary_normalize] in *.
  - exact I.
  - apply SFup_abs. now apply Hcore.
  - destruct (binary_round_sign true p ez) as [Habs Hv]. rewrite Habs.
    apply SFup_abs. apply Hcore; [exact Hval | now rewrite <- Hv].
Qed.

Lemma aligned_sum (sx sy : bool) (mx my : positive) (ex ey J1 J2 K : Z) (plus : bool) :
  -1074 <= ex -> -1074 <= ey ->
  Zpos mx * 2 ^ (ex + 1074) <= J1 * 2 ^ (K + 1074) ->
  Zpos my * 2 ^ (ey + 1074) <= J2 * 2 ^ (K + 1074) ->
  let ez := Z.min ex ey in
  let a := cond_Zopp sx (Zpos (fst (shl_align mx ex ez))) in
  let b := cond_Zopp sy (Zpos (fst (shl_align my ey ez))) in
  Z.abs (if plus then a + b else a - b) * 2 ^ (ez + 1074) <= (J1 + J2) * 2 ^ (K + 1074).
Proof.
  intros Hex Hey Hx Hy ez a b.
  pose proof (shl_align_spec mx ex ez) as [_ Ha].
  pose proof (shl_align_spec my ey ez) as [_ Hb].
  replace (Z.min ex ez) with ez in Ha by lia.
  replace (Z.min ey ez) with ez in Hb by lia.
  assert (Hpz : 0 < 2 ^ (ez + 1074)) by (apply Z.pow_pos_nonneg; lia).
  assert (Hxa : Zpos (fst (shl_align mx ex ez)) * 2 ^ (ez + 1074) = Zpos mx * 2 ^ (ex + 1074)).
  { rewrite Ha, <- Z.mul_assoc, <- Z.pow_add_r by lia. do 2 f_equal. lia. }
  assert (Hyb : Zpos (fst (shl_align my ey ez)) * 2 ^ (ez + 1074) = Zpos my * 2 ^ (ey + 1074)).
  { rewrite Hb, <- Z.mul_assoc, <- Z.pow_add_r by lia. do 2 f_equal. lia. }
  assert (Habs : Z.abs (if plus then a + b else a - b)
                 <= Zpos (fst (shl_align mx ex ez)) + Zpos (fst (shl_align my ey ez))).
  { subst a b. destruct plus, sx, sy; cbn [cond_Zopp]; lia. }
  nia.
Qed.

Lemma SFadd_mag (x y : spec_float) (J1 J2 J3 K : Z) :
  valid_binary x = true -> valid_binary y = true ->
  SFup (SFabs x) J1 K -> SFup (SFabs y) J2 K ->
  0 <= J1 -> 0 <= J2 -> J1 + J2 <= J3 -> -1022 <= K ->
  0 < J3 < 2 ^ 53 -> -1074 <= K + Zdigits2 J3 - 53 <= 971 ->
  valid_binary (SF64add x y) = true ->
  SFup (SFabs (SF64add x y)) J3 K.
Proof.
  intros Hvx Hvy Hx Hy H1 H2 H3 HK HJ Hrange Hv.
  destruct x as [sx | sx | | sx mx ex]; try contradiction;
    destruct y as [sy | sy | | sy my ey]; try contradiction.
  - destruct sx, sy; exact I.
  - cbn [SF64add SFadd]. eapply SFup_weaken; [|lia|exact Hy]. lia.
  - cbn [SF64add SFadd]. eapply SFup_weaken; [|lia|exact Hx]. lia.
  - cbn [valid_binary] in Hvx, Hvy. cbn [SFabs SFup] in Hx, Hy.
    pose proof (bounded_mantissa _ _ Hvx) as (_ & Hex & _).
    pose proof (bounded_mantissa _ _ Hvy) as (_ & Hey & _).
    unfold SF64add, SFadd in *.
    apply normalize_mag; try assumption; [lia|].
    pose proof (aligned_sum sx sy mx my ex ey J1 J2 K true
                  ltac:(lia) ltac:(lia) Hx Hy) as Hsum.
    cbn zeta in Hsum. cbn iota in Hsum.
    assert (0 < 2 ^ (K + 1074)) by (apply Z.pow_pos_nonneg; lia). nia.
Qed.

Lemma SFsub_mag (x y : spec_float) (J1 J2 J3 K : Z) :
  valid_binary x = true -> valid_binary y = true ->
  SFup (SFabs x) J1 K -> SFup (SFabs y) J2 K ->
  0 <= J1 -> 0 <= J2 -> J1 + J2 <= J3 -> -1022 <= K ->
  0 < J3 < 2 ^ 53 -> -1074 <= K + Zdigits2 J3 - 53 <= 971 ->
  valid_binary (SF64sub x y) = true ->
  SFup (SFabs (SF64sub x y)) J3 K.
Proof.
  intros Hvx Hvy Hx Hy H1 H2 H3 HK HJ Hrange Hv.
  destruct x as [sx | sx | | sx mx ex]; try contradiction;
    destruct y as [sy | sy | | sy my ey]; try contradiction.
  - destruct sx, sy; exact I.
  - cbn [SF64sub SFsub SFabs] in *. eapply SFup_weaken; [|lia|exact Hy]. lia.
  - cbn [SF64sub SFsub]. eapply SFup_weaken; [|lia|exact Hx]. lia.
  - cbn [valid_binary] in Hvx, Hvy. cbn [SFabs SFup] in Hx, Hy.
    pose proof (bounded_mantissa _ _ Hvx) as (_ & Hex & _).
    pose proof (bounded_mantissa _ _ Hvy) as (_ & Hey & _).
    unfold SF64sub, SFsub in *.
    apply normalize_mag; try assumption; [lia|].
    pose proof (aligned_sum sx sy mx my ex ey J1 J2 K false
                  ltac:(lia) ltac:(lia) Hx Hy) as Hsum.
    cbn zeta in Hsum. cbn iota in Hsum.
    assert (0 < 2 ^ (K + 1074)) by (apply Z.pow_pos_nonneg; lia). nia.
Qed.

(** *** An integer as a binary64 number *)

Lemma of_Z_value (p : positive) :
  Zpos p < 2 ^ 31 ->
  exists (m : positive) (e : Z),
    binary_normalize prec emax (Zpos p) 0 false = S754_finite false m e
    /\ -52 <= e <= 0 /\ Zpos m = Zpos p * 2 ^ (- e) /\ 2 ^ 52 <= Zpos m.
Proof.
  intros Hp. cbn [binary_normalize]. unfold binary_round.
  pose proof (Zdigits2_bounds (Zpos p) ltac:(lia)) as [Hlo Hhi].
  pose proof (Zdigits2_pos (Zpos p) ltac:(lia)) as Hd0.
  assert (Hd : Zdigits2 (Zpos p) <= 31).
  { destruct (Z_lt_le_dec 31 (Zdigits2 (Zpos p))) as [Hgt|]; [|assumption].
    assert (2 ^ 31 <= 2 ^ (Zdigits2 (Zpos p) - 1)) by (apply Z.pow_le_mono_r; lia). lia. }
  change (Zpos (digits2_pos p)) with (Zdigits2 (Zpos p)).
  set (d := Zdigits2 (Zpos p)) in *.
  assert (HE : fexp prec emax (d + 0) = d - 53) by (rewrite fexp_spec; lia).
  rewrite HE.
  pose proof (shl_align_spec p 0 (d - 53)) as [He Hm].
  destruct (shl_align p 0 (d - 53)) as [mz ez]. cbn [fst snd] in *.
  replace (Z.min 0 (d - 53)) with (d - 53) in * by lia. subst ez.
  replace (0 - (d - 53)) with (53 - d) in Hm by lia.
  assert (Hdz : Zdigits2 (Zpos mz) = 53).
  { rewrite Hm, Zdigits2_shift by lia. fold d. lia. }
  pose proof (Zdigits2_bounds (Zpos mz) ltac:(lia)) as [Hzlo Hzhi].
  rewrite Hdz in Hzlo, Hzhi. change (53 - 1) with 52 in Hzlo.
  assert (Hn : d - 53 <= fexp prec emax (Zdigits2 (Zpos mz) + (d - 53)))
    by (rewrite Hdz, fexp_spec; lia).
  destruct (round_aux_cases false (Zpos mz) (d - 53) loc_Exact ltac:(lia) Hn)
    as (u & Hu & Hexact & Hcases).
  assert (HEE : fexp prec emax (Zdigits2 (Zpos mz) + (d - 53)) = d - 53)
    by (rewrite Hdz, fexp_spec; lia).
  rewrite HEE in *. rewrite Z.sub_diag in *. change (2 ^ 0) with 1 in *.
  rewrite Z.div_1_r in *.
  assert (Hut : u = Zpos mz) by (apply Hexact; [reflexivity | apply Z.mod_1_r]).
  subst u.
  destruct Hcases as [[Hu0 _] | [[_ HR] | [Hu1 _]]]; [lia | | lia].
  rewrite HR. assert (Hfit : (d - 53 <=? 971) = true) by (apply Z.leb_le; lia).
  rewrite Hfit, Pos2Z.id.
  exists mz, (d - 53). split; [reflexivity|]. split; [lia|].
  split; [|assumption]. rewrite Hm. do 2 f_equal. lia.
Qed.

Lemma float_of_int_value (n : Z) :
  1 <= n < 2 ^ 31 ->
  exists (m : positive) (e : Z),
    Prim2SF (float_of_int n) = S754_finite false m e
    /\ -52 <= e <= 0 /\ Zpos m = n * 2 ^ (- e) /\ 2 ^ 52 <= Zpos m.
Proof.
  intros Hn. rewrite float_of_int_SF by lia.
  destruct n as [|p|p]; try lia. apply of_Z_value. lia.
Qed.

(** *** Products and quotients by an integer *)

Lemma SFmul_int_up (x : spec_float) (my : positive) (ey n J K : Z) :
  valid_binary x = true -> SFup x J K ->
  -52 <= ey <= 0 -> Zpos my = n * 2 ^ (- ey) -> 2 ^ 52 <= Zpos my -> 1 <= n ->
  -1022 <= K -> 0 < J -> J * n < 2 ^ 53 -> -1074 <= K + Zdigits2 (J * n) - 53 <= 971 ->
  valid_binary (SF64mul x (S754_finite false my ey)) = true ->
  SFup (SF64mul x (S754_finite false my ey)) (J * n) K.
Proof.
  intros Hvx Hx Hey Hmy Hnormal Hn HK HJ HJn Hrange Hv.
  destruct x as [sx | sx | | [|] mx ex]; try contradiction; [exact I|].
  cbn [valid_binary] in Hvx. cbn [SFup] in Hx.
  pose proof (bounded_mantissa _ _ Hvx) as (_ & Hex & _).
  unfold SF64mul, SFmul in *. cbn [xorb] in *.
  rewrite Pos2Z.inj_mul in *.
  assert (Hprod : 2 ^ 52 <= Zpos mx * Zpos my) by nia.
  assert (Hdig : 53 <= Zdigits2 (Zpos mx * Zpos my)).
  { change 53 with (Zdigits2 (2 ^ 52)). apply Zdigits2_le; [reflexivity | assumption]. }
  apply (round_up _ _ (-1200)); try assumption; try lia.
  - rewrite fexp_spec. lia.
  - right. split; [|reflexivity].
    replace (ex + ey - -1200) with ((ex + 1074) + (ey + 126)) by lia.
    replace (K - -1200) with ((K + 1074) + 126) by lia.
    rewrite (Z.pow_add_r 2 (ex + 1074) (ey + 126)), (Z.pow_add_r 2 (K + 1074) 126) by lia.
    rewrite Hmy.
    assert (Hcancel : 2 ^ (- ey) * 2 ^ (ey + 126) = 2 ^ 126).
    { rewrite <- Z.pow_add_r by lia. f_equal. lia. }
    assert (Hp : 0 < 2 ^ 126) by reflexivity.
    replace (Z.pos mx * (n * 2 ^ (- ey)) * (2 ^ (ex + 1074) * 2 ^ (ey + 126)))
      with (n * (Z.pos mx * 2 ^ (ex + 1074)) * (2 ^ (- ey) * 2 ^ (ey + 126))) by ring.
    rewrite Hcancel.
    replace (J * n * (2 ^ (K + 1074) * 2 ^ 126))
      with (n * (J * 2 ^ (K + 1074)) * 2 ^ 126) by ring.
    apply Z.mul_le_mono_nonneg_r; [lia|].
    apply Z.mul_le_mono_nonneg_l; [lia | assumption].
Qed.

Lemma div_exponent (m1 e1 m2 e2 : Z) :
  0 < m1 -> 0 < m2 ->
  let e' := Z.min (fexp prec emax (Zdigits2 m1 + e1 - (Zdigits2 m2 + e2))) (e1 - e2) in
  forall q r, m1 * 2 ^ (e1 - e2 - e') = m2 * q + r -> 0 <= r < m2 ->
  0 <= q /\ e' <= fexp prec emax (Zdigits2 q + e').
Proof.
  intros H1 H2 e' q r Heq Hr.
  set (s := e1 - e2 - e') in *.
  assert (Hs : 0 <= s) by (subst s e'; lia).
  assert (Hps : 0 < 2 ^ s) by (apply Z.pow_pos_nonneg; lia).
  assert (Hq : 0 <= q) by nia.
  split; [assumption|].
  pose proof (Zdigits2_bounds m1 H1) as [Hlo1 _].
  pose proof (Zdigits2_bounds m2 H2) as [_ Hhi2].
  pose proof (Zdigits2_pos m1 H1) as Hd1. pose proof (Zdigits2_pos m2 H2) as Hd2.
  pose proof (Zdigits2_nonneg q) as Hdq.
  set (d1 := Zdigits2 m1) in *. set (d2 := Zdigits2 m2) in *.
  assert (Hdig : d1 + s - d2 <= Zdigits2 q).
  { destruct (Z_lt_le_dec (d1 - 1 + s - d2) 0) as [Hneg | Hpos]; [lia|].
    assert (Hqlow : 2 ^ (d1 - 1 + s - d2) <= q).
    { assert (Hnum : 2 ^ (d1 - 1 + s) <= m1 * 2 ^ s).
      { rewrite Z.pow_add_r by lia. nia. }
      assert (Hsplit : 2 ^ (d1 - 1 + s) = 2 ^ (d1 - 1 + s - d2) * 2 ^ d2).
      { rewrite <- Z.pow_add_r by lia. f_equal. lia. }
      assert (Hp : 0 < 2 ^ (d1 - 1 + s - d2)) by (apply Z.pow_pos_nonneg; lia).
      destruct (Z_lt_le_dec q (2 ^ (d1 - 1 + s - d2))) as [Hlt|]; [|assumption].
      exfalso. nia. }
    assert (Hp : 0 < 2 ^ (d1 - 1 + s - d2)) by (apply Z.pow_pos_nonneg; lia).
    pose proof (Zdigits2_le (2 ^ (d1 - 1 + s - d2)) q Hp Hqlow) as Hle.
    rewrite (Zdigits2_unique (2 ^ (d1 - 1 + s - d2)) (d1 + s - d2)) in Hle; [lia | | lia].
    replace (d1 + s - d2 - 1) with (d1 - 1 + s - d2) by lia.
    split; [lia|]. replace (d1 + s - d2) with ((d1 - 1 + s - d2) + 1) by lia.
    rewrite Z.pow_add_r by lia. lia. }
  assert (Hmin : e' <= Z.max (d1 + e1 - (d2 + e2) - 53) (-1074))
    by (subst e' d1 d2; rewrite fexp_spec; lia).
  rewrite fexp_spec. subst s. lia.
Qed.

Lemma SFdiv_int_up (x : spec_float) (my : positive) (ey n J K : Z) :
  valid_binary x = true -> SFup x (J * n) K ->
  -52 <= ey <= 0 -> Zpos my = n * 2 ^ (- ey) -> 1 <= n ->
  -1022 <= K -> 0 < J < 2 ^ 53 -> -1074 <= K + Zdigits2 J - 53 <= 971 ->
  valid_binary (SF64div x (S754_finite false my ey)) = true ->
  SFup (SF64div x (S754_finite false my ey)) J K.
Proof.
  intros Hvx Hx Hey Hmy Hn HK HJ Hrange Hv.
  destruct x as [sx | sx | | [|] mx ex]; try contradiction; [exact I|].
  cbn [valid_binary] in Hvx. cbn [SFup] in Hx.
  pose proof (bounded_mantissa _ _ Hvx) as (_ & Hex & _).
  unfold SF64div, SFdiv in *. cbn [xorb] in *.
  destruct (div_core_spec (Zpos mx) ex (Zpos my) ey ltac:(lia) ltac:(lia))
    as (q & r & l & Hcore & Heq & Hr & Hexact).
  destruct (div_exponent (Zpos mx) ex (Zpos my) ey ltac:(lia) ltac:(lia) q r Heq Hr)
    as [Hq Hn'].
  rewrite Hcore in *.
  set (e' := Z.min (fexp prec emax (Zdigits2 (Zpos mx) + ex - (Zdigits2 (Zpos my) + ey)))
               (ex - ey)) in *.
  assert (He' : -1074 <= e') by (subst e'; rewrite fexp_spec; lia).
  assert (HpK : 0 < 2 ^ (K + 1074)) by (apply Z.pow_pos_nonneg; lia).
  destruct (Z.eq_dec q 0) as [-> | Hq0].
  - destruct (round_zero e' l Hn') as [-> | ->]; [exact I|].
    cbn [SFup]. change (2 ^ (-1074 + 1074)) with 1. nia.
  - apply (round_up _ _ (-1074)); try assumption; try lia.
    replace (e' - -1074) with (e' + 1074) by lia.
    replace (K - -1074) with (K + 1074) by lia.
    assert (Hpy : 0 < 2 ^ (- ey)) by (apply Z.pow_pos_nonneg; lia).
    assert (Hpe : 0 < 2 ^ (e' + 1074)) by (apply Z.pow_pos_nonneg; lia).
    assert (Hscale : Zpos mx * 2 ^ (ex - ey - e') * 2 ^ (e' + 1074)
                     = Zpos mx * 2 ^ (ex + 1074) * 2 ^ (- ey)).
    { rewrite <- !Z.mul_assoc, <- !Z.pow_add_r by (subst e'; lia). do 2 f_equal. lia. }
    assert (Hmain : n * (q * 2 ^ (e' + 1074)) * 2 ^ (- ey)
                    + r * 2 ^ (e' + 1074)
                    = Zpos mx * 2 ^ (ex + 1074) * 2 ^ (- ey)).
    { rewrite <- Hscale, Heq, Hmy. ring. }
    assert (Hbound : Zpos mx * 2 ^ (ex + 1074) * 2 ^ (- ey)
                     <= n * (J * 2 ^ (K + 1074)) * 2 ^ (- ey)).
    { apply Z.mul_le_mono_nonneg_r; [lia|]. lia. }
    destruct (Z.eq_dec r 0) as [Hr0 | Hr0].
    + right. split; [|now apply Hexact]. subst r. nia.
    + left. assert (0 < r * 2 ^ (e' + 1074)) by nia. nia.
Qed.

(** *** Bounds on binary64 numbers *)

Lemma float_up_finite (x : float) (J K : Z) :
  SFup (Prim2SF x) J K -> is_finite x = true /\ (0 <=? x)%float = true.
Proof.
  intros Hx. rewrite is_finite_SF, float_nonneg_SF.
  split; [|now apply (SFup_nonneg _ J K)].
  destruct (Prim2SF x) as [s | s | | [|] m e]; cbn in Hx; tauto.
Qed.

Lemma digits_small (J : Z) : 0 < J < 2 ^ 32 -> 1 <= Zdigits2 J <= 32.
Proof.
  intros HJ. pose proof (Zdigits2_pos J ltac:(lia)).
  pose proof (Zdigits2_le J (2 ^ 32 - 1) ltac:(lia) ltac:(lia)) as Hle.
  change (Zdigits2 (2 ^ 32 - 1)) with 32 in Hle. lia.
Qed.

Lemma float_add_up (x y : float) (J1 J2 J3 K : Z) :
  SFup (Prim2SF x) J1 K -> SFup (Prim2SF y) J2 K ->
  0 <= J1 -> 0 <= J2 -> J1 + J2 <= J3 -> 0 < J3 < 2 ^ 32 -> -1022 <= K <= 992 ->
  SFup (Prim2SF (x + y)) J3 K.
Proof.
  intros Hx Hy H1 H2 H3 HJ HK.
  pose proof (digits_small J3 HJ) as Hd.
  apply SFup_of_abs.
  - rewrite add_spec. apply SFadd_nonneg; eapply SFup_nonneg; eassumption.
  - rewrite add_spec.
    apply (SFadd_mag _ _ J1 J2); try apply Prim2SF_valid; try (now apply SFup_abs);
      try lia.
    rewrite <- add_spec. apply Prim2SF_valid.
Qed.

Lemma float_sub_mag (x y : float) (J1 J2 J3 K : Z) :
  SFup (SFabs (Prim2SF x)) J1 K -> SFup (SFabs (Prim2SF y)) J2 K ->
  0 <= J1 -> 0 <= J2 -> J1 + J2 <= J3 -> 0 < J3 < 2 ^ 32 -> -1022 <= K <= 992 ->
  SFup (SFabs (Prim2SF (x - y))) J3 K.
Proof.
  intros Hx Hy H1 H2 H3 HJ HK.
  pose proof (digits_small J3 HJ) as Hd.
  rewrite sub_spec.
  apply (SFsub_mag _ _ J1 J2); try apply Prim2SF_valid; try assumption; try lia.
  rewrite <- sub_spec. apply Prim2SF_valid.
Qed.

Lemma float_mul_int_up (x : float) (n J K : Z) :
  SFup (Prim2SF x) J K -> 0 <= n < 2 ^ 31 -> 0 < J -> J * n < 2 ^ 32 ->
  -1022 <= K <= 992 ->
  SFup (Prim2SF (x * float_of_int n)) (J * n) K.
Proof.
  intros Hx Hn HJ HJn HK. rewrite mul_spec.
  destruct (Z.eq_dec n 0) as [-> | Hn0].
  - change (Prim2SF (float_of_int 0)) with (S754_zero false).
    destruct (Prim2SF x) as [s | s | | [|] m e]; cbn in Hx |- *; tauto.
  - destruct (float_of_int_value n ltac:(lia)) as (my & ey & Hsf & Hey & Hmy & Hnormal).
    pose proof (digits_small (J * n) ltac:(nia)) as Hd.
    rewrite Hsf.
    apply SFmul_int_up; try apply Prim2SF_valid; try assumption; try lia.
    rewrite <- Hsf, <- mul_spec. apply Prim2SF_valid.
Qed.

Lemma float_div_int_up (x : float) (n J K : Z) :
  SFup (Prim2SF x) (J * n) K -> 1 <= n < 2 ^ 31 -> 0 < J < 2 ^ 32 ->
  -1022 <= K <= 992 ->
  SFup (Prim2SF (x / float_of_int n)) J K.
Proof.
  intros Hx Hn HJ HK. rewrite div_spec.
  destruct (float_of_int_value n ltac:(lia)) as (my & ey & Hsf & Hey & Hmy & Hnormal).
  pose proof (digits_small J HJ) as Hd.
  rewrite Hsf.
  apply (SFdiv_int_up _ my ey n); try apply Prim2SF_valid; try assumption; try lia.
  rewrite <- Hsf, <- div_spec. apply Prim2SF_valid.
Qed.

(* the part of a change that counts as a gain, and the part that counts as a loss *)
Lemma float_gain_up (c : float) (J K : Z) :
  SFup (SFabs (Prim2SF c)) J K -> (0 <? c)%float = true -> SFup (Prim2SF c) J K.
Proof.
  intros Hc Hpos. apply SFup_of_abs; [|exact Hc].
  apply float_pos_SF in Hpos. apply sf_pos_cases in Hpos. apply sf_nonneg_cases.
  destruct (Prim2SF c) as [s | [|] | | [|] m e]; tauto.
Qed.

Lemma float_loss_up (c : float) (J K : Z) :
  SFup (SFabs (Prim2SF c)) J K -> (0 <? c)%float = false -> SFup (Prim2SF (- c)) J K.
Proof.
  intros Hc Hpos. rewrite ltb_spec, Prim2SF_zero in Hpos. rewrite opp_spec.
  destruct (Prim2SF c) as [s | [|] | | [|] m e]; cbn in Hc, Hpos |- *;
    try tauto; discriminate.
Qed.

Lemma float_fall_up (c : float) (J K : Z) :
  SFup (SFabs (Prim2SF c)) J K -> (c <? 0)%float = true -> SFup (Prim2SF (- c)) J K.
Proof.
  intros Hc Hneg. rewrite ltb_spec, Prim2SF_zero in Hneg. rewrite opp_spec.
  destruct (Prim2SF c) as [s | [|] | | [|] m e]; cbn in Hc, Hneg |- *;
    try tauto; discriminate.
Qed.

(* a magnitude of at most 2^990, stated on the numbers themselves *)
Lemma float_abs_up (x : float) :
  (abs x <=? 0x1p990)%float = true -> SFup (SFabs (Prim2SF x)) 1 990.
Proof.
  intros Hle. rewrite leb_spec, abs_spec in Hle.
  assert (Hbound : Prim2SF 0x1p990 = S754_finite false 4503599627370496 938)
    by (vm_compute; reflexivity).
  rewrite Hbound in Hle.
  apply (SFleb_up _ 4503599627370496 938).
  - rewrite <- abs_spec. apply Prim2SF_valid.
  - apply sf_nonneg_cases.
    destruct (Prim2SF x) as [s | s | | s m e]; try exact I; discriminate.
  - exact Hle.
  - vm_compute. reflexivity.
  - lia.
  - vm_compute. reflexivity.
Qed.

(** ** C6: the range of the RSI *)

Lemma vget_replicate {A} (d x : A) (n : nat) (i : Z) :
  0 <= i < Z.of_nat n -> vget d (replicate n x) i = x.
Proof.
  intros Hi. rewrite vget_nth by (unfold vsize; rewrite length_replicate; lia).
  apply nth_lookup_Some. apply lookup_replicate_2. lia.
Qed.

Lemma RSI_length {D : Type} `{Num D} (prices : list D) (period : Z) :
  length (RSI prices period) = length prices.
Proof.
  rewrite RSI_unfold. destruct (_ <? _).
  - apply length_replicate.
  - unfold for_range. rewrite RSI_loop_length, length_vset. apply length_replicate.
Qed.

Lemma RSI_warm_up {D : Type} `{Num D} (prices : list D) (period : Z) (i : Z) :
  0 <= period < 2 ^ 63 -> 0 <= i < period -> i < vsize prices ->
  vget (of_int 0) (RSI prices period) i = of_int 50.
Proof.
  intros Hperiod Hi Hsize. rewrite RSI_unfold.
  rewrite !to_size_t_small by lia.
  destruct (_ <? _).
  - apply vget_replicate. unfold vsize in Hsize. lia.
  - unfold for_range. rewrite RSI_loop_untouched by lia.
    rewrite vget_vset_ne by lia.
    apply vget_replicate. unfold vsize in Hsize. lia.
Qed.

(** ** The two averages of [RSI] on binary64 *)

Section RSI_binary64.
Variable prices : list float.
Variable period : Z.
Hypothesis period_pos : 1 <= period.
Hypothesis period_int : period < 2 ^ 31.

Lemma rsi_sums_nonneg :
  let sums :=
    for_range 1 (period + 1)
      (fun i '(avgGain, avgLoss) =>
         let change := (vget 0 prices i - vget 0 prices (to_size_t (i - 1)))%float in
         if (0 <? change)%float then ((avgGain + change)%float, avgLoss)
         else (avgGain, (avgLoss + - change)%float))
      (0%float, 0%float) in
  (is_finite (fst sums) = true -> (0 <=? fst sums)%float = true)
  /\ (is_finite (snd sums) = true -> (0 <=? snd sums)%float = true).
Proof.
  cbv zeta.
  apply (for_range_inv
           (fun st : float * float =>
              (is_finite (fst st) = true -> (0 <=? fst st)%float = true)
              /\ (is_finite (snd st) = true -> (0 <=? snd st)%float = true))).
  - intros i [g l] [Hg Hl]. cbn [fst snd] in *.
    set (change := (vget 0 prices i - vget 0 prices (to_size_t (i - 1)))%float).
    destruct (0 <? change)%float eqn:Hpos; cbn [fst snd]; split; auto.
    + intros Hf. apply float_add_finite in Hf as [Hfg _].
      apply float_add_nonneg; [auto | now apply float_pos_nonneg].
    + intros Hf. apply float_add_finite in Hf as [Hfl Hfc].
      apply float_add_nonneg; [auto|].
      apply float_opp_nonneg; [now apply float_opp_finite | assumption].
  - cbn [fst snd]. split; reflexivity.
Qed.

Lemma rsi_init_nonneg :
  (is_finite (fst (rsi_init prices period)) = true ->
   (0 <=? fst (rsi_init prices period))%float = true)
  /\ (is_finite (snd (rsi_init prices period)) = true ->
      (0 <=? snd (rsi_init prices period))%float = true).
Proof.
  pose proof rsi_sums_nonneg as Hsums. cbv zeta in Hsums.
  unfold rsi_init. cbn [of_int add sub neg ltb div binary64].
  change (float_of_int 0) with 0%float.
  destruct (for_range 1 (period + 1) _ (0%float, 0%float)) as [g l].
  cbn [fst snd] in *. destruct Hsums as [Hg Hl].
  destruct (float_of_int_positive period ltac:(lia)) as [_ Hp].
  split; intros Hf; (apply float_div_nonneg; [|assumption|assumption]);
    apply float_div_finite in Hf; auto.
Qed.

Lemma rsi_smooth_nonneg (i : Z) (avg : float * float) :
  (is_finite (fst avg) = true -> (0 <=? fst avg)%float = true) ->
  (is_finite (snd avg) = true -> (0 <=? snd avg)%float = true) ->
  (is_finite (fst (rsi_smooth prices period i avg)) = true ->
   (0 <=? fst (rsi_smooth prices period i avg))%float = true)
  /\ (is_finite (snd (rsi_smooth prices period i avg)) = true ->
      (0 <=? snd (rsi_smooth prices period i avg))%float = true).
Proof.
  destruct avg as [g l]. cbn [fst snd]. intros Hg Hl.
  unfold rsi_smooth. cbn [of_int add sub mul neg ltb div binary64 fst snd].
  change (float_of_int 0) with 0%float.
  set (change := (vget 0 prices i - vget 0 prices (to_size_t (i - 1)))%float).
  destruct (float_of_int_positive period ltac:(lia)) as [_ Hp].
  destruct (float_of_int_nonneg (period - 1) ltac:(lia)) as [_ Hc].
  split; intros Hf.
  - apply float_div_nonneg; [|assumption|assumption].
    apply float_div_finite in Hf. pose proof Hf as Hsum.
    apply float_add_finite in Hf as [Hprod _]. pose proof Hprod as Hprod'.
    apply float_mul_finite in Hprod as [Hfg _].
    apply float_add_nonneg; [apply float_mul_nonneg; auto|].
    destruct (0 <? change)%float eqn:Hpos; [now apply float_pos_nonneg | reflexivity].
  - apply float_div_nonneg; [|assumption|assumption].
    apply float_div_finite in Hf. pose proof Hf as Hsum.
    apply float_add_finite in Hf as [Hprod _]. pose proof Hprod as Hprod'.
    apply float_mul_finite in Hprod as [Hfl _].
    apply float_add_nonneg; [apply float_mul_nonneg; auto|].
    destruct (change <? 0)%float eqn:Hneg; [now apply float_neg_opp_nonneg | reflexivity].
Qed.

Lemma rsi_avg_nonneg (k : nat) :
  (is_finite (fst (rsi_avg prices period k)) = true ->
   (0 <=? fst (rsi_avg prices period k))%float = true)
  /\ (is_finite (snd (rsi_avg prices period k)) = true ->
      (0 <=? snd (rsi_avg prices period k))%float = true).
Proof.
  unfold rsi_avg.
  apply (for_loop_inv
           (fun st : float * float =>
              (is_finite (fst st) = true -> (0 <=? fst st)%float = true)
              /\ (is_finite (snd st) = true -> (0 <=? snd st)%float = true))).
  - intros i avg [Hg Hl]. now apply rsi_smooth_nonneg.
  - apply rsi_init_nonneg.
Qed.
End RSI_binary64.

(** ** The two averages of [RSI] over prices of bounded magnitude *)

Section RSI_bounded.
Variable prices : list float.
Variable period : Z.
Hypothesis period_pos : 1 <= period.
Hypothesis period_int : period + 1 < 2 ^ 31.
Hypothesis prices_bounded :
  Forall (fun x => (abs x <=? 0x1p990)%float = true) prices.

Lemma price_up (i : Z) : SFup (SFabs (Prim2SF (vget 0%float prices i))) 1 990.
Proof.
  unfold vget. destruct (in_bounds prices i) eqn:Hin; [|exact I].
  apply in_bounds_true in Hin. apply float_abs_up.
  apply (proj1 (List.Forall_forall _ _) prices_bounded).
  apply nth_In. unfold vsize in Hin. lia.
Qed.

Lemma change_up (i j : Z) :
  SFup (SFabs (Prim2SF (vget 0 prices i - vget 0 prices j)%float)) 2 990.
Proof.
  apply (float_sub_mag _ _ 1 1); try apply price_up; lia.
Qed.

Lemma rsi_sums_up (n : nat) :
  Z.of_nat n <= period ->
  let sums :=
    for_loop n 1
      (fun i '(avgGain, avgLoss) =>
         let change := (vget 0 prices i - vget 0 prices (to_size_t (i - 1)))%float in
         if (0 <? change)%float then ((avgGain + change)%float, avgLoss)
         else (avgGain, (avgLoss + - change)%float))
      (0%float, 0%float) in
  SFup (Prim2SF (fst sums)) (2 * Z.of_nat n) 990
  /\ SFup (Prim2SF (snd sums)) (2 * Z.of_nat n) 990.
Proof.
  induction n as [|n IH]; intros Hn; cbv zeta.
  - split; exact I.
  - rewrite for_loop_snoc. specialize (IH ltac:(lia)). cbv zeta in IH.
    destruct (for_loop n 1 _ (0%float, 0%float)) as [g l]. cbn [fst snd] in *.
    destruct IH as [Hg Hl].
    pose proof (change_up (1 + Z.of_nat n) (to_size_t (1 + Z.of_nat n - 1))) as Hc.
    set (change := (vget 0 prices (1 + Z.of_nat n)
                    - vget 0 prices (to_size_t (1 + Z.of_nat n - 1)))%float) in *.
    destruct (0 <? change)%float eqn:Hpos; cbn [fst snd]; split.
    + apply (float_add_up _ _ (2 * Z.of_nat n) 2); try assumption; try lia.
      now apply float_gain_up.
    + eapply SFup_weaken; [|lia|exact Hl]. lia.
    + eapply SFup_weaken; [|lia|exact Hg]. lia.
    + apply (float_add_up _ _ (2 * Z.of_nat n) 2); try assumption; try lia.
      now apply float_loss_up.
Qed.

Lemma rsi_init_up :
  SFup (Prim2SF (fst (rsi_init prices period))) 2 990
  /\ SFup (Prim2SF (snd (rsi_init prices period))) 2 990.
Proof.
  pose proof (rsi_sums_up (Z.to_nat period) ltac:(lia)) as Hsums. cbv zeta in Hsums.
  unfold rsi_init, for_range. cbn [of_int add sub neg ltb div binary64].
  change (float_of_int 0) with 0%float.
  replace (Z.to_nat (period + 1 - 1)) with (Z.to_nat period) by lia.
  destruct (for_loop (Z.to_nat period) 1 _ (0%float, 0%float)) as [g l].
  cbn [fst snd] in *. rewrite Z2Nat.id in Hsums by lia. destruct Hsums as [Hg Hl].
  split; apply float_div_int_up; try assumption; lia.
Qed.

Lemma rsi_smooth_up (i : Z) (avg : float * float) :
  SFup (Prim2SF (fst avg)) 2 990 -> SFup (Prim2SF (snd avg)) 2 990 ->
  SFup (Prim2SF (fst (rsi_smooth prices period i avg))) 2 990
  /\ SFup (Prim2SF (snd (rsi_smooth prices period i avg))) 2 990.
Proof.
  destruct avg as [g l]. cbn [fst snd]. intros Hg Hl.
  unfold rsi_smooth. cbn [of_int add sub mul neg ltb div binary64 fst snd].
  change (float_of_int 0) with 0%float.
  pose proof (change_up i (to_size_t (i - 1))) as Hc.
  set (change := (vget 0 prices i - vget 0 prices (to_size_t (i - 1)))%float) in *.
  split; apply float_div_int_up; try lia.
  - apply (float_add_up _ _ (2 * (period - 1)) 2); try lia.
    + apply float_mul_int_up; try assumption; lia.
    + destruct (0 <? change)%float eqn:Hpos; [now apply float_gain_up | exact I].
  - apply (float_add_up _ _ (2 * (period - 1)) 2); try lia.
    + apply float_mul_int_up; try assumption; lia.
    + destruct (change <? 0)%float eqn:Hneg; [now apply float_fall_up | exact I].
Qed.

Lemma rsi_avg_up (k : nat) :
  SFup (Prim2SF (fst (rsi_avg prices period k))) 2 990
  /\ SFup (Prim2SF (snd (rsi_avg prices period k))) 2 990.
Proof.
  unfold rsi_avg.
  apply (for_loop_inv
           (fun st : float * float =>
              SFup (Prim2SF (fst st)) 2 990 /\ SFup (Prim2SF (snd st)) 2 990)).
  - intros i avg [Hg Hl]. now apply rsi_smooth_up.
  - apply rsi_init_up.
Qed.

Lemma rsi_avg_finite (k : nat) :
  is_finite (fst (rsi_avg prices period k)) = true
  /\ is_finite (snd (rsi_avg prices period k)) = true.
Proof.
  destruct (rsi_avg_up k) as [Hg Hl].
  split; eapply float_up_finite; eassumption.
Qed.
End RSI_bounded.

(** C6 (amended). On binary64, for every price series and every period of at
    least 1 (with [period + 1] an [int]), [RSI] returns one element for each
    price; the warm-up positions, those below [period], hold exactly 50; and
    every later element at which the two smoothed averages are finite, that
    is, where no sum has overflowed and no NaN has come in, lies in the
    closed interval [0, 100].  This is so at every position when all the
    prices have a magnitude of at most 2^990: then every element of the
    series lies in [0, 100]. *)
Theorem RSI_range (prices : list float) (period : Z) :
  1 <= period -> period + 1 < 2 ^ 31 -> vsize prices < 2 ^ 64 ->
  length (RSI prices period) = length prices
  /\ (forall i, 0 <= i < period -> i < vsize prices ->
        vget 0%float (RSI prices period) i = 50%float)
  /\ (forall k : nat, period + Z.of_nat k < vsize prices ->
        is_finite (fst (rsi_avg prices period k)) = true ->
        is_finite (snd (rsi_avg prices period k)) = true ->
        (0 <=? vget 0%float (RSI prices period) (period + Z.of_nat k))%float = true
        /\ (vget 0%float (RSI prices period) (period + Z.of_nat k) <=? 100)%float = true)
  /\ (Forall (fun x => (abs x <=? 0x1p990)%float = true) prices ->
      forall i, 0 <= i < vsize prices ->
        (0 <=? vget 0%float (RSI prices period) i)%float = true
        /\ (vget 0%float (RSI prices period) i <=? 100)%float = true).
Proof.
  intros Hperiod Hint Hsize.
  assert (Hwarm : forall i, 0 <= i < period -> i < vsize prices ->
                    vget 0%float (RSI prices period) i = 50%float).
  { intros i Hi Hlt. exact (RSI_warm_up prices period i ltac:(lia) Hi Hlt). }
  assert (Hrange : forall k : nat, period + Z.of_nat k < vsize prices ->
            is_finite (fst (rsi_avg prices period k)) = true ->
            is_finite (snd (rsi_avg prices period k)) = true ->
            (0 <=? vget 0%float (RSI prices period) (period + Z.of_nat k))%float = true
            /\ (vget 0%float (RSI prices period) (period + Z.of_nat k) <=? 100)%float
               = true).
  { intros k Hk HfG HfL.
    pose proof (RSI_at prices period k ltac:(lia) Hsize Hk) as Hat.
    change (of_int 0) with 0%float in Hat. rewrite Hat.
    destruct (rsi_avg_nonneg prices period Hperiod ltac:(lia) k) as [HnG HnL].
    apply rsi_value_range; auto. }
  split; [apply RSI_length|]. split; [exact Hwarm|]. split; [exact Hrange|].
  intros Hbounded i Hi.
  destruct (Z_lt_le_dec i period) as [Hlow | Hhigh].
  - rewrite Hwarm by lia. split; reflexivity.
  - set (k := Z.to_nat (i - period)).
    destruct (rsi_avg_finite prices period Hperiod Hint Hbounded k) as [HfG HfL].
    replace i with (period + Z.of_nat k) by (subst k; lia).
    apply Hrange; [subst k; lia | exact HfG | exact HfL].
Qed.

Lemma RSI_range_witness :
  let prices := [44; 47; 45; 45; 50; 48; 53]%float in
  vget 0%float (RSI prices 3) 2 = 50%float
  /\ (0 <=? vget 0%float (RSI prices 3) 5)%float = true
  /\ (vget 0%float (RSI prices 3) 5 <=? 100)%float = true
  /\ (0 <=? vget 0%float (RSI prices 3) 6)%float = true
  /\ (vget 0%float (RSI prices 3) 6 <=? 100)%float = true.
Proof.
  intros prices.
  destruct (RSI_range prices 3 ltac:(lia) ltac:(lia) ltac:(vm_compute; reflexivity))
    as (_ & Hwarm & Hrange & Hall).
  split; [apply Hwarm; [lia | vm_compute; reflexivity]|].
  split; [apply (Hrange 2%nat); vm_compute; reflexivity|].
  split; [apply (Hrange 2%nat); vm_compute; reflexivity|].
  apply (Hall ltac:(repeat constructor) 6). split; [lia | vm_compute; reflexivity].
Defined.

(** C6 as stated fails on binary64.  For fifteen finite closes swinging
    between 0 and 2^1023 the sums of gains and of losses both overflow to
    infinity, RS is infinity/infinity, and the element at position 14 is NaN;
    and with period 0 the averages are 0/0, so every element is NaN.  NaN is
    not in [0, 100]. *)
Lemma RSI_range_counterexample :
  forallb is_finite Scenario.swinging = true
  /\ vget 0%float (RSI Scenario.swinging 14) 14 = nan
  /\ (0 <=? vget 0%float (RSI Scenario.swinging 14) 14)%float = false
  /\ (vget 0%float (RSI Scenario.swinging 14) 14 <=? 100)%float = false
  /\ RSI [1; 2; 3]%float 0 = [nan; nan; nan].
Proof. vm_compute. repeat split. Qed.

(** ** C8: the equity the drawdown replay uses while flat *)

Lemma exitPosition_net data p i bt :
  open_trade_tracked bt -> inPosition bt = true ->
  cash_is_net_proceeds p (exitPosition data p i bt).
Proof.
  intros Htracked Hin _ _. destruct (Htracked Hin) as [Hne Hshares].
  unfold exitPosition. cbn [trades currentCash].
  rewrite back_with_back by assumption.
  unfold net_proceeds, gross_proceeds. cbn [shares exitPrice].
  now rewrite Hshares.
Qed.

Lemma run_step_net data p s i bt :
  open_trade_tracked bt -> cash_is_net_proceeds p bt ->
  cash_is_net_proceeds p (run_step data p s i bt).
Proof.
  intros Htracked Hnet.
  destruct (run_step_cases data p s i bt) as [-> | [[_ ->] | [Hin ->]]].
  - assumption.
  - intros Hflat. discriminate.
  - now apply exitPosition_net.
Qed.

Lemma run_prefix_net data p n :
  cash_is_net_proceeds p (run_prefix data p n (Backtester_new p)).
Proof.
  enough (Hboth : open_trade_tracked (run_prefix data p n (Backtester_new p))
                  /\ cash_is_net_proceeds p (run_prefix data p n (Backtester_new p)))
    by exact (proj2 Hboth).
  unfold run_prefix.
  apply (for_loop_inv (fun bt => open_trade_tracked bt /\ cash_is_net_proceeds p bt)).
  - intros i bt [Htracked Hnet].
    split; [now apply run_step_tracked | now apply run_step_net].
  - split; [apply Backtester_new_tracked|]. intros _ Hne. now contradiction Hne.
Qed.

Lemma for_loop_app {S : Type} (body : Z -> S -> S) n m i s :
  for_loop (n + m) i body s = for_loop m (i + Z.of_nat n) body (for_loop n i body s).
Proof.
  revert i s. induction n as [|n IH]; intros i s.
  - cbn. now rewrite Z.add_0_r.
  - cbn [Nat.add for_loop]. rewrite IH. f_equal. lia.
Qed.

Lemma vget_middle {A} (d : A) (l1 l2 : list A) (x : A) :
  vget d (l1 ++ x :: l2) (vsize l1) = x.
Proof.
  rewrite vget_nth.
  - unfold vsize. rewrite Nat2Z.id. rewrite List.app_nth2 by lia.
    now rewrite Nat.sub_diag.
  - unfold vsize. rewrite length_app. cbn [length]. lia.
Qed.

Lemma vsize_app {A} (l1 l2 : list A) : vsize (l1 ++ l2) = vsize l1 + vsize l2.
Proof. unfold vsize. rewrite length_app. lia. Qed.

Lemma vsize_snoc {A} (l : list A) (x : A) : vsize (l ++ [x]) = vsize l + 1.
Proof. rewrite vsize_app. reflexivity. Qed.

Lemma vsize_removelast (ts : list Trade) :
  ts <> [] -> vsize (removelast ts) = vsize ts - 1.
Proof.
  intros Hne. destruct (exists_last Hne) as (l & t & ->).
  rewrite removelast_last, vsize_app. unfold vsize. cbn. lia.
Qed.

Lemma entered_from_weaken data i j t :
  i <= j -> entered_from data j t -> entered_from data i t.
Proof. intros Hij (x & Hx & Hdate). exists x. split; [lia | exact Hdate]. Qed.

Lemma exited_from_weaken data i j t :
  i <= j -> exited_from data j t -> exited_from data i t.
Proof.
  intros Hij (x & Hx & Hdate). exists x. split; [|exact Hdate].
  destruct Hx as [Hx | Hx]; [left; lia | now right].
Qed.

Section RunRest.
Variable data : list OHLCV.
Variable p : Params.

Lemma run_rest_step m i bt :
  run_rest data p (Datatypes.S m) i bt
  = run_rest data p m (i + 1) (run_step data p (run_series data p) i bt).
Proof. reflexivity. Qed.

(** What the rest of the run makes of the log. *)
Lemma run_rest_log m :
  forall i bt,
  open_trade_tracked bt -> i + Z.of_nat m = vsize data ->
  (inPosition bt = false ->
   exists news, trades (run_rest data p m i bt) = trades bt ++ news
                /\ Forall (entered_from data i) news)
  /\ (inPosition bt = true ->
      exists t news,
        trades (run_rest data p m i bt) = removelast (trades bt) ++ t :: news
        /\ entryDate t = entryDate (back (trades bt))
        /\ shares t = shares (back (trades bt))
        /\ exited_from data i t
        /\ Forall (entered_from data i) news).
Proof.
  induction m as [|m IH]; intros i bt Htracked Hend.
  - unfold run_rest. cbn [for_loop]. split; intros Hpos; rewrite Hpos.
    + exists []. split; [now rewrite app_nil_r | constructor].
    + destruct (Htracked Hpos) as [Hne _].
      eexists. exists []. cbn [trades exitPosition].
      split; [now apply with_back_removelast|]. cbn [entryDate shares exitDate].
      repeat split; [|constructor].
      eexists. split; [right; reflexivity | reflexivity].
  - rewrite run_rest_step.
    pose proof (run_step_tracked data p (run_series data p) i bt Htracked) as Htracked'.
    destruct (IH (i + 1) _ Htracked' ltac:(lia)) as [IHflat IHpos].
    destruct (run_step_cases data p (run_series data p) i bt)
      as [Hsame | [[Hflat Henter] | [Hlong Hexit]]].
    + rewrite Hsame in *. split; intros Hpos.
      * destruct (IHflat Hpos) as (news & Hlog & Hnews). exists news.
        split; [exact Hlog|].
        eapply Forall_impl; [exact Hnews|]. intros t. apply entered_from_weaken. lia.
      * destruct (IHpos Hpos) as (t & news & Hlog & Hentry & Hshares & Hexit & Hnews).
        exists t, news. repeat split; try assumption.
        -- eapply exited_from_weaken; [|exact Hexit]. lia.
        -- eapply Forall_impl; [exact Hnews|]. intros u. apply entered_from_weaken. lia.
    + split; intros Hpos; [|congruence].
      rewrite Henter in *.
      destruct (IHpos eq_refl) as (t & news & Hlog & Hentry & Hshares & Hexit & Hnews).
      cbn [trades enterPosition] in Hlog, Hentry.
      rewrite removelast_last in Hlog. rewrite back_snoc in Hentry. cbn [entryDate] in Hentry.
      exists (t :: news). split; [exact Hlog|]. constructor.
      * exists i. split; [lia | exact Hentry].
      * eapply Forall_impl; [exact Hnews|]. intros u. apply entered_from_weaken. lia.
    + split; intros Hpos; [congruence|].
      rewrite Hexit in *. destruct (Htracked Hpos) as [Hne _].
      destruct (IHflat eq_refl) as (news & Hlog & Hnews).
      cbn [trades exitPosition] in Hlog.
      rewrite with_back_removelast in Hlog by assumption.
      rewrite <- app_assoc in Hlog. cbn [app] in Hlog.
      eexists. exists news. split; [exact Hlog|]. cbn [entryDate shares exitDate].
      repeat split.
      * exists i. split; [left; lia | reflexivity].
      * eapply Forall_impl; [exact Hnews|]. intros u. apply entered_from_weaken. lia.
Qed.
End RunRest.

(** The replay, one bar at a time. *)
Section ReplayMatch.
Variable data : list OHLCV.
Variable ts : list Trade.
Variable i : Z.
Variable r : Replay.
Hypothesis more : tradeIdx r < vsize ts.

Lemma replay_match_idle :
  holding r = false ->
  date (vget no_bar data i) <> entryDate (vget no_trade ts (tradeIdx r)) ->
  replay_match data ts i r = r.
Proof.
  intros Hflat Hdate. unfold replay_match.
  apply Z.ltb_lt in more as ->. rewrite Hflat. cbn [negb andb].
  apply String.eqb_neq in Hdate as ->. now rewrite Hflat.
Qed.

Lemma replay_match_enter :
  holding r = false ->
  date (vget no_bar data i) = entryDate (vget no_trade ts (tradeIdx r)) ->
  date (vget no_bar data i) <> exitDate (vget no_trade ts (tradeIdx r)) ->
  holding (replay_match data ts i r) = true
  /\ tradeIdx (replay_match data ts i r) = tradeIdx r
  /\ rp_shares (replay_match data ts i r) = shares (vget no_trade ts (tradeIdx r)).
Proof.
  intros Hflat Hentry Hexit. unfold replay_match.
  apply Z.ltb_lt in more as ->. rewrite Hflat. cbn [negb andb].
  apply String.eqb_eq in Hentry as ->. cbn [holding tradeIdx rp_shares].
  apply String.eqb_neq in Hexit as ->. cbn [holding tradeIdx rp_shares]. auto.
Qed.

Lemma replay_match_round_trip :
  holding r = false ->
  date (vget no_bar data i) = entryDate (vget no_trade ts (tradeIdx r)) ->
  date (vget no_bar data i) = exitDate (vget no_trade ts (tradeIdx r)) ->
  holding (replay_match data ts i r) = false
  /\ tradeIdx (replay_match data ts i r) = tradeIdx r + 1
  /\ equity (replay_match data ts i r)
     = gross_proceeds (vget no_trade ts (tradeIdx r)).
Proof.
  intros Hflat Hentry Hexit. unfold replay_match.
  apply Z.ltb_lt in more as ->. rewrite Hflat. cbn [negb andb].
  apply String.eqb_eq in Hentry as ->. cbn [holding tradeIdx rp_shares].
  apply String.eqb_eq in Hexit as ->. cbn [holding tradeIdx equity]. auto.
Qed.

Lemma replay_match_hold :
  holding r = true ->
  date (vget no_bar data i) <> exitDate (vget no_trade ts (tradeIdx r)) ->
  holding (replay_match data ts i r) = true
  /\ tradeIdx (replay_match data ts i r) = tradeIdx r
  /\ rp_shares (replay_match data ts i r) = rp_shares r.
Proof.
  intros Hhold Hexit. unfold replay_match.
  apply Z.ltb_lt in more as ->. rewrite Hhold. cbn [negb andb]. rewrite Hhold.
  apply String.eqb_neq in Hexit as ->. cbn [holding tradeIdx rp_shares]. auto.
Qed.

Lemma replay_match_exit :
  holding r = true ->
  date (vget no_bar data i) = exitDate (vget no_trade ts (tradeIdx r)) ->
  holding (replay_match data ts i r) = false
  /\ tradeIdx (replay_match data ts i r) = tradeIdx r + 1
  /\ equity (replay_match data ts i r)
     = (rp_shares r * exitPrice (vget no_trade ts (tradeIdx r)))%float.
Proof.
  intros Hhold Hexit. unfold replay_match.
  apply Z.ltb_lt in more as ->. rewrite Hhold. cbn [negb andb]. rewrite Hhold.
  apply String.eqb_eq in Hexit as ->. cbn [holding tradeIdx equity]. auto.
Qed.
End ReplayMatch.

Lemma replay_match_done data ts i r :
  vsize ts <= tradeIdx r -> replay_match data ts i r = r.
Proof.
  intros Hdone. unfold replay_match.
  destruct (Z.ltb_spec (tradeIdx r) (vsize ts)); [lia | reflexivity].
Qed.

Section Replay.
Variable data : list OHLCV.
Variable p : Params.
Hypothesis dates_distinct : NoDup (map date data).
Hypothesis size_fits : vsize data < 2 ^ 64.
Hypothesis long_int : in_int (longPeriod p).

Local Abbreviation start := (to_size_t (longPeriod p)).
Local Abbreviation bars := (Z.to_nat (vsize data - to_size_t (longPeriod p))).
Local Abbreviation final := (run_rest data p bars (to_size_t (longPeriod p)) (Backtester_new p)).

Lemma date_inj i j :
  0 <= i < vsize data -> 0 <= j < vsize data ->
  date (vget no_bar data i) = date (vget no_bar data j) -> i = j.
Proof.
  intros Hi Hj. rewrite !vget_nth by assumption.
  change (date (nth (Z.to_nat i) data no_bar))
    with ((fun b => date b) (nth (Z.to_nat i) data no_bar)).
  change (date (nth (Z.to_nat j) data no_bar))
    with ((fun b => date b) (nth (Z.to_nat j) data no_bar)).
  rewrite <- !(List.map_nth (fun b => date b)). intros Hsame.
  assert (Hnat : Z.to_nat i = Z.to_nat j).
  { eapply (proj1 (List.NoDup_nth (map date data) _));
      [now apply NoDup_ListNoDup| | |exact Hsame];
      rewrite length_map; unfold vsize in *; lia. }
  lia.
Qed.

Lemma run_rest_prefix (n : nat) :
  (n <= bars)%nat ->
  run_rest data p (bars - n) (start + Z.of_nat n) (run_prefix data p n (Backtester_new p))
  = final.
Proof.
  intros Hn. unfold run_rest, run_prefix. rewrite <- for_loop_app.
  now replace (n + (bars - n))%nat with bars by lia.
Qed.

Lemma run_final_rest : run data p (Backtester_new p) = final.
Proof.
  rewrite run_unfold, run_pass_prefix. unfold run_rest, run_prefix.
  pose proof (to_size_t_range (longPeriod p)) as Hstart. unfold in_int in long_int.
  destruct (Z.ltb_spec (vsize data) (to_size_t (longPeriod p + 1))) as [Hshort | Hlong];
    [|reflexivity].
  assert (Hnone : bars = 0%nat).
  { unfold to_size_t in *.
    destruct (Z_lt_le_dec (longPeriod p) 0) as [Hneg | Hpos].
    - destruct (Z.eq_dec (longPeriod p) (-1)) as [Hm | Hm].
      + rewrite Hm in Hshort. change ((-1 + 1) mod 2 ^ 64) with 0 in Hshort.
        unfold vsize in Hshort. lia.
      + replace (longPeriod p mod 2 ^ 64) with (longPeriod p + 2 ^ 64)
          by (apply Z.mod_unique with (-1); lia).
        replace ((longPeriod p + 1) mod 2 ^ 64) with (longPeriod p + 1 + 2 ^ 64) in Hshort
          by (apply Z.mod_unique with (-1); lia).
        lia.
    - rewrite Z.mod_small in Hshort by lia. rewrite Z.mod_small by lia. lia. }
  rewrite Hnone. reflexivity.
Qed.

Lemma replay_prefix_succ (ts : list Trade) (n : nat) :
  replay_prefix data p ts (Datatypes.S n)
  = replay_step data ts (start + Z.of_nat n) (replay_prefix data p ts n).
Proof. unfold replay_prefix. apply for_loop_snoc. Qed.

Lemma no_entry_past_the_end (news : list Trade) :
  Forall (entered_from data (vsize data)) news -> news = [].
Proof.
  destruct news as [|t news]; [reflexivity|]. intros Hall.
  apply Forall_cons in Hall as [(j & Hj & _) _]. lia.
Qed.

(** The replay follows the strategy bar by bar. *)
Lemma replay_follows (n : nat) :
  (n <= bars)%nat ->
  let bt := run_prefix data p n (Backtester_new p) in
  let r := replay_prefix data p (trades final) n in
  (inPosition bt = false ->
   holding r = false /\ tradeIdx r = vsize (trades bt)
   /\ (trades bt = [] -> equity r = initialCapital p)
   /\ (trades bt <> [] -> equity r = gross_proceeds (back (trades bt))))
  /\ (inPosition bt = true -> (n < bars)%nat ->
      holding r = true /\ tradeIdx r = vsize (trades bt) - 1
      /\ rp_shares r = shares (back (trades bt)))
  /\ (inPosition bt = true -> n = bars ->
      holding r = false /\ trades final <> []
      /\ equity r = gross_proceeds (back (trades final))).
Proof.
  induction n as [|n IH]; intros Hle.
  - cbn zeta. split; [|split; discriminate].
    intros _. repeat split. intros Hne. now contradiction Hne.
  - specialize (IH ltac:(lia)). cbn zeta in IH |- *.
    pose proof (to_size_t_range (longPeriod p)) as Hstart.
    assert (Hbars : start + Z.of_nat bars = vsize data) by lia.
    set (i := start + Z.of_nat n) in *.
    assert (Hi : 0 <= i < vsize data) by lia.
    rewrite run_prefix_succ, replay_prefix_succ. fold i.
    pose proof (run_prefix_tracked data p n) as Htracked.
    pose proof (run_prefix_tracked data p (Datatypes.S n)) as Htracked'.
    assert (Hrest : start + Z.of_nat (Datatypes.S n) + Z.of_nat (bars - Datatypes.S n)
                    = vsize data) by lia.
    pose proof (run_rest_log data p (bars - Datatypes.S n) (start + Z.of_nat (Datatypes.S n))
                  _ Htracked' Hrest) as [Fflat Fpos].
    rewrite (run_rest_prefix (Datatypes.S n) Hle) in Fflat, Fpos.
    rewrite run_prefix_succ in Fflat, Fpos. fold i in Fflat, Fpos.
    replace (start + Z.of_nat (Datatypes.S n)) with (i + 1) in Fflat, Fpos by lia.
    set (bt := run_prefix data p n (Backtester_new p)) in *.
    set (ts := trades final) in *.
    set (r := replay_prefix data p ts n) in *.
    destruct IH as (IHflat & IHpos & _).
    assert (Hfields : holding (replay_step data ts i r) = holding (replay_match data ts i r)
                      /\ tradeIdx (replay_step data ts i r) = tradeIdx (replay_match data ts i r)
                      /\ equity (replay_step data ts i r) = equity (replay_match data ts i r)
                      /\ rp_shares (replay_step data ts i r)
                         = rp_shares (replay_match data ts i r))
      by (repeat split).
    destruct Hfields as (-> & -> & -> & ->).
    assert (Hlast : to_size_t (vsize data - 1) = vsize data - 1)
      by (apply to_size_t_small; lia).
    assert (Hexited : forall t, exited_from data (i + 1) t ->
              ((Datatypes.S n < bars)%nat -> date (vget no_bar data i) <> exitDate t)
              /\ (Datatypes.S n = bars -> date (vget no_bar data i) = exitDate t)).
    { intros t (x & Hx & Hdate). rewrite Hlast in Hx. split.
      - intros Hmore Hsame. rewrite Hdate in Hsame.
        apply date_inj in Hsame; lia.
      - intros Hend. rewrite Hdate. f_equal. f_equal. lia. }
    destruct (run_step_cases data p (run_series data p) i bt)
      as [Hsame | [[Hflat Henter] | [Hlong Hexit]]].
    + (* nothing happens at bar i *)
      rewrite Hsame in *. split; [|split].
      * intros Hflat. destruct (IHflat Hflat) as (Hhold & Hidx & Hnone & Hsome).
        destruct (Fflat Hflat) as (news & Hlog & Hnews).
        assert (Hidle : replay_match data ts i r = r).
        { destruct news as [|t news].
          - apply replay_match_done. rewrite Hlog, app_nil_r. lia.
          - apply replay_match_idle;
              [rewrite Hidx, Hlog, vsize_app; unfold vsize; cbn [length]; lia
              | exact Hhold |].
            rewrite Hidx, Hlog, vget_middle.
            apply Forall_cons in Hnews as [(j & Hj & Hdate) _].
            rewrite Hdate. intros Heq. apply date_inj in Heq; lia. }
        rewrite Hidle. auto.
      * intros Hpos Hmore. destruct (IHpos Hpos ltac:(lia)) as (Hhold & Hidx & Hshares).
        destruct (Htracked Hpos) as [Hne _].
        destruct (Fpos Hpos) as (t & news & Hlog & _ & _ & Hexited_t & _).
        assert (Hless : tradeIdx r < vsize ts).
        { rewrite Hidx, Hlog, vsize_app, vsize_removelast by assumption.
          unfold vsize. cbn [length]. lia. }
        assert (Ht : vget no_trade ts (tradeIdx r) = t).
        { rewrite Hidx, <- vsize_removelast, Hlog by assumption. apply vget_middle. }
        destruct (replay_match_hold data ts i r Hless Hhold) as (H1 & H2 & H3).
        { rewrite Ht. now apply (Hexited t Hexited_t). }
        rewrite H1, H2, H3. auto.
      * intros Hpos Hend. destruct (IHpos Hpos ltac:(lia)) as (Hhold & Hidx & Hshares).
        destruct (Htracked Hpos) as [Hne _].
        destruct (Fpos Hpos) as (t & news & Hlog & _ & Hshares_t & Hexited_t & Hnews).
        assert (Hless : tradeIdx r < vsize ts).
        { rewrite Hidx, Hlog, vsize_app, vsize_removelast by assumption.
          unfold vsize. cbn [length]. lia. }
        assert (Ht : vget no_trade ts (tradeIdx r) = t).
        { rewrite Hidx, <- vsize_removelast, Hlog by assumption. apply vget_middle. }
        destruct (replay_match_exit data ts i r Hless Hhold) as (H1 & H2 & H3).
        { rewrite Ht. now apply (Hexited t Hexited_t). }
        replace (i + 1) with (vsize data) in Hnews by lia.
        apply no_entry_past_the_end in Hnews. subst news.
        rewrite H1, H3, Ht, Hlog. split; [reflexivity|].
        split; [intros Hnil; now apply app_eq_nil in Hnil as [_ Hnil]|].
        rewrite back_snoc. unfold gross_proceeds. now rewrite Hshares, Hshares_t.
    + (* an entry at bar i *)
      rewrite Henter in *.
      destruct (IHflat Hflat) as (Hhold & Hidx & _).
      destruct (Fpos eq_refl) as (t & news & Hlog & Hentry & Hshares_t & Hexited_t & Hnews).
      cbn [trades enterPosition] in Hlog, Hentry, Hshares_t.
      rewrite removelast_last in Hlog. rewrite back_snoc in Hentry, Hshares_t.
      cbn [entryDate shares] in Hentry, Hshares_t.
      assert (Hless : tradeIdx r < vsize ts).
      { rewrite Hidx, Hlog, vsize_app. unfold vsize. cbn [length]. lia. }
      assert (Ht : vget no_trade ts (tradeIdx r) = t).
      { rewrite Hidx, Hlog. apply vget_middle. }
      split; [discriminate|]. split.
      * intros _ Hmore.
        destruct (replay_match_enter data ts i r Hless Hhold) as (H1 & H2 & H3).
        { now rewrite Ht. }
        { rewrite Ht. now apply (Hexited t Hexited_t). }
        rewrite H1, H2, H3, Ht, Hidx. cbn [trades enterPosition].
        rewrite back_snoc, vsize_snoc. cbn [shares].
        repeat split; [lia | exact Hshares_t].
      * intros _ Hend.
        destruct (replay_match_round_trip data ts i r Hless Hhold) as (H1 & H2 & H3).
        { now rewrite Ht. }
        { rewrite Ht. now apply (Hexited t Hexited_t). }
        replace (i + 1) with (vsize data) in Hnews by lia.
        apply no_entry_past_the_end in Hnews. subst news.
        rewrite H1, H3, Ht, Hlog. split; [reflexivity|].
        split; [intros Hnil; now apply app_eq_nil in Hnil as [_ Hnil]|].
        now rewrite back_snoc.
    + (* an exit at bar i *)
      rewrite Hexit in *.
      destruct (IHpos Hlong ltac:(lia)) as (Hhold & Hidx & Hshares).
      destruct (Htracked Hlong) as [Hne _].
      destruct (Fflat eq_refl) as (news & Hlog & _).
      cbn [trades exitPosition] in Hlog |- *.
      rewrite with_back_removelast in Hlog |- * by assumption.
      rewrite <- app_assoc in Hlog. cbn [app] in Hlog.
      assert (Hless : tradeIdx r < vsize ts).
      { rewrite Hidx, Hlog, vsize_app, vsize_removelast by assumption.
        unfold vsize. cbn [length]. lia. }
      match type of Hlog with
      | ts = _ ++ ?tc :: _ => assert (Ht : vget no_trade ts (tradeIdx r) = tc)
      end.
      { rewrite Hidx, <- vsize_removelast, Hlog by assumption. apply vget_middle. }
      destruct (replay_match_exit data ts i r Hless Hhold) as (H1 & H2 & H3).
      { rewrite Ht. reflexivity. }
      split; [|split; discriminate].
      intros _. rewrite H1, H2, H3, Ht, Hidx.
      rewrite vsize_snoc, vsize_removelast by assumption.
      split; [reflexivity|]. split; [lia|].
      split; [intros Hnil; now apply app_eq_nil in Hnil as [_ Hnil]|].
      intros _. rewrite back_snoc. unfold gross_proceeds. cbn [shares exitPrice].
      now rewrite Hshares.
Qed.

Lemma run_prefix_untouched (n : nat) :
  trades (run_prefix data p n (Backtester_new p)) = [] ->
  currentCash (run_prefix data p n (Backtester_new p)) = initialCapital p.
Proof.
  enough (Hboth : open_trade_tracked (run_prefix data p n (Backtester_new p))
                  /\ (trades (run_prefix data p n (Backtester_new p)) = [] ->
                      currentCash (run_prefix data p n (Backtester_new p))
                      = initialCapital p)) by apply Hboth.
  unfold run_prefix.
  apply (for_loop_inv (fun bt => open_trade_tracked bt
                                 /\ (trades bt = [] -> currentCash bt = initialCapital p))).
  - intros i bt [Htracked Hcash]. split; [now apply run_step_tracked|].
    destruct (run_step_cases data p (run_series data p) i bt)
      as [-> | [[_ ->] | [Hlong ->]]]; [exact Hcash | |].
    + cbn [trades enterPosition]. intros Hnil.
      now apply app_eq_nil in Hnil as [_ Hnil].
    + cbn [trades exitPosition]. intros Hnil. apply with_back_nil in Hnil.
      now destruct (Htracked Hlong).
  - split; [apply Backtester_new_tracked | reflexivity].
Qed.

Lemma vget_back_prefix (ts news : list Trade) :
  ts <> [] -> vget no_trade (ts ++ news) (vsize ts - 1) = back ts.
Proof.
  intros Hne. destruct (exists_last Hne) as (l & t & ->).
  rewrite back_snoc, vsize_snoc, <- app_assoc. cbn [app].
  replace (vsize l + 1 - 1) with (vsize l) by lia. apply vget_middle.
Qed.
End Replay.

(** C8 (amended). When the bars carry pairwise distinct dates, the
    max-drawdown replay follows the strategy.  After each bar at which the
    strategy is flat the replay is flat too and has replayed exactly the
    trades logged so far; the equity it uses is the initial capital before
    the first trade, and afterwards [shares * exitPrice] of the last closed
    trade, the gross proceeds before the exit commission, while the cash of
    the ledger is the net proceeds [gross - gross * commissionRate] of that
    trade (the initial capital before the first trade).  The same holds
    after the last bar for the finished run, whose open position is closed
    at the last bar. *)
Theorem replay_flat_equity (data : list OHLCV) (p : Params) (n : nat) :
  let final := run data p (Backtester_new p) in
  let bt := run_prefix data p n (Backtester_new p) in
  let r := replay_prefix data p (trades final) n in
  let bars := Z.to_nat (vsize data - to_size_t (longPeriod p)) in
  NoDup (map date data) -> vsize data < 2 ^ 64 -> in_int (longPeriod p) ->
  (n <= bars)%nat ->
  (inPosition bt = false ->
   holding r = false
   /\ tradeIdx r = vsize (trades bt)
   /\ (trades bt = [] ->
       equity r = initialCapital p /\ currentCash bt = initialCapital p)
   /\ (trades bt <> [] ->
       equity r = gross_proceeds (back (trades bt))
       /\ currentCash bt = net_proceeds p (back (trades bt))
       /\ vget no_trade (trades final) (tradeIdx r - 1) = back (trades bt)))
  /\ (n = bars ->
      holding r = false
      /\ (trades final = [] -> equity r = initialCapital p)
      /\ (trades final <> [] ->
          equity r = gross_proceeds (back (trades final))
          /\ currentCash final = net_proceeds p (back (trades final)))).
Proof.
  intros final bt r bars Hdates Hsize Hint Hn.
  pose proof (run_final_rest data p Hint) as Hfinal.
  pose proof (replay_follows data p Hdates Hsize n Hn) as Hfollows.
  cbn zeta in Hfollows. rewrite <- Hfinal in Hfollows.
  fold final bt in Hfollows. fold r in Hfollows.
  destruct Hfollows as (Hflat & _ & Hend).
  pose proof (run_prefix_tracked data p n) as Htracked. fold bt in Htracked.
  assert (Hleft : inPosition bt = false ->
            holding r = false
            /\ tradeIdx r = vsize (trades bt)
            /\ (trades bt = [] ->
                equity r = initialCapital p /\ currentCash bt = initialCapital p)
            /\ (trades bt <> [] ->
                equity r = gross_proceeds (back (trades bt))
                /\ currentCash bt = net_proceeds p (back (trades bt))
                /\ vget no_trade (trades final) (tradeIdx r - 1) = back (trades bt))).
  { intros Hpos. destruct (Hflat Hpos) as (Hhold & Hidx & Hnone & Hsome).
    split; [exact Hhold|]. split; [exact Hidx|]. split.
    - intros Hnil. split; [now apply Hnone | now apply run_prefix_untouched].
    - intros Hne. split; [now apply Hsome|].
      split; [now apply (run_prefix_net data p n)|].
      destruct (run_rest_log data p (bars - n)
                  (to_size_t (longPeriod p) + Z.of_nat n) bt Htracked) as [Flog _].
      { pose proof (to_size_t_range (longPeriod p)). subst bars.
        destruct (Z_lt_le_dec (vsize data) (to_size_t (longPeriod p))) as [Hshort | Hlong];
          [|lia].
        exfalso. apply Hne.
        assert (Hzero : n = 0%nat) by lia. subst bt. now rewrite Hzero. }
      destruct (Flog Hpos) as (news & Hlog & _).
      unfold bt, bars in Hlog. rewrite (run_rest_prefix data p n Hn) in Hlog.
      rewrite <- Hfinal in Hlog. fold final bt in Hlog.
      rewrite Hlog, Hidx. now apply vget_back_prefix. }
  split; [exact Hleft|].
  intros Hlast.
  assert (Hrun : final = if inPosition bt
                         then exitPosition data p (to_size_t (vsize data - 1)) bt else bt).
  { unfold final. rewrite Hfinal. unfold run_rest. subst bt. rewrite Hlast. reflexivity. }
  destruct (inPosition bt) eqn:Hpos.
  - destruct (Hend eq_refl Hlast) as (Hhold & Hne & Hequity).
    split; [exact Hhold|]. split; [intros Hnil; contradiction|].
    intros _. split; [exact Hequity|].
    rewrite Hrun. apply exitPosition_net; auto.
    rewrite <- Hrun. exact Hne.
  - destruct (Hleft eq_refl) as (Hhold & _ & Hnone & Hsome). rewrite Hrun.
    split; [exact Hhold|]. split.
    + intros Hnil. now apply Hnone.
    + intros Hne. destruct (Hsome Hne) as (Hequity & Hcash & _). now split.
Qed.

Lemma replay_flat_equity_witness :
  let data := Scenario.one_trade in
  let p := Scenario.params false Scenario.default_commission in
  let final := run data p (Backtester_new p) in
  let bt := run_prefix data p 3 (Backtester_new p) in
  let r := replay_prefix data p (trades final) 3 in
  inPosition bt = false
  /\ holding r = false
  /\ equity r = gross_proceeds (back (trades bt))
  /\ currentCash bt = net_proceeds p (back (trades bt))
  /\ (currentCash bt <? equity r)%float = true.
Proof.
  intros data p final bt r.
  assert (Hflat : inPosition bt = false) by (vm_compute; reflexivity).
  assert (Hdates : NoDup (map date data)).
  { apply NoDup_ListNoDup. repeat (constructor; [cbn; intuition discriminate|]).
    constructor. }
  destruct (replay_flat_equity data p 3 Hdates) as [Hwhen _].
  - vm_compute. reflexivity.
  - unfold in_int. cbn. lia.
  - vm_compute. lia.
  - destruct (Hwhen Hflat) as (Hhold & _ & _ & Hsome).
    destruct Hsome as (Hequity & Hcash & _); [vm_compute; discriminate|].
    split; [exact Hflat|]. split; [exact Hhold|].
    split; [exact Hequity|]. split; [exact Hcash|].
    vm_compute. reflexivity.
Defined.

(** The dates have to differ.  When the bar before the entry carries the
    date of the entry bar, the replay takes up the position one bar early:
    the strategy is flat with its capital in cash, and the replay holds the
    shares of the coming trade, valued at that bar's close. *)
Lemma replay_repeated_date_example :
  let data :=
    [ Scenario.bar "2024-01-01" 10 10; Scenario.bar "2024-01-02" 10 9;
      Scenario.bar "2024-01-04" 10 9; Scenario.bar "2024-01-04" 10 10;
      Scenario.bar "2024-01-05" 10 9; Scenario.bar "2024-01-08" 9 9 ] in
  let p := Scenario.params false 0 in
  let final := run data p (Backtester_new p) in
  let bt := run_prefix data p 1 (Backtester_new p) in
  let r := replay_prefix data p (trades final) 1 in
  vsize (trades final) = 1
  /\ inPosition bt = false /\ trades bt = [] /\ currentCash bt = 1000%float
  /\ holding r = true /\ equity r = 900%float.
Proof. vm_compute. repeat split. Qed.

(** C8 as stated fails with the default commission of 0.001: after a round
    trip bought at 10 and sold at 9 with 1000 of capital the ledger holds
    898.2009 of cash, while the replay carries 899.1 (99.9 shares at 9) as
    equity through the flat bar that follows. *)
Lemma replay_flat_equity_counterexample :
  let data := Scenario.one_trade in
  let p := Scenario.params false Scenario.default_commission in
  let final := run data p (Backtester_new p) in
  let flat := run_prefix data p 3 (Backtester_new p) in
  let r := replay_prefix data p (trades final) 3 in
  vsize (trades final) = 1
  /\ inPosition flat = false /\ holding r = false /\ tradeIdx r = 1
  /\ currentCash final = currentCash flat
  /\ (currentCash flat <? 898.25)%float = true
  /\ (899 <? equity r)%float = true
  /\ (equity r =? currentCash flat)%float = false.
Proof. vm_compute. repeat split. Qed.

(** ** C9: moving averages of a series shorter than the period *)

Lemma vget_checked_sound {A} (d : A) (v : list A) i x :
  vget_checked v i = Some x -> vget d v i = x.
Proof.
  unfold vget_checked, vget. destruct (in_bounds v i); [|discriminate].
  intros Hlook. now apply nth_lookup_Some.
Qed.

Lemma vset_checked_sound {A} (v v' : list A) i x :
  vset_checked v i x = Some v' -> vset v i x = v'.
Proof.
  unfold vset_checked, vset. destruct (in_bounds v i); [|discriminate].
  now intros [= <-].
Qed.

Lemma for_loop_checked_sound {S : Type}
    (checked : Z -> S -> option S) (body : Z -> S -> S) :
  (forall i s s', checked i s = Some s' -> body i s = s') ->
  forall n i s s', for_loop_checked n i checked s = Some s' -> for_loop n i body s = s'.
Proof.
  intros Hbody n. induction n as [|n IH]; intros i s s' Hrun; cbn in *.
  - now injection Hrun.
  - apply bind_Some in Hrun as (s1 & Hstep & Hrest).
    apply Hbody in Hstep as ->. now apply IH.
Qed.

Section Checked.
Context {D : Type} `{Num D}.

Lemma SMA_checked_sound (prices : list D) (period : Z) (sma : list D) :
  SMA_checked prices period = Some sma -> SMA prices period = sma.
Proof.
  unfold SMA_checked, SMA.
  destruct (vsize prices <? to_size_t period); [now intros [= <-]|].
  intros Hrun.
  apply bind_Some in Hrun as (sum & Hsum & Hrun).
  apply bind_Some in Hrun as (first & Hfirst & Hrun).
  apply bind_Some in Hrun as (st & Hloop & Hrun).
  injection Hrun as <-.
  unfold for_range_checked in Hsum, Hloop. unfold for_range.
  apply (for_loop_checked_sound _ (fun i sum => sum + vget (of_int 0) prices i)%num)
    in Hsum.
  2:{ intros i s s' Hstep. apply bind_Some in Hstep as (x & Hx & [= <-]).
      now rewrite (vget_checked_sound _ _ _ _ Hx). }
  rewrite Hsum. rewrite (vset_checked_sound _ _ _ _ Hfirst).
  erewrite for_loop_checked_sound; [reflexivity | | exact Hloop].
  intros i [s v] s' Hstep. cbn beta iota in Hstep |- *.
  apply bind_Some in Hstep as (old & Hold & Hstep).
  apply bind_Some in Hstep as (new & Hnew & Hstep).
  apply bind_Some in Hstep as (v' & Hput & [= <-]).
  rewrite (vget_checked_sound _ _ _ _ Hold), (vget_checked_sound _ _ _ _ Hnew).
  now rewrite (vset_checked_sound _ _ _ _ Hput).
Qed.

Lemma EMA_checked_sound (prices : list D) (period : Z) (ema : list D) :
  EMA_checked prices period = Some ema -> EMA prices period = ema.
Proof.
  unfold EMA_checked, EMA.
  destruct (vsize prices <? to_size_t period); [now intros [= <-]|].
  intros Hrun.
  apply bind_Some in Hrun as (sum & Hsum & Hrun).
  apply bind_Some in Hrun as (first & Hfirst & Hloop).
  unfold for_range_checked in Hsum, Hloop. unfold for_range.
  apply (for_loop_checked_sound _ (fun i sum => sum + vget (of_int 0) prices i)%num)
    in Hsum.
  2:{ intros i s s' Hstep. apply bind_Some in Hstep as (x & Hx & [= <-]).
      now rewrite (vget_checked_sound _ _ _ _ Hx). }
  rewrite Hsum. rewrite (vset_checked_sound _ _ _ _ Hfirst).
  erewrite for_loop_checked_sound; [reflexivity | | exact Hloop].
  intros i v v' Hstep. cbn beta in Hstep |- *.
  apply bind_Some in Hstep as (price & Hprice & Hstep).
  apply bind_Some in Hstep as (previous & Hprevious & Hput).
  rewrite (vget_checked_sound _ _ _ _ Hprice), (vget_checked_sound _ _ _ _ Hprevious).
  now apply vset_checked_sound.
Qed.

(** C9. For every period [p > 0] and every series shorter than [p], SMA and
    EMA each return, without an error and without touching any element, a
    series of the length of the input whose every element is the 0.0
    sentinel. *)
Theorem moving_average_short_series (prices : list D) (period : Z) :
  0 < period -> in_int period -> vsize prices < period ->
  (SMA_checked prices period = Some (SMA prices period)
   /\ length (SMA prices period) = length prices
   /\ Forall (fun x => x = of_int 0) (SMA prices period))
  /\ (EMA_checked prices period = Some (EMA prices period)
      /\ length (EMA prices period) = length prices
      /\ Forall (fun x => x = of_int 0) (EMA prices period)).
Proof.
  intros Hpos Hint Hshort.
  assert (Hguard : (vsize prices <? to_size_t period) = true).
  { apply Z.ltb_lt. rewrite to_size_t_small; [assumption|].
    unfold in_int in Hint. lia. }
  unfold SMA_checked, EMA_checked, SMA, EMA. rewrite Hguard.
  unfold zeros. rewrite length_replicate.
  repeat split; apply Forall_replicate; reflexivity.
Qed.
End Checked.

Lemma moving_average_short_series_witness :
  SMA [10; 11]%float 3 = [0; 0]%float /\ EMA [10; 11]%float 3 = [0; 0]%float
  /\ SMA_checked [10; 11]%float 3 = Some [0; 0]%float.
Proof.
  assert (Hpos : 0 < 3) by lia.
  assert (Hint : in_int 3) by (unfold in_int; lia).
  assert (Hshort : vsize [10; 11]%float < 3) by (vm_compute; reflexivity).
  destruct (moving_average_short_series [10; 11]%float 3 Hpos Hint Hshort)
    as [(Hsma & _ & _) _].
  split; [vm_compute; reflexivity|].
  split; [vm_compute; reflexivity|].
  rewrite Hsma. vm_compute. reflexivity.
Defined.

(** The checked averages do return a series when the series is long enough. *)
Example SMA_checked_long_enough :
  SMA_checked [10; 11; 12; 13]%float 2 = Some [0; 10.5; 11.5; 12.5]%float
  /\ EMA_checked [10; 11; 12; 13]%float 4 = Some [0; 0; 0; 11.5]%float.
Proof. vm_compute. split; reflexivity. Qed.

(** ** C10: break-even trades *)

Lemma float_zero_cases (x : float) :
  (x =? 0)%float = true -> exists s, Prim2SF x = S754_zero s.
Proof.
  rewrite FloatAxioms.eqb_spec, Prim2SF_zero.
  destruct (Prim2SF x) as [s | s | | s m e]; unfold SFeqb, SFcompare;
    try destruct s; try discriminate; intros _; eexists; reflexivity.
Qed.

Lemma float_zero_not_pos (x : float) : (x =? 0)%float = true -> (0 <? x)%float = false.
Proof.
  intros Hzero. destruct (float_zero_cases x Hzero) as [s Hs].
  now rewrite ltb_spec, Prim2SF_zero, Hs.
Qed.

Lemma float_opp_zero (x : float) : (x =? 0)%float = true -> (- x =? 0)%float = true.
Proof.
  intros Hzero. destruct (float_zero_cases x Hzero) as [s Hs].
  now rewrite FloatAxioms.eqb_spec, opp_spec, Prim2SF_zero, Hs.
Qed.

Lemma float_zero_intro (x : float) (s : bool) :
  Prim2SF x = S754_zero s -> (x =? 0)%float = true.
Proof.
  intros Hs. rewrite FloatAxioms.eqb_spec, Prim2SF_zero, Hs. reflexivity.
Qed.

(** Zero divided by a number other than zero, times 100, is zero. *)
Lemma float_zero_return (x cost : float) :
  (x =? 0)%float = true ->
  (cost =? 0)%float = false -> (cost =? cost)%float = true ->
  (x / cost * 100 =? 0)%float = true.
Proof.
  intros Hzero Hcost Hnum. destruct (float_zero_cases x Hzero) as [s Hs].
  rewrite FloatAxioms.eqb_spec, Prim2SF_zero in Hcost.
  rewrite FloatAxioms.eqb_spec in Hnum.
  assert (Hquot : exists s', Prim2SF (x / cost) = S754_zero s').
  { rewrite div_spec, Hs.
    destruct (Prim2SF cost) as [sc | sc | | sc m e]; cbn in Hcost, Hnum |- *;
      try discriminate; eexists; reflexivity. }
  destruct Hquot as [s' Hs'].
  apply (float_zero_intro _ (xorb s' false)).
  rewrite mul_spec, Hs', Prim2SF_hundred. reflexivity.
Qed.

Lemma exitPosition_booked data p i bt :
  trades bt <> [] -> booked_return (back (trades (exitPosition data p i bt))).
Proof.
  intros Hne. unfold exitPosition. cbn [trades].
  rewrite back_with_back by assumption. reflexivity.
Qed.

Lemma metrics_fold (ts : list Trade) (w : Z) (a b : float) :
  fold_left metrics_step ts (w, a, b)
  = (w + vsize (winners ts),
     fold_left (fun acc t => (acc + pnl t)%float) (winners ts) a,
     fold_left (fun acc t => (acc + - pnl t)%float) (losers ts) b).
Proof.
  revert w a b. induction ts as [|t ts IH]; intros w a b.
  - cbn. now rewrite Z.add_0_r.
  - cbn [fold_left metrics_step]. unfold winners, losers, vsize in *.
    cbn [List.filter]. change (0 <? pnl t)%float with (is_win t).
    destruct (is_win t); cbn [negb]; rewrite IH; cbn [length fold_left].
    + do 2 f_equal. lia.
    + reflexivity.
Qed.

Lemma winners_losers_size (ts : list Trade) :
  vsize (winners ts) + vsize (losers ts) = vsize ts.
Proof.
  unfold winners, losers, vsize. induction ts as [|t ts IH]; [reflexivity|].
  cbn [List.filter length]. destruct (is_win t); cbn [negb length]; lia.
Qed.

Lemma float_nan_add_l (x : float) : (nan + x)%float = nan.
Proof. apply Prim2SF_inj. rewrite add_spec. reflexivity. Qed.

Lemma float_nan_add_r (x : float) : (x + nan)%float = nan.
Proof.
  apply Prim2SF_inj. rewrite add_spec. change (Prim2SF nan) with S754_nan.
  unfold SF64add, SFadd. now destruct (Prim2SF x) as [[|] | [|] | | [|] m e].
Qed.

(** Zero divided by zero, times 100, is NaN. *)
Lemma float_nan_return (x cost : float) :
  (x =? 0)%float = true -> (cost =? 0)%float = true -> (x / cost * 100)%float = nan.
Proof.
  intros Hx Hcost.
  destruct (float_zero_cases x Hx) as [s Hs].
  destruct (float_zero_cases cost Hcost) as [s' Hs'].
  apply Prim2SF_inj. rewrite mul_spec, div_spec, Hs, Hs'. reflexivity.
Qed.

(** A NaN return among the trades makes the sum of minus the returns NaN. *)
Lemma loss_amount_nan (ts : list Trade) (t : Trade) (acc : float) :
  In t ts -> returnPct t = nan ->
  fold_left (fun acc u => (acc + - returnPct u)%float) ts acc = nan.
Proof.
  intros Hin Hnan.
  assert (Hstays : forall l, fold_left (fun acc u => (acc + - returnPct u)%float) l nan = nan).
  { induction l as [|u l IH]; [reflexivity|]. cbn [fold_left].
    now rewrite float_nan_add_l. }
  revert acc. induction ts as [|u ts IH]; intros acc; [contradiction|].
  cbn [fold_left]. destruct Hin as [-> | Hin]; [|now apply IH].
  rewrite Hnan. change (- nan)%float with nan. rewrite float_nan_add_r. apply Hstays.
Qed.

(** C10 (amended). A break-even trade ([pnl] equal to 0) is a losing trade
    for both calculators: it is not among the winners, the trades with
    [pnl > 0], but among the others, whose number is the size of the log
    minus the wins and is the denominator of avgLoss.  In
    [calculateMetrics], winningTrades is the number of winners, winRate is
    [winningTrades * 100 / numTrades], avgLoss is the sum of [-pnl] over the
    others divided by their number, and the trade adds [-pnl = 0] to it.  In
    [calculateKellyFraction], wins is the number of winners, winRate is
    [wins / size], and avgLoss is the sum of [-returnPct] over the others
    divided by their number.  To that sum the trade adds [-returnPct], which
    is 0 when its return% is the one [exitPosition] books and its cost basis
    [shares * entryPrice] is neither 0 nor NaN; when the cost basis is 0 its
    return% is NaN, and so is the whole total loss amount. *)
Theorem break_even_is_a_loss (bt : Backtester) (t : Trade) :
  let ts := trades bt in
  let wins := vsize (winners ts) in
  let losses := vsize (losers ts) in
  let totalLossAmount :=
    fold_left (fun acc u => (acc + - returnPct u)%float) (losers ts) 0%float in
  In t ts -> (pnl t =? 0)%float = true -> vsize ts < 2 ^ 31 ->
  (is_win t = false /\ ~ In t (winners ts) /\ In t (losers ts)
   /\ wins + losses = vsize ts /\ 0 < losses)
  /\ ((forall pow data p m,
         calculateMetrics pow data p bt = Some m ->
         winningTrades m = wins
         /\ winRate m = (float_of_int wins * 100 / float_of_int (vsize ts))%float
         /\ avgLoss m
            = (fold_left (fun acc u => acc + - pnl u) (losers ts) 0
               / float_of_int losses)%float)
      /\ (- pnl t =? 0)%float = true)
  /\ (calculateKellyFraction bt
      = (if (vsize ts <? 5)%Z then 1
         else if ((wins =? 0) || (wins =? vsize ts))%Z then 1
         else
           let winRate := float_of_int wins / float_of_int (vsize ts) in
           let avgWin :=
             fold_left (fun acc u => acc + returnPct u) (winners ts) 0
             / float_of_int wins in
           let avgLoss := totalLossAmount / float_of_int losses in
           if avgLoss =? 0 then 1
           else std_max 0 (std_min ((winRate - (1 - winRate) / (avgWin / avgLoss)) * 0.5) 1))%float
      /\ (booked_return t ->
          (cost_basis t =? 0)%float = false ->
          (cost_basis t =? cost_basis t)%float = true ->
          (- returnPct t =? 0)%float = true)
      /\ (booked_return t ->
          (cost_basis t =? 0)%float = true ->
          returnPct t = nan /\ totalLossAmount = nan)).
Proof.
  intros ts wins losses totalLossAmount Hin Hzero Hsize.
  assert (Hloss : is_win t = false) by (now apply float_zero_not_pos).
  assert (Hloser : In t (losers ts)).
  { unfold losers. apply List.filter_In. split; [assumption|]. now rewrite Hloss. }
  pose proof (winners_losers_size ts) as Hsplit. fold wins losses in Hsplit.
  assert (Hsome : 0 < losses).
  { subst losses. unfold vsize. destruct (losers ts); [contradiction | cbn; lia]. }
  assert (Hwins : 0 <= wins) by (subst wins; unfold vsize; lia).
  split; [|split].
  - repeat split; try assumption.
    unfold winners. rewrite List.filter_In. intros [_ Hwin]. congruence.
  - split; [|now apply float_opp_zero].
    intros pow data p m Hm. unfold calculateMetrics in Hm.
    destruct (head data) as [first|]; [|discriminate]. cbn [mbind option_bind] in Hm.
    destruct (calculateYears _ _) as [years|]; [|discriminate].
    cbn [mbind option_bind] in Hm.
    unfold metrics_loop in Hm. fold ts in Hm.
    rewrite metrics_fold, Z.add_0_l in Hm. fold wins in Hm.
    injection Hm as <-.
    cbn [winningTrades winRate avgLoss].
    rewrite to_int_small by (unfold in_int; subst wins losses; unfold vsize in *; lia).
    replace (vsize ts - wins) with losses by lia.
    assert (Hany : 0 < vsize ts) by lia.
    apply Z.ltb_lt in Hsome as ->. apply Z.ltb_lt in Hany as ->.
    repeat split.
  - split; [|split].
    + unfold calculateKellyFraction. fold ts.
      destruct (vsize ts <? 5); [reflexivity|].
      unfold kelly_loop. rewrite kelly_fold, Z.add_0_l.
      change (kelly_wins ts) with wins.
      rewrite to_int_small by (unfold in_int; subst wins losses; unfold vsize in *; lia).
      replace (vsize ts - wins) with losses by lia.
      rewrite to_size_t_small by lia.
      reflexivity.
    + intros Hbooked Hcost Hnum. apply float_opp_zero.
      rewrite Hbooked. now apply float_zero_return.
    + intros Hbooked Hcost.
      assert (Hnan : returnPct t = nan).
      { rewrite Hbooked. now apply float_nan_return. }
      split; [exact Hnan|]. now apply (loss_amount_nan _ t).
Qed.

Lemma break_even_is_a_loss_witness :
  let data :=
    [ Scenario.bar "2024-01-01" 10 10; Scenario.bar "2024-01-02" 10 9;
      Scenario.bar "2024-01-03" 10 10; Scenario.bar "2024-01-04" 10 9;
      Scenario.bar "2024-01-05" 11 10; Scenario.bar "2024-01-08" 10 9;
      Scenario.bar "2024-01-09" 9 10; Scenario.bar "2024-01-10" 10 9;
      Scenario.bar "2024-01-11" 10 10; Scenario.bar "2024-01-12" 10 9;
      Scenario.bar "2024-01-15" 11 10; Scenario.bar "2024-01-16" 10 9;
      Scenario.bar "2024-01-17" 9 10 ] in
  let p := Scenario.params false 0 in
  let bt := run data p (Backtester_new p) in
  let t := vget no_trade (trades bt) 2 in
  (pnl t =? 0)%float = true
  /\ vsize (trades bt) = 6
  /\ vsize (losers (trades bt)) = 4
  /\ calculateKellyFraction bt = 0%float
  /\ forall pow, exists m,
       calculateMetrics pow data p bt = Some m
       /\ winningTrades m = 2
       /\ winRate m = (200 / 6)%float.
Proof.
  intros data p bt t.
  assert (Hin : In t (trades bt)) by (vm_compute; tauto).
  assert (Hzero : (pnl t =? 0)%float = true) by (vm_compute; reflexivity).
  assert (Hsize : vsize (trades bt) < 2 ^ 31) by (vm_compute; reflexivity).
  destruct (break_even_is_a_loss bt t Hin Hzero Hsize)
    as (_ & (Hmetrics & _) & Hkelly & _).
  split; [exact Hzero|].
  split; [vm_compute; reflexivity|].
  split; [vm_compute; reflexivity|].
  split; [rewrite Hkelly; vm_compute; reflexivity|].
  intros pow.
  assert (Hm : exists m, calculateMetrics pow data p bt = Some m)
    by (eexists; vm_compute; reflexivity).
  destruct Hm as [m Hsome].
  destruct (Hmetrics pow data p m Hsome) as (Hwins & Hrate & _).
  exists m. split; [exact Hsome|].
  split; [rewrite Hwins | rewrite Hrate]; vm_compute; reflexivity.
Defined.

(** C10 as stated fails for the Kelly calculator.  After a losing record the
    sixth entry buys 0 shares; its exit books [pnl = 0 - 0 * 10 = 0] and
    [returnPct = 0 / 0 * 100], a NaN.  This break-even trade turns the Kelly
    total loss amount from 40 into NaN, and the next entry runs the Kelly
    calculator on that log. *)
Lemma break_even_nan_counterexample :
  let data := Scenario.zero_stake in
  let p := Scenario.params true 0 in
  let bt := run_prefix data p 12 (Backtester_new p) in
  let t := back (trades bt) in
  vsize (trades bt) = 6 /\ inPosition bt = false
  /\ (pnl t =? 0)%float = true
  /\ booked_return t /\ cost_basis t = 0%float
  /\ returnPct t = nan
  /\ is_finite (snd (kelly_loop (removelast (trades bt)))) = true
  /\ snd (kelly_loop (trades bt)) = nan
  /\ (snd (kelly_loop (trades bt)) =? snd (kelly_loop (removelast (trades bt))))%float = false
  /\ run_prefix data p 13 (Backtester_new p) = enterPosition data p 14 bt.
Proof. vm_compute. repeat split. Qed.

(** * Further properties of the indicators *)

(** ** Index alignment *)

Lemma length_zeros {D : Type} `{Num D} (n : nat) : length (zeros n) = n.
Proof. unfold zeros. apply length_replicate. Qed.

Lemma for_range_vset_length {A : Type} (f : Z -> list A -> A) lo hi (v : list A) :
  length (for_range lo hi (fun i v => vset v i (f i v)) v) = length v.
Proof.
  apply (for_range_inv (fun w => length w = length v)); [|reflexivity].
  intros i w Hw. now rewrite length_vset.
Qed.

Section Alignment.
Context {D : Type} `{Num D} `{Sqrt D}.

Lemma SMA_length (prices : list D) (period : Z) :
  length (SMA prices period) = length prices.
Proof.
  unfold SMA. destruct (_ <? _); [apply length_zeros|].
  match goal with
  | |- length (snd (for_range ?lo ?hi ?f ?s)) = _ =>
      apply (for_range_inv (fun st => length (snd st) = length prices) f lo hi s)
  end.
  - intros i [sum sma] Hlen. cbn [snd] in *. now rewrite length_vset.
  - cbn [snd]. rewrite length_vset. apply length_zeros.
Qed.

Lemma EMA_length (prices : list D) (period : Z) :
  length (EMA prices period) = length prices.
Proof.
  unfold EMA. destruct (_ <? _); [apply length_zeros|].
  rewrite for_range_vset_length, length_vset. apply length_zeros.
Qed.

Lemma StdDev_length (prices : list D) (period : Z) :
  length (StdDev prices period) = length prices.
Proof. unfold StdDev. rewrite for_range_vset_length. apply length_zeros. Qed.

(** X1. Every indicator series is aligned with the prices: for periods of at
    least 1, [SMA], [EMA], [RSI], [StdDev], the three series of [MACD] and
    the three bands of [BollingerBand] have exactly the length of the price
    series, whatever the prices. *)
Theorem indicator_alignment (prices : list D) (period fast slow sig : Z) (k : D) :
  1 <= period -> 1 <= fast -> 1 <= slow -> 1 <= sig ->
  length (SMA prices period) = length prices
  /\ length (EMA prices period) = length prices
  /\ length (RSI prices period) = length prices
  /\ length (StdDev prices period) = length prices
  /\ (length (macd (MACD prices fast slow sig)) = length prices
      /\ length (signal (MACD prices fast slow sig)) = length prices
      /\ length (histogram (MACD prices fast slow sig)) = length prices)
  /\ (length (upper (BollingerBand prices period k)) = length prices
      /\ length (middle (BollingerBand prices period k)) = length prices
      /\ length (lower (BollingerBand prices period k)) = length prices).
Proof.
  intros _ _ _ _.
  split; [apply SMA_length|].
  split; [apply EMA_length|].
  split; [apply RSI_length|].
  split; [apply StdDev_length|].
  split.
  - unfold MACD. cbn [macd signal histogram].
    rewrite EMA_length, !for_range_vset_length, length_zeros. auto.
  - unfold BollingerBand. cbn [upper middle lower].
    rewrite SMA_length, !for_range_vset_length, length_zeros. auto.
Qed.
End Alignment.

Lemma indicator_alignment_witness :
  length (SMA Scenario.rising 3) = 16%nat
  /\ length (RSI Scenario.rising 3) = 16%nat
  /\ length (histogram (MACD Scenario.rising 2 4 3)) = 16%nat
  /\ length (upper (BollingerBand Scenario.rising 3 2%float)) = 16%nat.
Proof.
  destruct (indicator_alignment Scenario.rising 3 2 4 3 2%float
              ltac:(lia) ltac:(lia) ltac:(lia) ltac:(lia))
    as (Hsma & _ & Hrsi & _ & (_ & _ & Hhist) & (Hupper & _ & _)).
  repeat split; assumption.
Defined.

(** ** Loops that store one value per index *)

Section Scan.
Context {A B : Type}.
Variable step : Z -> A -> A.
Variable g : A -> B.

Lemma scan_state n i a v :
  fst (for_loop n i (scan_body step g) (a, v)) = for_loop n i step a.
Proof.
  revert i a v. induction n as [|n IH]; intros i a v; [reflexivity|].
  cbn [for_loop]. unfold scan_body at 2. apply IH.
Qed.

Lemma scan_untouched d n i a v j :
  j < i -> vget d (snd (for_loop n i (scan_body step g) (a, v))) j = vget d v j.
Proof.
  revert i a v. induction n as [|n IH]; intros i a v Hj; [reflexivity|].
  cbn [for_loop]. unfold scan_body at 2. rewrite IH by lia.
  apply vget_vset_ne. lia.
Qed.

Lemma scan_written d n i a v j :
  i <= j < i + Z.of_nat n -> 0 <= j < vsize v ->
  vget d (snd (for_loop n i (scan_body step g) (a, v))) j
  = g (for_loop (Datatypes.S (Z.to_nat (j - i))) i step a).
Proof.
  revert i a v. induction n as [|n IH]; intros i a v Hj Hbound; [lia|].
  cbn [for_loop]. unfold scan_body at 2.
  destruct (Z.eq_dec j i) as [-> | Hne].
  - rewrite scan_untouched by lia. rewrite vget_vset_eq by assumption.
    now rewrite Z.sub_diag.
  - rewrite IH; [| lia | now rewrite vsize_vset].
    replace (Z.to_nat (j - i)) with (Datatypes.S (Z.to_nat (j - (i + 1)))) by lia.
    reflexivity.
Qed.
End Scan.

(** ** Loops that rewrite a vector in place, one index at a time *)

Section InPlace.
Context {B : Type}.
Variable next : Z -> list B -> B.

Lemma in_place_length n i (v : list B) :
  length (for_loop n i (fun i v => vset v i (next i v)) v) = length v.
Proof.
  apply (for_loop_inv (fun w => length w = length v)); [|reflexivity].
  intros j w Hw. now rewrite length_vset.
Qed.

Lemma in_place_stable d n m i (v : list B) j :
  (n <= m)%nat -> j < i + Z.of_nat n ->
  vget d (for_loop m i (fun i v => vset v i (next i v)) v) j
  = vget d (for_loop n i (fun i v => vset v i (next i v)) v) j.
Proof.
  intros Hnm Hj. induction Hnm as [|m Hnm IH]; [reflexivity|].
  rewrite for_loop_snoc. rewrite vget_vset_ne by lia. exact IH.
Qed.

Lemma in_place_untouched d n i (v : list B) j :
  j < i -> vget d (for_loop n i (fun i v => vset v i (next i v)) v) j = vget d v j.
Proof.
  intros Hj. rewrite (in_place_stable d 0 n) by lia. reflexivity.
Qed.

Lemma in_place_written d n i (v : list B) (k : nat) :
  (k < n)%nat -> 0 <= i + Z.of_nat k < vsize v ->
  vget d (for_loop n i (fun i v => vset v i (next i v)) v) (i + Z.of_nat k)
  = next (i + Z.of_nat k) (for_loop k i (fun i v => vset v i (next i v)) v).
Proof.
  intros Hk Hbound. rewrite (in_place_stable d (Datatypes.S k) n) by lia.
  rewrite for_loop_snoc. apply vget_vset_eq.
  unfold vsize. rewrite in_place_length. exact Hbound.
Qed.
End InPlace.

(** ** The moving averages, index by index *)

Section Averages.
Context {D : Type} `{Num D}.
Variable prices : list D.
Variable period : Z.
Hypothesis period_pos : 1 <= period.
Hypothesis period_fits : period <= vsize prices.
Hypothesis size_fits : vsize prices < 2 ^ 64.

Lemma SMA_unfold :
  SMA prices period =
  snd (for_range period (vsize prices)
         (scan_body (sma_slide prices period) (fun sum => sum / of_int period)%num)
         (sma_seed prices period,
          vset (zeros (length prices)) (period - 1)
            (sma_seed prices period / of_int period)%num)).
Proof.
  transitivity
    (if vsize prices <? to_size_t period then zeros (length prices) else
     snd (for_range (to_size_t period) (vsize prices)
            (scan_body (sma_slide prices period) (fun sum => sum / of_int period)%num)
            (sma_seed prices period,
             vset (zeros (length prices)) (to_size_t (period - 1))
               (sma_seed prices period / of_int period)%num))); [reflexivity|].
  rewrite !to_size_t_small by lia.
  destruct (Z.ltb_spec (vsize prices) period) as [Hshort | _]; [lia|].
  reflexivity.
Qed.

Lemma EMA_unfold :
  EMA prices period =
  for_range period (vsize prices)
    (fun i ema => vset ema i (ema_next prices period i ema))
    (vset (zeros (length prices)) (period - 1)
       (sma_seed prices period / of_int period)%num).
Proof.
  transitivity
    (if vsize prices <? to_size_t period then zeros (length prices) else
     for_range (to_size_t period) (vsize prices)
       (fun i ema => vset ema i (ema_next prices period i ema))
       (vset (zeros (length prices)) (to_size_t (period - 1))
          (sma_seed prices period / of_int period)%num)); [reflexivity|].
  rewrite !to_size_t_small by lia.
  destruct (Z.ltb_spec (vsize prices) period) as [Hshort | _]; [lia|].
  reflexivity.
Qed.

Lemma vsize_zeros : vsize (zeros (length prices) : list D) = vsize prices.
Proof. unfold vsize. now rewrite length_zeros. Qed.

Lemma SMA_seed_value :
  vget (of_int 0) (SMA prices period) (period - 1)
  = (sma_seed prices period / of_int period)%num.
Proof.
  rewrite SMA_unfold. unfold for_range. rewrite scan_untouched by lia.
  apply vget_vset_eq. rewrite vsize_zeros. lia.
Qed.

Lemma EMA_seed_value :
  vget (of_int 0) (EMA prices period) (period - 1)
  = (sma_seed prices period / of_int period)%num.
Proof.
  rewrite EMA_unfold. unfold for_range. rewrite in_place_untouched by lia.
  apply vget_vset_eq. rewrite vsize_zeros. lia.
Qed.

Lemma SMA_at (k : nat) :
  period - 1 + Z.of_nat k < vsize prices ->
  vget (of_int 0) (SMA prices period) (period - 1 + Z.of_nat k)
  = (sma_sum prices period k / of_int period)%num.
Proof.
  intros Hk. destruct k as [|k].
  - rewrite Z.add_0_r. apply SMA_seed_value.
  - rewrite SMA_unfold. unfold for_range. rewrite scan_written.
    + unfold sma_sum. rewrite to_size_t_small by lia.
      replace (Z.to_nat (period - 1 + Z.of_nat (Datatypes.S k) - period)) with k by lia.
      reflexivity.
    + lia.
    + rewrite vsize_vset, vsize_zeros. lia.
Qed.

Lemma SMA_warm_up (i : Z) :
  0 <= i < period - 1 -> vget (of_int 0) (SMA prices period) i = of_int 0.
Proof.
  intros Hi. rewrite SMA_unfold. unfold for_range. rewrite scan_untouched by lia.
  rewrite vget_vset_ne by lia. apply vget_replicate. unfold vsize in *. lia.
Qed.

Lemma EMA_warm_up (i : Z) :
  0 <= i < period - 1 -> vget (of_int 0) (EMA prices period) i = of_int 0.
Proof.
  intros Hi. rewrite EMA_unfold. unfold for_range. rewrite in_place_untouched by lia.
  rewrite vget_vset_ne by lia. apply vget_replicate. unfold vsize in *. lia.
Qed.

Lemma EMA_step (i : Z) :
  period <= i < vsize prices ->
  vget (of_int 0) (EMA prices period) i
  = ((vget (of_int 0) prices i - vget (of_int 0) (EMA prices period) (i - 1))
     * ema_multiplier period
     + vget (of_int 0) (EMA prices period) (i - 1))%num.
Proof.
  intros Hi. rewrite EMA_unfold. unfold for_range.
  set (start := vset (zeros (length prices)) (period - 1) _).
  set (body := fun i ema => vset ema i (ema_next prices period i ema)).
  set (n := Z.to_nat (vsize prices - period)).
  set (k := Z.to_nat (i - period)).
  replace i with (period + Z.of_nat k) by lia.
  assert (Hsize : vsize start = vsize prices).
  { subst start. rewrite vsize_vset. apply vsize_zeros. }
  subst body. rewrite (in_place_written (ema_next prices period)) by lia.
  unfold ema_next at 1. rewrite to_size_t_small by lia.
  rewrite (in_place_stable (ema_next prices period) (of_int 0) k n) by lia.
  reflexivity.
Qed.
End Averages.

Section AveragesTheorems.
Context {D : Type} `{Num D}.

(** X2. With [1 <= period <= size], [SMA] and [EMA] start from the same
    value: at index [period - 1] both hold the sum of the first [period]
    prices divided by [period], and both are 0 at every index below it. *)
Theorem moving_average_seed (prices : list D) (period : Z) :
  1 <= period -> period <= vsize prices -> vsize prices < 2 ^ 64 ->
  vget (of_int 0) (SMA prices period) (period - 1)
  = vget (of_int 0) (EMA prices period) (period - 1)
  /\ vget (of_int 0) (SMA prices period) (period - 1)
     = (sma_seed prices period / of_int period)%num
  /\ (forall i, 0 <= i < period - 1 ->
        vget (of_int 0) (SMA prices period) i = of_int 0
        /\ vget (of_int 0) (EMA prices period) i = of_int 0).
Proof.
  intros Hpos Hfits Hmax. split; [|split].
  - rewrite SMA_seed_value, EMA_seed_value by assumption. reflexivity.
  - now apply SMA_seed_value.
  - intros i Hi. split; [now apply SMA_warm_up | now apply EMA_warm_up].
Qed.

(** X3. From index [period] on, every value of [EMA] is
    [(price - previous) * (2 / (period + 1)) + previous], where [previous] is
    the value of [EMA] one index earlier. *)
Theorem EMA_recurrence (prices : list D) (period : Z) (i : Z) :
  1 <= period -> vsize prices < 2 ^ 64 -> period <= i < vsize prices ->
  vget (of_int 0) (EMA prices period) i
  = ((vget (of_int 0) prices i - vget (of_int 0) (EMA prices period) (i - 1))
     * (of_int 2 / (of_int period + of_int 1))
     + vget (of_int 0) (EMA prices period) (i - 1))%num.
Proof.
  intros Hpos Hmax Hi. apply EMA_step; lia.
Qed.
End AveragesTheorems.

Lemma moving_average_seed_witness :
  let prices := [1; 2; 3; 4]%float in
  vget 0%float (SMA prices 2) 1 = vget 0%float (EMA prices 2) 1
  /\ vget 0%float (SMA prices 2) 0 = 0%float.
Proof.
  intros prices.
  destruct (moving_average_seed prices 2) as (Hseed & _ & Hwarm);
    [lia | vm_compute; discriminate | vm_compute; reflexivity |].
  split; [exact Hseed | apply (Hwarm 0); lia].
Defined.

Lemma EMA_recurrence_witness :
  let prices := Scenario.rising in
  let zero := float_of_int 0 in
  vget zero (EMA prices 3) 5
  = ((vget zero prices 5 - vget zero (EMA prices 3) 4)
     * (float_of_int 2 / (float_of_int 3 + float_of_int 1))
     + vget zero (EMA prices 3) 4)%float.
Proof.
  intros prices zero.
  assert (Hi : 3 <= 5 < vsize prices) by (split; [lia | vm_compute; reflexivity]).
  exact (EMA_recurrence prices 3 5 ltac:(lia) ltac:(vm_compute; reflexivity) Hi).
Defined.

Lemma for_loop_inv_bounded {S : Type} (P : S -> Prop) (body : Z -> S -> S) lo :
  forall n s,
  (forall k s, (k < n)%nat -> P s -> P (body (lo + Z.of_nat k) s)) ->
  P s -> P (for_loop n lo body s).
Proof.
  induction n as [|n IH]; intros s Hbody Hs; [exact Hs|].
  rewrite for_loop_snoc. apply Hbody; [lia|]. apply IH; [|exact Hs].
  intros k s' Hk. apply Hbody. lia.
Qed.

(** ** The sliding window of [SMA] *)

Section RunningSum.
Context {D : Type} `{Num D}.

(** X4. From index [period] on, [SMA] does not add up its window again: the
    value at index [period + k] is the running sum divided by [period], and
    the running sum is the previous one minus the price that leaves the
    window, at index [k], plus the price that enters it, at index
    [period + k], in this order.  The first running sum is the sum of the
    first [period] prices, added up from the left. *)
Theorem SMA_running_sum (prices : list D) (period : Z) (k : nat) :
  1 <= period -> vsize prices < 2 ^ 64 -> period + Z.of_nat k < vsize prices ->
  vget (of_int 0) (SMA prices period) (period + Z.of_nat k)
  = (sma_sum prices period (Datatypes.S k) / of_int period)%num
  /\ sma_sum prices period (Datatypes.S k)
     = (sma_sum prices period k - vget (of_int 0) prices (Z.of_nat k)
        + vget (of_int 0) prices (period + Z.of_nat k))%num
  /\ sma_sum prices period 0
     = for_range 0 period (fun i sum => (sum + vget (of_int 0) prices i)%num) (of_int 0).
Proof.
  intros Hpos Hsize Hk. split; [|split].
  - replace (period + Z.of_nat k) with (period - 1 + Z.of_nat (Datatypes.S k)) by lia.
    apply SMA_at; lia.
  - unfold sma_sum. rewrite for_loop_snoc. unfold sma_slide at 1.
    rewrite !to_size_t_small by lia.
    replace (period + Z.of_nat k - period) with (Z.of_nat k) by lia.
    reflexivity.
  - reflexivity.
Qed.
End RunningSum.

Lemma SMA_running_sum_witness :
  vget 0%float (SMA Scenario.rising 3) 4 = (12 / 3)%float
  /\ sma_sum Scenario.rising 3 2 = (9 - 2 + 5)%float.
Proof.
  destruct (SMA_running_sum Scenario.rising 3 1
              ltac:(lia) ltac:(vm_compute; reflexivity) ltac:(vm_compute; reflexivity))
    as (Hvalue & Hsum & _).
  split.
  - etransitivity; [exact Hvalue | vm_compute; reflexivity].
  - etransitivity; [exact Hsum | vm_compute; reflexivity].
Defined.

(** ** The difference of two ordered numbers *)

Lemma SFleb_negative (mx : positive) (ex : Z) (my : positive) (ey : Z) :
  SFleb (S754_finite true mx ex) (S754_finite true my ey)
  = SFleb (S754_finite false my ey) (S754_finite false mx ex).
Proof.
  unfold SFleb, SFcompare. rewrite (Z.compare_antisym ex ey).
  destruct (ex ?= ey); cbn [CompOpp]; try reflexivity.
  rewrite !Pos.compare_cont_spec. cbn [Pos.switch_Eq].
  rewrite (Pos.compare_antisym mx my). now destruct (mx ?= my)%positive.
Qed.

Lemma SFsub_ordered (x y : spec_float) :
  valid_binary x = true -> valid_binary y = true ->
  match x with S754_zero _ | S754_finite _ _ _ => True | _ => False end ->
  match y with S754_zero _ | S754_finite _ _ _ => True | _ => False end ->
  SFleb x y = true ->
  SFleb (S754_zero false) (SF64sub y x) = true.
Proof.
  intros Hvx Hvy Hfx Hfy Hle.
  destruct x as [[|] | | | sx mx ex]; try contradiction;
    destruct y as [[|] | | | sy my ey]; try contradiction; try reflexivity.
  - destruct sy; [discriminate | reflexivity].
  - destruct sy; [discriminate | reflexivity].
  - destruct sx; [reflexivity | discriminate].
  - destruct sx; [reflexivity | discriminate].
  - cbn [valid_binary] in Hvx, Hvy. unfold SF64sub, SFsub.
    set (ez := Z.min ey ex).
    pose proof (shl_align_spec my ey ez) as [_ Hb].
    pose proof (shl_align_spec mx ex ez) as [_ Ha].
    replace (Z.min ey ez) with ez in Hb by lia.
    replace (Z.min ex ez) with ez in Ha by lia.
    set (b := fst (shl_align my ey ez)) in *.
    set (a := fst (shl_align mx ex ez)) in *.
    assert (Hdiff : 0 <= cond_Zopp sy (Zpos b) - cond_Zopp sx (Zpos a)).
    { destruct sx, sy; cbn [cond_Zopp].
      - rewrite SFleb_negative in Hle.
        pose proof (leb_value my ey mx ex ez Hvy Hvx Hle ltac:(lia) ltac:(lia)). lia.
      - lia.
      - discriminate.
      - pose proof (leb_value mx ex my ey ez Hvx Hvy Hle ltac:(lia) ltac:(lia)). lia. }
    destruct (cond_Zopp sy (Zpos b) - cond_Zopp sx (Zpos a)) as [|p|p];
      [reflexivity | | lia].
    cbn [binary_normalize]. apply binary_round_leb.
Qed.

Lemma float_sub_ordered (x y : float) :
  is_finite x = true -> is_finite y = true -> (x <=? y)%float = true ->
  (0 <=? y - x)%float = true.
Proof.
  rewrite !is_finite_SF, leb_spec, float_nonneg_SF, sub_spec. intros Hx Hy Hle.
  apply SFsub_ordered; auto using Prim2SF_valid.
Qed.

Lemma float_nonneg_not_neg (x : float) : (0 <=? x)%float = true -> (x <? 0)%float = false.
Proof.
  rewrite leb_spec, ltb_spec, Prim2SF_zero.
  destruct (Prim2SF x) as [[|] | [|] | | [|] m e]; cbn; congruence.
Qed.

Lemma float_nonneg_not_pos (x : float) :
  (0 <=? x)%float = true -> (0 <? x)%float = false -> (x =? 0)%float = true.
Proof.
  rewrite leb_spec, ltb_spec, FloatAxioms.eqb_spec, Prim2SF_zero.
  destruct (Prim2SF x) as [[|] | [|] | | [|] m e]; cbn; congruence.
Qed.

(** ** Arithmetic on zeros *)

Lemma float_zero_add (x y : float) :
  (x =? 0)%float = true -> (y =? 0)%float = true -> (x + y =? 0)%float = true.
Proof.
  intros Hx Hy. destruct (float_zero_cases x Hx) as [sx Hsx].
  destruct (float_zero_cases y Hy) as [sy Hsy].
  rewrite FloatAxioms.eqb_spec, add_spec, Hsx, Hsy, Prim2SF_zero.
  now destruct sx, sy.
Qed.

Lemma float_zero_mul (x c : float) :
  (x =? 0)%float = true -> is_finite c = true -> (x * c =? 0)%float = true.
Proof.
  intros Hx Hc. destruct (float_zero_cases x Hx) as [sx Hsx].
  apply is_finite_SF in Hc.
  rewrite FloatAxioms.eqb_spec, mul_spec, Hsx, Prim2SF_zero.
  destruct (Prim2SF c) as [sc | sc | | sc mc ec]; try contradiction; reflexivity.
Qed.

Lemma float_zero_div (x p : float) :
  (x =? 0)%float = true -> is_finite p = true -> (0 <? p)%float = true ->
  (x / p =? 0)%float = true.
Proof.
  intros Hx Hf Hp. destruct (float_zero_cases x Hx) as [sx Hsx].
  apply is_finite_SF in Hf. rewrite ltb_spec, Prim2SF_zero in Hp.
  rewrite FloatAxioms.eqb_spec, div_spec, Hsx, Prim2SF_zero.
  destruct (Prim2SF p) as [sp | sp | | sp mp ep]; try contradiction; try discriminate.
  reflexivity.
Qed.

(** ** A series that never falls *)

Section NeverFalling.
Variable prices : list float.
Variable period : Z.
Hypothesis period_pos : 1 <= period.
Hypothesis period_int : period < 2 ^ 31.
Hypothesis size_fits : vsize prices < 2 ^ 64.
Hypothesis prices_finite : Forall (fun x => is_finite x = true) prices.
Hypothesis never_falls :
  forall i, 1 <= i < vsize prices ->
    (vget 0 prices (i - 1) <=? vget 0 prices i)%float = true.

Lemma price_finite (i : Z) :
  0 <= i < vsize prices -> is_finite (vget 0%float prices i) = true.
Proof.
  intros Hi. rewrite vget_nth by assumption.
  pose proof (proj1 (List.Forall_forall _ _) prices_finite) as Hall.
  apply Hall, nth_In. unfold vsize in Hi. lia.
Qed.

Lemma change_nonneg (i : Z) :
  1 <= i < vsize prices ->
  (0 <=? vget 0 prices i - vget 0 prices (to_size_t (i - 1)))%float = true.
Proof.
  intros Hi. rewrite to_size_t_small by lia.
  apply float_sub_ordered; [apply price_finite; lia | apply price_finite; lia |].
  now apply never_falls.
Qed.

Lemma rsi_init_no_loss :
  period < vsize prices -> (snd (rsi_init prices period) =? 0)%float = true.
Proof.
  intros Hfits. unfold rsi_init.
  match goal with
  | |- context [for_range ?lo ?hi ?f ?s] =>
      assert (Hacc : (snd (for_range lo hi f s) =? 0)%float = true)
  end.
  { unfold for_range.
    apply (for_loop_inv_bounded (fun acc : float * float => (snd acc =? 0)%float = true));
      [|reflexivity].
    intros k [avgGain avgLoss] Hk Hl. cbn [snd] in *.
    cbn [ltb sub add neg of_int binary64].
    pose proof (change_nonneg (1 + Z.of_nat k) ltac:(lia)) as Hchange.
    change (float_of_int 0) with 0%float.
    set (change := (vget 0 prices (1 + Z.of_nat k) - vget 0 prices _)%float) in *.
    destruct (0 <? change)%float eqn:Hpos; cbn [snd]; [assumption|].
    apply float_zero_add; [assumption|].
    apply float_opp_zero. now apply float_nonneg_not_pos. }
  destruct (for_range _ _ _ _) as [avgGain avgLoss]. cbn [snd] in *.
  cbn [div of_int binary64].
  destruct (float_of_int_positive period ltac:(lia)) as [Hf Hp].
  now apply float_zero_div.
Qed.

Lemma rsi_avg_no_loss (k : nat) :
  period + Z.of_nat k < vsize prices ->
  (snd (rsi_avg prices period k) =? 0)%float = true.
Proof.
  intros Hk. unfold rsi_avg. rewrite to_size_t_small by lia.
  apply (for_loop_inv_bounded (fun avg : float * float => (snd avg =? 0)%float = true)).
  - intros j [avgGain avgLoss] Hj Hl. cbn [snd] in *.
    unfold rsi_smooth. cbn [ltb sub add mul div neg of_int binary64 snd].
    pose proof (change_nonneg (period + 1 + Z.of_nat j) ltac:(lia)) as Hchange.
    change (float_of_int 0) with 0%float.
    set (change := (vget 0 prices (period + 1 + Z.of_nat j) - vget 0 prices _)%float) in *.
    rewrite (float_nonneg_not_neg _ Hchange).
    destruct (float_of_int_positive period ltac:(lia)) as [Hf Hp].
    destruct (float_of_int_nonneg (period - 1) ltac:(lia)) as [Hfc _].
    apply float_zero_div; [|assumption|assumption].
    apply float_zero_add; [|reflexivity]. now apply float_zero_mul.
  - apply rsi_init_no_loss. lia.
Qed.

(** X6. On binary64, over finite prices that never fall from one bar to the
    next, the average loss stays 0: from index [period] on every value of
    [RSI] is [100 - 100 / (1 + 100)], about 99.01, for every period of at
    least 1. *)
Theorem RSI_never_falling (i : Z) :
  period <= i < vsize prices ->
  vget 0%float (RSI prices period) i = (100 - 100 / (1 + 100))%float.
Proof.
  intros Hi.
  replace i with (period + Z.of_nat (Z.to_nat (i - period))) by lia.
  assert (Hat := RSI_at prices period (Z.to_nat (i - period))
                   ltac:(lia) size_fits ltac:(lia)).
  change (of_int 0) with 0%float in Hat. rewrite Hat.
  pose proof (rsi_avg_no_loss (Z.to_nat (i - period)) ltac:(lia)) as Hloss.
  unfold rsi_value, rsi_rs. cbn [eqb sub div add of_int binary64].
  change (float_of_int 0) with 0%float. rewrite Hloss. reflexivity.
Qed.
End NeverFalling.

Lemma RSI_never_falling_witness :
  let prices := [1; 2; 2; 4]%float in
  vget 0%float (RSI prices 2) 3 = (100 - 100 / (1 + 100))%float.
Proof.
  intros prices. apply (RSI_never_falling prices 2).
  - lia.
  - lia.
  - vm_compute; reflexivity.
  - repeat constructor.
  - intros i Hi.
    assert (Hcase : i = 1 \/ i = 2 \/ i = 3) by (change (vsize prices) with 4 in Hi; lia).
    destruct Hcase as [-> | [-> | ->]]; vm_compute; reflexivity.
  - split; [lia | vm_compute; reflexivity].
Defined.

(** ** Accesses of the moving averages *)

Lemma vget_checked_some {A} (v : list A) i :
  0 <= i < vsize v -> exists x, vget_checked v i = Some x.
Proof.
  intros Hi. unfold vget_checked. apply in_bounds_true in Hi as Hb. rewrite Hb.
  apply lookup_lt_is_Some_2. unfold vsize in Hi. lia.
Qed.

Lemma vset_checked_some {A} (v : list A) i x :
  0 <= i < vsize v -> vset_checked v i x = Some (vset v i x).
Proof.
  intros Hi. unfold vset_checked, vset. apply in_bounds_true in Hi as Hb.
  now rewrite Hb.
Qed.

Lemma vset_checked_none {A} (v : list A) i x :
  vsize v <= i -> vset_checked v i x = None.
Proof.
  intros Hi. unfold vset_checked, in_bounds. fold (vsize v).
  destruct (Z.ltb_spec i (vsize v)); [lia|]. now rewrite andb_false_r.
Qed.

Lemma for_loop_checked_some {S : Type} (I : S -> Prop) (body : Z -> S -> option S) :
  forall n lo s,
  (forall k s, (k < n)%nat -> I s -> exists s', body (lo + Z.of_nat k) s = Some s' /\ I s') ->
  I s -> exists s', for_loop_checked n lo body s = Some s' /\ I s'.
Proof.
  induction n as [|n IH]; intros lo s Hbody Hs.
  - exists s. now split.
  - cbn [for_loop_checked].
    destruct (Hbody O s ltac:(lia) Hs) as (s1 & Hstep & Hs1).
    rewrite Z.add_0_r in Hstep. rewrite Hstep. cbn.
    apply IH; [|exact Hs1].
    intros k s2 Hk Hs2.
    replace (lo + 1 + Z.of_nat k) with (lo + Z.of_nat (Datatypes.S k)) by lia.
    apply Hbody; [lia | exact Hs2].
Qed.

Section Accesses.
Context {D : Type} `{Num D}.
Variable prices : list D.

Lemma seed_checked_some (period : Z) :
  period <= vsize prices ->
  exists sum,
    for_range_checked 0 period
      (fun i sum => x ← vget_checked prices i; Some (sum + x)%num) (of_int 0)
    = Some sum.
Proof.
  intros Hfits. unfold for_range_checked.
  destruct (for_loop_checked_some (fun _ => True)
              (fun i sum => x ← vget_checked prices i; Some (sum + x)%num)
              (Z.to_nat (period - 0)) 0 (of_int 0)) as (sum & Hsum & _); [|exact I|].
  - intros k s Hk _. destruct (vget_checked_some prices (0 + Z.of_nat k)) as [x Hx]; [lia|].
    rewrite Hx. cbn. eauto.
  - eauto.
Qed.

(** X7. With [1 <= period <= size] no access of [SMA] or [EMA] leaves its
    vector: the bounds-checked programs return, and return the same series. *)
Theorem moving_average_in_bounds (period : Z) :
  1 <= period -> period <= vsize prices -> vsize prices < 2 ^ 64 ->
  SMA_checked prices period = Some (SMA prices period)
  /\ EMA_checked prices period = Some (EMA prices period).
Proof.
  intros Hpos Hfits Hmax.
  assert (Hzeros : vsize (zeros (length prices) : list D) = vsize prices)
    by (unfold vsize; now rewrite length_zeros).
  destruct (seed_checked_some period Hfits) as [sum Hsum].
  split.
  - enough (Hsome : exists sma, SMA_checked prices period = Some sma).
    { destruct Hsome as [sma Hsma]. rewrite Hsma.
      now rewrite (SMA_checked_sound _ _ _ Hsma). }
    unfold SMA_checked. rewrite !to_size_t_small by lia.
    destruct (Z.ltb_spec (vsize prices) period) as [Hshort | _]; [lia|].
    rewrite Hsum. cbn [mbind option_bind].
    rewrite vset_checked_some by (rewrite Hzeros; lia). cbn [mbind option_bind].
    unfold for_range_checked.
    match goal with
    | |- context [for_loop_checked ?n ?lo ?body ?s] =>
        destruct (for_loop_checked_some
                    (fun st : D * list D => vsize (snd st) = vsize prices)
                    body n lo s) as (st & Hst & _)
    end.
    + intros k [s v] Hk Hv. cbn [snd] in Hv.
      destruct (vget_checked_some prices
                  (to_size_t (period + Z.of_nat k - period))) as [old Hold].
      { rewrite to_size_t_small by lia. lia. }
      destruct (vget_checked_some prices (period + Z.of_nat k)) as [new Hnew]; [lia|].
      rewrite Hold. cbn [mbind option_bind]. rewrite Hnew. cbn [mbind option_bind].
      rewrite vset_checked_some by lia. cbn [mbind option_bind].
      eexists. split; [reflexivity|]. cbn [snd]. now rewrite vsize_vset.
    + cbn [snd]. now rewrite vsize_vset.
    + rewrite Hst. cbn. eauto.
  - enough (Hsome : exists ema, EMA_checked prices period = Some ema).
    { destruct Hsome as [ema Hema]. rewrite Hema.
      now rewrite (EMA_checked_sound _ _ _ Hema). }
    unfold EMA_checked. rewrite !to_size_t_small by lia.
    destruct (Z.ltb_spec (vsize prices) period) as [Hshort | _]; [lia|].
    rewrite Hsum. cbn [mbind option_bind].
    rewrite vset_checked_some by (rewrite Hzeros; lia). cbn [mbind option_bind].
    unfold for_range_checked.
    match goal with
    | |- context [for_loop_checked ?n ?lo ?body ?s] =>
        destruct (for_loop_checked_some
                    (fun v : list D => vsize v = vsize prices)
                    body n lo s) as (v & Hv & _)
    end.
    + intros k v Hk Hv.
      destruct (vget_checked_some prices (period + Z.of_nat k)) as [price Hprice]; [lia|].
      destruct (vget_checked_some v (to_size_t (period + Z.of_nat k - 1)))
        as [previous Hprevious].
      { rewrite to_size_t_small by lia. lia. }
      rewrite Hprice. cbn [mbind option_bind]. rewrite Hprevious. cbn [mbind option_bind].
      rewrite vset_checked_some by lia.
      eexists. split; [reflexivity|]. now rewrite vsize_vset.
    + now rewrite vsize_vset.
    + eauto.
Qed.

(** X8. Period 0 makes [SMA] and [EMA] write at index [size_t(-1)], outside
    the vector; a negative period is read as a huge [size_t], so that both
    return the all-zero series without any access outside. *)
Theorem moving_average_degenerate_period :
  vsize prices < 2 ^ 63 ->
  (SMA_checked prices 0 = None /\ EMA_checked prices 0 = None)
  /\ (forall period, in_int period -> period < 0 ->
        SMA_checked prices period = Some (SMA prices period)
        /\ EMA_checked prices period = Some (EMA prices period)
        /\ SMA prices period = zeros (length prices)
        /\ EMA prices period = zeros (length prices)).
Proof.
  intros Hmax. split.
  - assert (Hguard : (vsize prices <? to_size_t 0) = false).
    { apply Z.ltb_ge. change (to_size_t 0) with 0. unfold vsize. lia. }
    assert (Hlast : to_size_t (0 - 1) = 2 ^ 64 - 1) by reflexivity.
    unfold SMA_checked, EMA_checked. rewrite Hguard.
    change (for_range_checked 0 0 _ _) with (Some (of_int 0 : D)).
    cbn [mbind option_bind]. rewrite Hlast.
    rewrite vset_checked_none; [now split|].
    unfold vsize in *. rewrite length_zeros. lia.
  - intros period Hint Hneg.
    assert (Hguard : (vsize prices <? to_size_t period) = true).
    { apply Z.ltb_lt. unfold to_size_t, in_int in *.
      replace (period mod 2 ^ 64) with (period + 2 ^ 64); [lia|].
      apply Z.mod_unique with (q := -1); lia. }
    unfold SMA_checked, EMA_checked, SMA, EMA. rewrite Hguard. auto.
Qed.
End Accesses.

Lemma moving_average_in_bounds_witness :
  SMA_checked Scenario.rising 3 = Some (SMA Scenario.rising 3)
  /\ EMA_checked Scenario.rising 3 = Some (EMA Scenario.rising 3).
Proof.
  apply (moving_average_in_bounds Scenario.rising 3);
    [lia | vm_compute; discriminate | vm_compute; reflexivity].
Defined.

Lemma moving_average_degenerate_period_witness :
  SMA_checked Scenario.rising 0 = None
  /\ SMA_checked Scenario.rising (-1) = Some (zeros 16).
Proof.
  destruct (moving_average_degenerate_period Scenario.rising) as [[Hzero _] Hneg];
    [vm_compute; reflexivity |].
  split; [exact Hzero|].
  destruct (Hneg (-1)) as (Hsome & _ & Hval & _); [unfold in_int; lia | lia |].
  rewrite Hsome, Hval. reflexivity.
Defined.

(** ** Series computed index by index *)

Lemma tabulate_get {B : Type} (f : Z -> B) (d : B) (v : list B) (n i : Z) :
  n = vsize v -> 0 <= i < n ->
  vget d (for_range 0 n (fun i w => vset w i (f i)) v) i = f i.
Proof.
  intros -> Hi. unfold for_range. rewrite Z.sub_0_r.
  replace i with (0 + Z.of_nat (Z.to_nat i)) by lia.
  apply (in_place_written (fun i _ => f i)); lia.
Qed.

Section Pointwise.
Context {D : Type} `{Num D} `{Sqrt D}.

Lemma vget_zeros (n : nat) (i : Z) : vget (of_int 0) (zeros n : list D) i = of_int 0.
Proof.
  unfold vget. destruct (in_bounds _ i) eqn:Hb; [|reflexivity].
  apply in_bounds_true in Hb. unfold vsize, zeros in Hb. rewrite length_replicate in Hb.
  apply nth_lookup_Some. apply lookup_replicate_2. lia.
Qed.

Lemma vsize_zeros_of (prices : list D) : vsize prices = vsize (zeros (length prices) : list D).
Proof. unfold vsize. now rewrite length_zeros. Qed.

Lemma StdDev_warm_up (prices : list D) (period i : Z) :
  i < to_size_t (period - 1) ->
  vget (of_int 0) (StdDev prices period) i = of_int 0.
Proof.
  intros Hi. unfold StdDev, for_range.
  rewrite (in_place_untouched
             (fun i _ => sqrt (div (for_loop (Z.to_nat (period - 0)) 0
                (fun j sum => add sum (mul
                   (sub (vget (of_int 0) prices (to_size_t (i - to_size_t j)))
                        (vget (of_int 0) (SMA prices period) i))
                   (sub (vget (of_int 0) prices (to_size_t (i - to_size_t j)))
                        (vget (of_int 0) (SMA prices period) i))))
                (of_int 0)) (of_int period)))) by lia.
  apply vget_zeros.
Qed.

(** X9. At every index, the MACD line is the fast EMA minus the slow EMA, the
    signal is the EMA of the MACD line, and the histogram is the MACD line
    minus the signal.  The MACD line is not masked while the slow EMA warms
    up: below index [slow - 1] it is the fast EMA minus 0. *)
Theorem MACD_series (prices : list D) (fast slow sig : Z) (i : Z) :
  0 <= i < vsize prices ->
  let r := MACD prices fast slow sig in
  vget (of_int 0) (macd r) i
  = (vget (of_int 0) (EMA prices fast) i - vget (of_int 0) (EMA prices slow) i)%num
  /\ signal r = EMA (macd r) sig
  /\ vget (of_int 0) (histogram r) i
     = (vget (of_int 0) (macd r) i - vget (of_int 0) (signal r) i)%num
  /\ (1 <= slow <= vsize prices -> vsize prices < 2 ^ 64 -> i < slow - 1 ->
      vget (of_int 0) (macd r) i = (vget (of_int 0) (EMA prices fast) i - of_int 0)%num).
Proof.
  intros Hi r. subst r. unfold MACD. cbn [macd signal histogram].
  assert (Hm : vget (of_int 0)
                 (for_range 0 (vsize prices)
                    (fun i macd => vset macd i
                       (vget (of_int 0) (EMA prices fast) i
                        - vget (of_int 0) (EMA prices slow) i)%num)
                    (zeros (length prices))) i
               = (vget (of_int 0) (EMA prices fast) i
                  - vget (of_int 0) (EMA prices slow) i)%num).
  { apply (tabulate_get (fun i => (vget (of_int 0) (EMA prices fast) i
                                   - vget (of_int 0) (EMA prices slow) i)%num));
      [apply vsize_zeros_of | exact Hi]. }
  split; [exact Hm|]. split; [reflexivity|]. split.
  - match goal with
    | |- vget _ (for_range 0 _ (fun i hist => vset hist i (@?f i)) _) _ = _ =>
        apply (tabulate_get f); [apply vsize_zeros_of | exact Hi]
    end.
  - intros Hslow Hfits Hwarm. rewrite Hm.
    now rewrite (EMA_warm_up prices slow) by lia.
Qed.

(** X10. The middle band is the SMA; at every index the upper band is the
    middle plus, and the lower band the middle minus, [numStdDev] times the
    standard deviation; below index [period - 1] all three are built from
    zeros. *)
Theorem BollingerBand_series (prices : list D) (period : Z) (k : D) (i : Z) :
  0 <= i < vsize prices ->
  let b := BollingerBand prices period k in
  middle b = SMA prices period
  /\ vget (of_int 0) (upper b) i
     = (vget (of_int 0) (middle b) i + k * vget (of_int 0) (StdDev prices period) i)%num
  /\ vget (of_int 0) (lower b) i
     = (vget (of_int 0) (middle b) i - k * vget (of_int 0) (StdDev prices period) i)%num
  /\ (1 <= period <= vsize prices -> vsize prices < 2 ^ 64 -> i < period - 1 ->
      vget (of_int 0) (middle b) i = of_int 0
      /\ vget (of_int 0) (upper b) i = (of_int 0 + k * of_int 0)%num
      /\ vget (of_int 0) (lower b) i = (of_int 0 - k * of_int 0)%num).
Proof.
  intros Hi b. subst b. unfold BollingerBand. cbn [upper middle lower].
  assert (Hu : forall op : D -> D -> D,
             vget (of_int 0)
               (for_range 0 (vsize prices)
                  (fun i v => vset v i
                     (op (vget (of_int 0) (SMA prices period) i)
                         (k * vget (of_int 0) (StdDev prices period) i)%num))
                  (zeros (length prices))) i
             = op (vget (of_int 0) (SMA prices period) i)
                  (k * vget (of_int 0) (StdDev prices period) i)%num).
  { intros op.
    apply (tabulate_get (fun i => op (vget (of_int 0) (SMA prices period) i)
                                     (k * vget (of_int 0) (StdDev prices period) i)%num));
      [apply vsize_zeros_of | exact Hi]. }
  split; [reflexivity|]. split; [exact (Hu add)|]. split; [exact (Hu sub)|].
  intros Hp Hfits Hwarm.
  assert (Hs : vget (of_int 0) (SMA prices period) i = of_int 0)
    by (apply SMA_warm_up; lia).
  assert (Hd : vget (of_int 0) (StdDev prices period) i = of_int 0)
    by (apply StdDev_warm_up; rewrite to_size_t_small by lia; lia).
  split; [exact Hs|]. split.
  - rewrite (Hu add), Hs, Hd. reflexivity.
  - rewrite (Hu sub), Hs, Hd. reflexivity.
Qed.
End Pointwise.

Lemma MACD_series_witness :
  let r := MACD Scenario.rising 2 4 3 in
  let zero := float_of_int 0 in
  vget zero (macd r) 5
  = (vget zero (EMA Scenario.rising 2) 5 - vget zero (EMA Scenario.rising 4) 5)%float
  /\ vget zero (macd r) 1 = (vget zero (EMA Scenario.rising 2) 1 - zero)%float.
Proof.
  intros r zero.
  assert (Hsize : vsize Scenario.rising = 16) by reflexivity.
  destruct (MACD_series Scenario.rising 2 4 3 5 ltac:(rewrite Hsize; lia))
    as (Hline & _).
  destruct (MACD_series Scenario.rising 2 4 3 1 ltac:(rewrite Hsize; lia))
    as (_ & _ & _ & Hwarm).
  split; [exact Hline|].
  exact (Hwarm ltac:(rewrite Hsize; lia) ltac:(rewrite Hsize; lia) ltac:(lia)).
Defined.

Lemma BollingerBand_series_witness :
  let b := BollingerBand Scenario.rising 3 2%float in
  let zero := float_of_int 0 in
  vget zero (upper b) 5
  = (vget zero (SMA Scenario.rising 3) 5
     + 2 * vget zero (StdDev Scenario.rising 3) 5)%float
  /\ vget zero (lower b) 5
     = (vget zero (SMA Scenario.rising 3) 5
        - 2 * vget zero (StdDev Scenario.rising 3) 5)%float.
Proof.
  intros b zero.
  destruct (BollingerBand_series Scenario.rising 3 2%float 5) as (_ & Hup & Hlow & _);
    [split; [lia | vm_compute; reflexivity] |].
  split; [exact Hup | exact Hlow].
Defined.

(** * Further properties of the engine *)

(** ** Binary64 facts *)

(** ** More of the arithmetic of binary64 *)

(** A number that is neither infinite nor NaN nor zero. *)
Lemma float_finite_nonzero (x : float) :
  is_finite x = true -> (x =? 0)%float = false ->
  exists s m e, Prim2SF x = S754_finite s m e.
Proof.
  unfold is_finite, is_nan, is_infinity.
  rewrite !FloatAxioms.eqb_spec, abs_spec, Prim2SF_zero.
  change (Prim2SF infinity) with (S754_infinity false).
  destruct (Prim2SF x) as [s | s | | s m e]; cbn; try destruct s; try discriminate.
  all: intros _ _; eauto.
Qed.

Lemma float_sub_self (x : float) :
  Prim2SF (x - x) = S754_zero false \/ Prim2SF (x - x) = S754_nan.
Proof.
  rewrite sub_spec. destruct (Prim2SF x) as [s | s | | s m e].
  - left. now destruct s.
  - right. now destruct s.
  - now right.
  - left. unfold SF64sub, SFsub. rewrite Z.min_id.
    unfold shl_align. rewrite Z.sub_diag. cbn [fst]. reflexivity.
Qed.

Lemma float_sub_self_finite (x : float) (s : bool) (m : positive) (e : Z) :
  Prim2SF x = S754_finite s m e -> (x - x)%float = 0%float.
Proof.
  intros Hx. apply Prim2SF_inj. rewrite sub_spec, Hx, Prim2SF_zero.
  unfold SF64sub, SFsub. rewrite Z.min_id.
  unfold shl_align. rewrite Z.sub_diag. cbn [fst]. reflexivity.
Qed.

Lemma float_mul_zero (x z : float) (s : bool) (m : positive) (e : Z) :
  Prim2SF x = S754_finite s m e -> (z =? 0)%float = true ->
  exists s', Prim2SF (x * z) = S754_zero s'.
Proof.
  intros Hx Hz. destruct (float_zero_cases z Hz) as [sz Hsz].
  rewrite mul_spec, Hx, Hsz. cbn. eauto.
Qed.

Lemma float_sub_zero (x z : float) (s : bool) (m : positive) (e : Z) (sz : bool) :
  Prim2SF x = S754_finite s m e -> Prim2SF z = S754_zero sz -> (x - z)%float = x.
Proof.
  intros Hx Hz. apply Prim2SF_inj. now rewrite sub_spec, Hx, Hz.
Qed.

Lemma float_add_zero (x : float) (s : bool) (m : positive) (e : Z) :
  Prim2SF x = S754_finite s m e -> (x + 0)%float = x.
Proof.
  intros Hx. apply Prim2SF_inj. now rewrite add_spec, Hx, Prim2SF_zero.
Qed.

Lemma float_lt_irrefl (x : float) : (x <? x)%float = false.
Proof.
  rewrite ltb_spec. destruct (Prim2SF x) as [s | s | | s m e]; cbn;
    try destruct s; try reflexivity.
  - rewrite Z.compare_refl. now rewrite Pos.compare_cont_refl.
  - rewrite Z.compare_refl. now rewrite Pos.compare_cont_refl.
Qed.

(** Quotients and multiples of a zero or a NaN are zeros or NaNs. *)
Lemma zero_or_nan_sub_self (x : float) : zero_or_nan (x - x).
Proof. unfold zero_or_nan. now destruct (float_sub_self x) as [-> | ->]. Qed.

Lemma zero_or_nan_div (x y : float) : zero_or_nan x -> zero_or_nan (x / y).
Proof.
  unfold zero_or_nan. rewrite div_spec.
  destruct (Prim2SF x) as [s | s | | s m e]; try contradiction; intros _;
    destruct (Prim2SF y) as [sy | sy | | sy my ey]; exact I.
Qed.

Lemma zero_or_nan_mul_hundred (x : float) : zero_or_nan x -> zero_or_nan (x * 100).
Proof.
  unfold zero_or_nan. rewrite mul_spec, Prim2SF_hundred.
  destruct (Prim2SF x) as [s | s | | s m e]; try contradiction; intros _; exact I.
Qed.

Lemma zero_or_nan_not_pos (x : float) : zero_or_nan x -> (0 <? x)%float = false.
Proof.
  unfold zero_or_nan. rewrite ltb_spec, Prim2SF_zero.
  destruct (Prim2SF x) as [s | s | | s m e]; try contradiction; reflexivity.
Qed.

Lemma float_nonneg_lt (a b : float) :
  (0 <=? a)%float = true -> (a <? b)%float = true -> (0 <=? b)%float = true.
Proof.
  rewrite !leb_spec, ltb_spec, Prim2SF_zero.
  destruct (Prim2SF a) as [sa | sa | | sa ma ea];
    destruct (Prim2SF b) as [sb | sb | | sb mb eb]; cbn;
    try destruct sa; try destruct sb; cbn; congruence.
Qed.

(** ** The two states of the ledger *)

Lemma run_prefix_inv (P : Backtester -> Prop) data p :
  P (Backtester_new p) ->
  (forall i bt, open_trade_tracked bt -> P bt -> inPosition bt = false ->
                P (enterPosition data p i bt)) ->
  (forall i bt, open_trade_tracked bt -> P bt -> inPosition bt = true ->
                P (exitPosition data p i bt)) ->
  forall n, P (run_prefix data p n (Backtester_new p)).
Proof.
  intros Hnew Henter Hexit n.
  enough (Hboth : open_trade_tracked (run_prefix data p n (Backtester_new p))
                  /\ P (run_prefix data p n (Backtester_new p))) by apply Hboth.
  unfold run_prefix.
  apply (for_loop_inv (fun bt => open_trade_tracked bt /\ P bt)).
  - intros i bt [Htracked Hbt]. split; [now apply run_step_tracked|].
    destruct (run_step_cases data p (run_series data p) i bt)
      as [-> | [[Hflat ->] | [Hlong ->]]]; auto.
  - split; [apply Backtester_new_tracked | exact Hnew].
Qed.

Lemma run_final data p :
  run data p (Backtester_new p) = Backtester_new p
  \/ (exists n, run data p (Backtester_new p) = run_prefix data p n (Backtester_new p)
               /\ inPosition (run_prefix data p n (Backtester_new p)) = false)
  \/ (exists n, run data p (Backtester_new p)
                = exitPosition data p (to_size_t (vsize data - 1))
                    (run_prefix data p n (Backtester_new p))
               /\ inPosition (run_prefix data p n (Backtester_new p)) = true).
Proof.
  rewrite run_unfold. destruct (_ <? _); [now left|]. right.
  rewrite run_pass_prefix.
  destruct (inPosition (run_prefix data p _ (Backtester_new p))) eqn:Hin;
    [right | left]; eauto.
Qed.

(** X11. At every point of a run the ledger is in one of two states: with a
    position open the cash is exactly 0, and with no position the shares are
    exactly 0.  A run always ends with no position and no shares. *)
Theorem ledger_two_states (data : list OHLCV) (p : Params) :
  (forall n, let bt := run_prefix data p n (Backtester_new p) in
     (inPosition bt = true -> currentCash bt = 0%float)
     /\ (inPosition bt = false -> currentShares bt = 0%float))
  /\ inPosition (run data p (Backtester_new p)) = false
  /\ currentShares (run data p (Backtester_new p)) = 0%float.
Proof.
  assert (Hprefix : forall n, let bt := run_prefix data p n (Backtester_new p) in
     (inPosition bt = true -> currentCash bt = 0%float)
     /\ (inPosition bt = false -> currentShares bt = 0%float)).
  { apply (run_prefix_inv (fun bt =>
       (inPosition bt = true -> currentCash bt = 0%float)
       /\ (inPosition bt = false -> currentShares bt = 0%float))).
    - split; [discriminate | reflexivity].
    - intros i bt _ _ _. split; [reflexivity | discriminate].
    - intros i bt _ _ _. split; [discriminate | reflexivity]. }
  split; [exact Hprefix|].
  destruct (run_final data p) as [-> | [(n & -> & Hflat) | (n & -> & _)]].
  - split; reflexivity.
  - split; [exact Hflat | now apply (Hprefix n)].
  - split; reflexivity.
Qed.

(** ** The trade log *)

Lemma closed_part_enter data p i bt :
  inPosition bt = false -> closed_part (enterPosition data p i bt) = closed_part bt.
Proof.
  intros Hflat. unfold closed_part. rewrite Hflat. cbn [inPosition trades enterPosition].
  apply removelast_last.
Qed.

Lemma closed_part_exit data p i bt :
  open_trade_tracked bt -> inPosition bt = true ->
  exists t, closed_part (exitPosition data p i bt) = closed_part bt ++ [t]
            /\ settled p t.
Proof.
  intros Htracked Hlong. destruct (Htracked Hlong) as [Hne Hshares].
  unfold closed_part at 1 2. rewrite Hlong.
  unfold exitPosition. cbn [inPosition trades].
  rewrite with_back_removelast by assumption.
  eexists. split; [reflexivity|].
  unfold settled, net_proceeds, gross_proceeds, cost_basis, booked_return.
  cbn [pnl shares exitPrice entryPrice returnPct]. rewrite Hshares.
  split; reflexivity.
Qed.

Lemma closed_part_step data p s i bt :
  open_trade_tracked bt ->
  closed_part (run_step data p s i bt) = closed_part bt
  \/ exists t, closed_part (run_step data p s i bt) = closed_part bt ++ [t]
               /\ settled p t.
Proof.
  intros Htracked.
  destruct (run_step_cases data p s i bt) as [-> | [[Hflat ->] | [Hlong ->]]].
  - now left.
  - left. now apply closed_part_enter.
  - right. now apply closed_part_exit.
Qed.

Lemma closed_part_prefix data p n m :
  (n <= m)%nat ->
  closed_part (run_prefix data p n (Backtester_new p))
  `prefix_of` closed_part (run_prefix data p m (Backtester_new p)).
Proof.
  intros Hnm. induction Hnm as [|m Hnm IH]; [reflexivity|].
  rewrite run_prefix_succ.
  destruct (closed_part_step data p (run_series data p)
              (to_size_t (longPeriod p) + Z.of_nat m)
              (run_prefix data p m (Backtester_new p))
              (run_prefix_tracked data p m)) as [-> | (t & -> & _)].
  - exact IH.
  - now apply prefix_app_r.
Qed.

Lemma trades_count_step data p s i bt :
  open_trade_tracked bt ->
  (length (trades bt) <= length (trades (run_step data p s i bt))
   <= Datatypes.S (length (trades bt)))%nat.
Proof.
  intros Htracked.
  destruct (run_step_cases data p s i bt) as [-> | [[Hflat ->] | [Hlong ->]]].
  - lia.
  - cbn [trades enterPosition]. rewrite length_app. cbn. lia.
  - destruct (Htracked Hlong) as [Hne _]. cbn [trades exitPosition].
    rewrite with_back_removelast by assumption.
    rewrite length_app. cbn.
    destruct (trades bt) as [|t ts] using rev_ind; [congruence|].
    rewrite removelast_last, length_app. cbn. lia.
Qed.

Lemma closed_part_run data p :
  (vsize data <? to_size_t (longPeriod p + 1)) = false ->
  exists n,
    n = Z.to_nat (vsize data - to_size_t (longPeriod p))
    /\ closed_part (run_prefix data p n (Backtester_new p))
       `prefix_of` trades (run data p (Backtester_new p))
    /\ closed_part (run data p (Backtester_new p)) = trades (run data p (Backtester_new p)).
Proof.
  intros Hguard. eexists. split; [reflexivity|].
  rewrite run_unfold, Hguard, run_pass_prefix.
  set (n := Z.to_nat _). set (bt := run_prefix data p n (Backtester_new p)).
  destruct (inPosition bt) eqn:Hin.
  - destruct (closed_part_exit data p (to_size_t (vsize data - 1)) bt
                (run_prefix_tracked data p n) Hin) as (t & Hclosed & _).
    unfold closed_part at 1 in Hclosed. cbn [inPosition exitPosition] in Hclosed.
    split; [|reflexivity].
    rewrite Hclosed. now apply prefix_app_r.
  - unfold closed_part. rewrite Hin. split; reflexivity.
Qed.

(** X12. Closed trades are never changed or removed: the closed part of the
    log at an earlier point of a run is a prefix of the closed part at every
    later point, and of the final log; and the log holds at most one trade
    for each bar processed. *)
Theorem trade_log_append_only (data : list OHLCV) (p : Params) :
  (forall n m, (n <= m)%nat ->
     closed_part (run_prefix data p n (Backtester_new p))
     `prefix_of` closed_part (run_prefix data p m (Backtester_new p)))
  /\ (forall n, (n <= Z.to_nat (vsize data - to_size_t (longPeriod p)))%nat ->
        (vsize data <? to_size_t (longPeriod p + 1)) = false ->
        closed_part (run_prefix data p n (Backtester_new p))
        `prefix_of` trades (run data p (Backtester_new p)))
  /\ (forall n, (length (trades (run_prefix data p n (Backtester_new p))) <= n)%nat).
Proof.
  split; [|split].
  - intros n m. apply closed_part_prefix.
  - intros n Hn Hguard.
    destruct (closed_part_run data p Hguard) as (N & -> & Hprefix & _).
    etransitivity; [|exact Hprefix]. now apply closed_part_prefix.
  - intros n. induction n as [|n IH]; [cbn; lia|].
    rewrite run_prefix_succ.
    pose proof (trades_count_step data p (run_series data p)
                  (to_size_t (longPeriod p) + Z.of_nat n)
                  (run_prefix data p n (Backtester_new p))
                  (run_prefix_tracked data p n)). lia.
Qed.

(** X13. Every closed trade of a run carries the books [exitPosition] writes:
    [pnl] is the net proceeds minus the cost basis, and [returnPct] is [pnl]
    over the cost basis, times 100. *)
Theorem closed_trades_settled (data : list OHLCV) (p : Params) :
  (forall n, Forall (settled p) (closed_part (run_prefix data p n (Backtester_new p))))
  /\ Forall (settled p) (trades (run data p (Backtester_new p))).
Proof.
  assert (Hprefix : forall n,
             Forall (settled p) (closed_part (run_prefix data p n (Backtester_new p)))).
  { induction n as [|n IH]; [constructor|].
    rewrite run_prefix_succ.
    destruct (closed_part_step data p (run_series data p)
                (to_size_t (longPeriod p) + Z.of_nat n)
                (run_prefix data p n (Backtester_new p))
                (run_prefix_tracked data p n)) as [-> | (t & -> & Ht)].
    - exact IH.
    - apply Forall_app. split; [exact IH | now constructor]. }
  split; [exact Hprefix|].
  destruct (run_final data p) as [-> | [(n & -> & Hflat) | (n & -> & Hlong)]].
  - constructor.
  - specialize (Hprefix n). unfold closed_part in Hprefix. now rewrite Hflat in Hprefix.
  - destruct (closed_part_exit data p (to_size_t (vsize data - 1)) _
                (run_prefix_tracked data p n) Hlong) as (t & Hclosed & Ht).
    unfold closed_part at 1 in Hclosed. cbn [inPosition exitPosition] in Hclosed.
    rewrite Hclosed. apply Forall_app. split; [apply Hprefix | now constructor].
Qed.

(** ** A round trip at one price without commission *)

(** X14. Without commission, closing a position at its entry price gives back
    exactly the cost basis: the cash is the cost basis, the profit is 0 and
    the return is 0. *)
Theorem round_trip_at_cost (data : list OHLCV) (p : Params) (i : Z) (bt : Backtester) :
  let closed := exitPosition data p i bt in
  let t := back (trades closed) in
  open_trade_tracked bt -> inPosition bt = true ->
  (commissionRate p =? 0)%float = true ->
  exitPrice t = entryPrice t ->
  is_finite (cost_basis t) = true -> (cost_basis t =? 0)%float = false ->
  currentCash closed = cost_basis t
  /\ pnl t = 0%float
  /\ (returnPct t =? 0)%float = true.
Proof.
  intros closed t Htracked Hlong Hfree Hprice Hfinite Hnonzero.
  destruct (closed_part_exit data p i bt Htracked Hlong) as (t' & Hclosed & Hsettled).
  assert (Ht : t' = t).
  { subst t closed. unfold closed_part in Hclosed.
    cbn [inPosition exitPosition] in Hclosed.
    cbn [exitPosition trades] in Hclosed |- *.
    unfold back. cbn [trades]. rewrite Hclosed. now rewrite List.last_last. }
  subst t'. destruct Hsettled as [Hpnl Hbooked].
  destruct (float_finite_nonzero _ Hfinite Hnonzero) as (s & m & e & Hcost).
  assert (Hgross : gross_proceeds t = cost_basis t).
  { unfold gross_proceeds, cost_basis. now rewrite Hprice. }
  assert (Hnet : net_proceeds p t = cost_basis t).
  { unfold net_proceeds. rewrite Hgross.
    destruct (float_mul_zero _ _ s m e Hcost Hfree) as [s' Hzero].
    exact (float_sub_zero _ _ s m e s' Hcost Hzero). }
  assert (Hcash : currentCash closed = net_proceeds p t).
  { destruct (Htracked Hlong) as [Hne Hshares].
    subst t closed. unfold exitPosition. cbn [trades currentCash].
    rewrite back_with_back by assumption.
    unfold net_proceeds, gross_proceeds. cbn [shares exitPrice]. now rewrite Hshares. }
  assert (Hzero : pnl t = 0%float).
  { rewrite Hpnl, Hnet. exact (float_sub_self_finite _ s m e Hcost). }
  split; [now rewrite Hcash|]. split; [exact Hzero|].
  rewrite Hbooked. apply float_zero_return.
  - now rewrite Hzero.
  - exact Hnonzero.
  - rewrite FloatAxioms.eqb_spec, Hcost. cbn.
    rewrite Z.compare_refl, Pos.compare_cont_refl. now destruct s.
Qed.

(** ** Drawdown *)

Lemma replay_match_keeps data ts i r :
  maxDD (replay_match data ts i r) = maxDD r
  /\ peak (replay_match data ts i r) = peak r.
Proof.
  unfold replay_match.
  destruct (tradeIdx r <? vsize ts); [|now split].
  destruct (negb (holding r) && String.eqb (date (vget no_bar data i))
                                  (entryDate (vget no_trade ts (tradeIdx r)))).
  - cbn [holding]. destruct (String.eqb _ _); now split.
  - destruct (holding r); [|now split].
    destruct (String.eqb _ _); now split.
Qed.

Lemma replay_step_nonneg data ts i r :
  (0 <=? maxDD r)%float = true ->
  (0 <=? maxDD (replay_step data ts i r))%float = true.
Proof.
  intros Hr. unfold replay_step. cbn [maxDD].
  rewrite (proj1 (replay_match_keeps data ts i r)).
  match goal with
  | |- (0 <=? (if ?c then _ else _))%float = true => destruct c eqn:Hlt
  end; [|exact Hr].
  exact (float_nonneg_lt _ _ Hr Hlt).
Qed.

(** X15. [calculateMaxDrawdown] never reports a negative number or a NaN:
    its result is at least 0, for every series, configuration and state. *)
Theorem max_drawdown_nonneg (data : list OHLCV) (p : Params) (bt : Backtester) :
  (0 <=? calculateMaxDrawdown data p bt)%float = true.
Proof.
  unfold calculateMaxDrawdown. destruct (bool_decide _); [reflexivity|].
  apply (for_range_inv (fun r => (0 <=? maxDD r)%float = true)).
  - intros i r. apply replay_step_nonneg.
  - reflexivity.
Qed.

Lemma replay_match_no_trades data i r :
  0 <= tradeIdx r -> replay_match data [] i r = r.
Proof.
  intros Hidx. unfold replay_match. change (vsize (@nil Trade)) with 0.
  destruct (Z.ltb_spec (tradeIdx r) 0); [lia | reflexivity].
Qed.

Lemma replay_no_trades data p i r :
  tradeIdx r = 0 ->
  peak r = initialCapital p -> equity r = initialCapital p -> maxDD r = 0%float ->
  tradeIdx (replay_step data [] i r) = 0
  /\ peak (replay_step data [] i r) = initialCapital p
  /\ equity (replay_step data [] i r) = initialCapital p
  /\ maxDD (replay_step data [] i r) = 0%float.
Proof.
  intros Hidx Hpeak Hequity Hdd. unfold replay_step.
  rewrite replay_match_no_trades by lia.
  cbn [peak equity maxDD tradeIdx]. rewrite Hpeak, Hequity, Hdd.
  rewrite float_lt_irrefl. split; [exact Hidx|].
  split; [reflexivity|]. split; [reflexivity|].
  rewrite zero_or_nan_not_pos; [reflexivity|].
  apply zero_or_nan_mul_hundred, zero_or_nan_div, zero_or_nan_sub_self.
Qed.

Lemma max_drawdown_no_trades data p bt :
  trades bt = [] -> calculateMaxDrawdown data p bt = 0%float.
Proof.
  intros Hnone. unfold calculateMaxDrawdown. rewrite Hnone.
  destruct (bool_decide _); [reflexivity|].
  enough (Hinv : let r := for_range (to_size_t (longPeriod p)) (vsize data)
                            (replay_step data []) (replay_start p) in
                 tradeIdx r = 0 /\ peak r = initialCapital p
                 /\ equity r = initialCapital p /\ maxDD r = 0%float)
    by apply Hinv.
  apply (for_range_inv (fun r => tradeIdx r = 0 /\ peak r = initialCapital p
                                 /\ equity r = initialCapital p /\ maxDD r = 0%float)).
  - intros i r (Hidx & Hpeak & Hequity & Hdd). now apply replay_no_trades.
  - repeat split.
Qed.

Lemma round_trip_at_cost_witness :
  let data := Scenario.break_even in
  let p := Scenario.params false 0 in
  let bt := run_prefix data p 1 (Backtester_new p) in
  currentCash (exitPosition data p 3 bt) = 1000%float
  /\ pnl (back (trades (exitPosition data p 3 bt))) = 0%float.
Proof.
  intros data p bt.
  destruct (round_trip_at_cost data p 3 bt) as (Hcash & Hpnl & _).
  - intros _. split; [vm_compute; discriminate | vm_compute; reflexivity].
  - vm_compute; reflexivity.
  - vm_compute; reflexivity.
  - vm_compute; reflexivity.
  - vm_compute; reflexivity.
  - vm_compute; reflexivity.
  - split; [|exact Hpnl]. rewrite Hcash. vm_compute. reflexivity.
Defined.

(** ** A run that makes no trade *)

Lemma run_no_trades data p :
  trades (run data p (Backtester_new p)) = [] ->
  run data p (Backtester_new p) = Backtester_new p.
Proof.
  assert (Hprefix : forall n, trades (run_prefix data p n (Backtester_new p)) = [] ->
                              run_prefix data p n (Backtester_new p) = Backtester_new p).
  { apply (run_prefix_inv (fun bt => trades bt = [] -> bt = Backtester_new p)).
    - reflexivity.
    - intros i bt _ _ _ Hnil. cbn [trades enterPosition] in Hnil.
      apply app_eq_nil in Hnil as [_ Hnil]. discriminate.
    - intros i bt Htracked _ Hlong Hnil. destruct (Htracked Hlong) as [Hne _].
      cbn [trades exitPosition] in Hnil. now apply with_back_nil in Hnil. }
  intros Hnone.
  destruct (run_final data p) as [Hrun | [(n & Hrun & Hflat) | (n & Hrun & Hlong)]].
  - exact Hrun.
  - rewrite Hrun in Hnone |- *. now apply Hprefix.
  - rewrite Hrun in Hnone. cbn [trades exitPosition] in Hnone.
    apply with_back_nil in Hnone.
    destruct (run_prefix_tracked data p n Hlong) as [Hne _]. contradiction.
Qed.

(** A finite number other than zero divided by itself is exactly 1. *)
Lemma float_div_self (x : float) (s : bool) (m : positive) (e : Z) :
  Prim2SF x = S754_finite s m e -> (x / x)%float = 1%float.
Proof.
  intros Hx. apply Prim2SF_inj. rewrite div_spec, Hx, Prim2SF_one.
  unfold SF64div, SFdiv. rewrite xorb_nilpotent.
  destruct (div_core_spec (Zpos m) e (Zpos m) e ltac:(lia) ltac:(lia))
    as (q & r & l & -> & Heq & Hr & Hexact).
  replace (Zdigits2 (Z.pos m) + e - (Zdigits2 (Z.pos m) + e)) with 0 in Heq |- * by lia.
  rewrite Z.sub_diag in Heq |- *.
  change (Z.min (fexp prec emax 0) 0) with (-53) in Heq |- *.
  change (2 ^ (0 - -53)) with 9007199254740992 in Heq.
  assert (Hq : q = 9007199254740992) by nia.
  assert (Hz : r = 0) by nia.
  rewrite (Hexact Hz), Hq. vm_compute. reflexivity.
Qed.

(** X16. A run that makes no trade reports nothing but its capital.  With a
    finite capital other than 0 the final value is the initial capital; and
    when the series is not empty and [std::stoi] reads a year at the start of
    its first and of its last date, [calculateMetrics] returns a report whose
    total return is 0, whose CAGR is [(pow(1, 1 / years) - 1) * 100], and
    whose maximum drawdown, Sharpe ratio, number of trades, winning trades,
    win rate, average win, average loss and profit factor are all 0. *)
Theorem no_trade_report (pow : float -> float -> float)
    (data : list OHLCV) (p : Params) (first : OHLCV) (years : float) :
  let bt := run data p (Backtester_new p) in
  trades bt = [] ->
  is_finite (initialCapital p) = true -> (initialCapital p =? 0)%float = false ->
  head data = Some first ->
  calculateYears (date first) (date (List.last data no_bar)) = Some years ->
  finalValue data bt = initialCapital p
  /\ exists m,
       calculateMetrics pow data p bt = Some m
       /\ (totalReturn m =? 0)%float = true
       /\ cagr m = ((pow 1 (1 / years) - 1) * 100)%float
       /\ maxDrawdown m = 0%float
       /\ sharpeRatio m = 0%float
       /\ numTrades m = 0
       /\ winningTrades m = 0
       /\ winRate m = 0%float
       /\ avgWin m = 0%float
       /\ avgLoss m = 0%float
       /\ profitFactor m = 0%float.
Proof.
  intros bt Hnone Hfinite Hnonzero Hfirst Hyears.
  assert (Hbt : bt = Backtester_new p) by now apply run_no_trades.
  destruct (float_finite_nonzero _ Hfinite Hnonzero) as (s & m & e & Hcap).
  assert (Hvalue : finalValue data bt = initialCapital p).
  { rewrite Hbt. unfold finalValue. cbn [inPosition currentCash Backtester_new].
    exact (float_add_zero _ s m e Hcap). }
  split; [exact Hvalue|].
  unfold calculateMetrics. rewrite Hfirst. cbn [mbind option_bind].
  rewrite Hyears. cbn [mbind option_bind]. rewrite Hvalue.
  rewrite (max_drawdown_no_trades data p bt Hnone).
  rewrite Hnone. cbn [metrics_loop fold_left].
  eexists. split; [reflexivity|].
  cbn [totalReturn cagr maxDrawdown sharpeRatio numTrades winningTrades winRate
       avgWin avgLoss profitFactor].
  rewrite (float_div_self _ s m e Hcap).
  split.
  - apply float_zero_return; [|exact Hnonzero|].
    + now rewrite (float_sub_self_finite _ s m e Hcap).
    + rewrite FloatAxioms.eqb_spec, Hcap. cbn.
      rewrite Z.compare_refl, Pos.compare_cont_refl. now destruct s.
  - repeat split. unfold calculateSharpeRatio. now rewrite Hnone.
Qed.

Lemma no_trade_report_witness :
  let data := map (fun d => Scenario.bar d 10 10)
                ["2021-03-01"; "2022-03-01"; "2023-03-01"; "2024-03-01"; "2025-03-03"]%string in
  let p := Scenario.params false Scenario.default_commission in
  let bt := run data p (Backtester_new p) in
  calculateYears "2021-03-01" "2025-03-03" = Some 4%float
  /\ forall pow,
       finalValue data bt = 1000%float
       /\ exists m,
            calculateMetrics pow data p bt = Some m
            /\ cagr m = ((pow 1 (1 / 4) - 1) * 100)%float
            /\ sharpeRatio m = 0%float.
Proof.
  intros data p bt.
  assert (Hyears : calculateYears "2021-03-01" "2025-03-03" = Some 4%float)
    by (vm_compute; reflexivity).
  split; [exact Hyears|].
  intros pow.
  destruct (no_trade_report pow data p (Scenario.bar "2021-03-01" 10 10) 4%float)
    as (Hvalue & m & Hm & _ & Hcagr & _ & Hsharpe & _);
    [vm_compute; reflexivity | vm_compute; reflexivity | vm_compute; reflexivity
    | reflexivity | exact Hyears |].
  split; [exact Hvalue|]. exists m. repeat split; assumption.
Defined.

(** The dates need not start with a year: then [std::stoi] throws and there
    is no report. *)
Lemma no_report_without_years (pow : float -> float -> float) :
  let data := map (fun d => Scenario.bar d 10 10) ["a"; "b"; "c"; "d"; "e"]%string in
  let p := Scenario.params false Scenario.default_commission in
  calculateMetrics pow data p (run data p (Backtester_new p)) = None
  /\ calculateMetrics pow [] p (run [] p (Backtester_new p)) = None.
Proof. split; reflexivity. Qed.

(** ** The years of the report *)

Lemma digit_range (ch : ascii) (d : Z) : digit ch = Some d -> 0 <= d <= 9.
Proof.
  unfold digit. destruct (Z.leb_spec 48 (Z.of_N (N_of_ascii ch))); cbn [andb];
    [|discriminate].
  destruct (Z.leb_spec (Z.of_N (N_of_ascii ch)) 57); [|discriminate].
  intros [= <-]. lia.
Qed.

Lemma digits_range (s : string) :
  forall acc n,
  digits s acc = Some n -> 0 <= default 0 acc ->
  0 <= n < 10 ^ Z.of_nat (String.length s) * (default 0 acc + 1).
Proof.
  induction s as [|ch s IH]; intros acc n Hn Hacc.
  - cbn [digits] in Hn. subst acc. cbn [String.length].
    change (10 ^ Z.of_nat 0) with 1. unfold default, from_option, id in *. lia.
  - cbn [digits] in Hn. cbn [String.length].
    rewrite Nat2Z.inj_succ, Z.pow_succ_r by lia.
    assert (Hpow : 0 < 10 ^ Z.of_nat (String.length s)) by (apply Z.pow_pos_nonneg; lia).
    destruct (digit ch) as [d|] eqn:Hd.
    + apply digit_range in Hd. apply IH in Hn; unfold default, from_option, id in *; nia.
    + subst acc. unfold default, from_option, id in *. nia.
Qed.

Lemma erase_leading_length (s : string) :
  (String.length (erase_leading s) <= String.length s)%nat.
Proof.
  induction s as [|ch s IH]; [reflexivity|]. cbn [erase_leading String.length].
  destruct (isspace ch); cbn [String.length]; lia.
Qed.

Lemma substring_prefix_length (n : nat) (s : string) :
  (String.length (substring 0 n s) <= n)%nat.
Proof.
  revert s. induction n as [|n IH]; intros s.
  - destruct s; cbn; lia.
  - destruct s as [|ch s]; cbn [substring String.length]; [lia|].
    specialize (IH s). lia.
Qed.

(** A number read from at most four characters. *)
Lemma stoi_year_range (s : string) (n : Z) :
  (String.length s <= 4)%nat -> stoi s = Some n -> -999 <= n <= 9999.
Proof.
  intros Hlen. unfold stoi.
  pose proof (erase_leading_length s) as Hlead.
  destruct (erase_leading s) as [|ch rest] eqn:Hs; [discriminate|].
  cbn [String.length] in Hlead.
  assert (Hcase : forall (negative : bool) (t : string),
            (String.length t <= (if negative then 3 else 4))%nat ->
            forall n,
            (n0 ← digits t None;
             (let n1 := if negative then - n0 else n0 in
              if (- 2 ^ 31 <=? n1) && (n1 <? 2 ^ 31) then Some n1 else None)) = Some n ->
            -999 <= n <= 9999).
  { intros negative t Ht n' Hn.
    destruct (digits t None) as [v|] eqn:Hv; [|discriminate].
    cbn [mbind option_bind] in Hn.
    apply digits_range in Hv; [|cbn; lia]. unfold default, from_option, id in Hv.
    assert (Hpow : 10 ^ Z.of_nat (String.length t)
                   <= 10 ^ (if negative then 3 else 4)).
    { apply Z.pow_le_mono_r; [lia|]. destruct negative; lia. }
    destruct ((_ <=? _) && (_ <? _)); [|discriminate]. injection Hn as <-.
    destruct negative; cbn in Hpow; lia. }
  destruct ch as [[|] [|] [|] [|] [|] [|] [|] [|]];
    try (apply (Hcase false); cbn [String.length]; lia);
    try (apply (Hcase true); lia).
Qed.

Lemma float_of_int_not_positive (z : Z) :
  - 2 ^ 31 < z <= 0 -> (0 <? float_of_int z)%float = false.
Proof.
  intros Hz. destruct (Z.eq_dec z 0) as [-> | Hne]; [reflexivity|].
  assert (Hopp : float_of_int z = (- float_of_int (- z))%float).
  { unfold float_of_int. destruct (Z.leb_spec 0 z) as [Hpos | _]; [lia|].
    destruct (Z.leb_spec 0 (- z)) as [_ | Hneg]; [reflexivity | lia]. }
  destruct (float_of_int_pos (- z) ltac:(lia)) as (m & e & Hsf).
  rewrite Hopp, ltb_spec, opp_spec, Hsf. reflexivity.
Qed.

(** X27. [calculateYears] reads the two years from the first four
    characters of the dates, so each lies between -999 and 9999 and their
    difference is an [int]: the subtraction does not overflow.  When both
    are read the result is the difference of the years if that is positive
    and 1 otherwise, in every case a number above 0; when [std::stoi] reads
    no number from one of the prefixes there is no result. *)
Theorem calculateYears_spec (start finish : string) :
  match stoi (substring 0 4 start), stoi (substring 0 4 finish) with
  | Some startYear, Some endYear =>
      -999 <= startYear <= 9999 /\ -999 <= endYear <= 9999
      /\ in_int (endYear - startYear)
      /\ calculateYears start finish
         = Some (if 0 <? endYear - startYear
                 then float_of_int (endYear - startYear) else 1%float)
      /\ (forall years, calculateYears start finish = Some years ->
            (0 <? years)%float = true)
  | _, _ => calculateYears start finish = None
  end.
Proof.
  unfold calculateYears.
  destruct (stoi (substring 0 4 start)) as [startYear|] eqn:Hstart; [|reflexivity].
  destruct (stoi (substring 0 4 finish)) as [endYear|] eqn:Hend; [|reflexivity].
  apply stoi_year_range in Hstart; [|apply substring_prefix_length].
  apply stoi_year_range in Hend; [|apply substring_prefix_length].
  cbn [mbind option_bind].
  split; [exact Hstart|]. split; [exact Hend|].
  split; [unfold in_int; lia|].
  destruct (Z.ltb_spec 0 (endYear - startYear)) as [Hpos | Hneg].
  - destruct (float_of_int_positive (endYear - startYear) ltac:(lia)) as [_ Hgt].
    rewrite Hgt. split; [reflexivity|]. now intros years [= <-].
  - rewrite float_of_int_not_positive by lia.
    split; [reflexivity|]. now intros years [= <-].
Qed.

Lemma calculateYears_examples :
  calculateYears "2019-01-02" "2024-12-31" = Some 5%float
  /\ calculateYears "2024-01-02" "2024-12-31" = Some 1%float
  /\ calculateYears "2024-01-02" "2019-12-31" = Some 1%float
  /\ calculateYears " +7-01-02" "12/31/2024" = Some 5%float
  /\ calculateYears "Date" "2024-12-31" = None
  /\ calculateYears "2024-12-31" "" = None.
Proof. vm_compute. repeat split. Qed.

(** ** Exits when the risk rules are off *)

(** X17. With both percentages at 0 or below, neither the stop-loss nor the
    take-profit ever fires, and an open position is closed by the exit
    crossover alone. *)
Theorem exits_without_risk_rules (data : list OHLCV) (p : Params)
    (s : Series) (i : Z) (bt : Backtester) :
  (stopLossPercent p <=? 0)%float = true ->
  (takeProfitPercent p <=? 0)%float = true ->
  checkStopLoss data p i bt = false
  /\ checkTakeProfit data p i bt = false
  /\ (inPosition bt = true ->
      run_step data p s i bt
      = if snd (crossover s i) then exitPosition data p i bt else bt).
Proof.
  intros Hstop Htake.
  assert (Hsl : checkStopLoss data p i bt = false)
    by (unfold checkStopLoss; now rewrite Hstop).
  assert (Htp : checkTakeProfit data p i bt = false)
    by (unfold checkTakeProfit; now rewrite Htake).
  split; [exact Hsl|]. split; [exact Htp|].
  intros Hlong. unfold run_step. rewrite Hsl, Htp, Hlong. cbn [andb negb].
  destruct (crossover s i) as [entrySignal exitSignal]. cbn [snd].
  now rewrite andb_false_r, andb_true_r.
Qed.

Lemma exits_without_risk_rules_witness :
  let data := Scenario.one_trade in
  let p := Scenario.params false Scenario.default_commission in
  let bt := run_prefix data p 1 (Backtester_new p) in
  checkStopLoss data p 3 bt = false
  /\ run_step data p (run_series data p) 3 bt = exitPosition data p 3 bt.
Proof.
  intros data p bt.
  destruct (exits_without_risk_rules data p (run_series data p) 3 bt)
    as (Hstop & _ & Hstep); [vm_compute; reflexivity | vm_compute; reflexivity |].
  split; [exact Hstop|]. rewrite Hstep by (vm_compute; reflexivity).
  vm_compute. reflexivity.
Defined.

(** ** What is behind a change of position *)

Lemma crossover_cases (s : Series) (i : Z) :
  let currentCross := (vget 0 (longMA s) i <? vget 0 (shortMA s) i)%float in
  let previousCross :=
    (vget 0 (longMA s) (to_size_t (i - 1)) <? vget 0 (shortMA s) (to_size_t (i - 1)))%float in
  (fst (crossover s i) = true -> 0 < i /\ currentCross = true /\ previousCross = false)
  /\ (snd (crossover s i) = true -> 0 < i /\ currentCross = false /\ previousCross = true).
Proof.
  cbv zeta. unfold crossover. destruct (0 <? i) eqn:Hi; [|split; discriminate].
  apply Z.ltb_lt in Hi.
  destruct (_ <? _)%float, (_ <? _)%float; cbn; split; intros Hs;
    try discriminate; auto.
Qed.

Lemma filter_entry_passes (p : Params) (s : Series) (i : Z) (entrySignal : bool) :
  filter_entry p s i entrySignal = true ->
  entrySignal = true
  /\ (useRSI p = true -> (70 <=? vget 0 (rsi s) i)%float = false)
  /\ (useMACD p = true -> (vget 0 (histogram (macdData s)) i <=? 0)%float = false)
  /\ (useBollinger p = true ->
      (vget 0 (upper (bb s)) i <? vget 0 (closes s) i)%float = false).
Proof.
  unfold filter_entry.
  destruct entrySignal; [|destruct (useRSI p), (useMACD p), (useBollinger p); discriminate].
  destruct (useRSI p), (useMACD p), (useBollinger p); cbn;
    repeat match goal with
           | |- context [PrimFloat.leb ?a ?b] => destruct (PrimFloat.leb a b) eqn:?; cbn
           | |- context [PrimFloat.ltb ?a ?b] => destruct (PrimFloat.ltb a b) eqn:?; cbn
           end;
    try discriminate; intros _; repeat split; intros; congruence.
Qed.

(** X26. A bar changes the position only for a cause.  A flat engine enters
    only on a bar where the short average is above the long one and was not
    on the bar before, and where every enabled filter lets the entry pass;
    an engine in position leaves only on the stop-loss, on the take-profit,
    or where the short average is not above the long one and was on the bar
    before.  In every other case the bar leaves the engine as it is. *)
Theorem position_change_cause (data : list OHLCV) (p : Params) (s : Series)
    (i : Z) (bt : Backtester) :
  let after := run_step data p s i bt in
  let currentCross := (vget 0 (longMA s) i <? vget 0 (shortMA s) i)%float in
  let previousCross :=
    (vget 0 (longMA s) (to_size_t (i - 1)) <? vget 0 (shortMA s) (to_size_t (i - 1)))%float in
  (inPosition bt = false ->
   (inPosition after = true \/ after <> bt) ->
   after = enterPosition data p i bt
   /\ 0 < i /\ currentCross = true /\ previousCross = false
   /\ (useRSI p = true -> (70 <=? vget 0 (rsi s) i)%float = false)
   /\ (useMACD p = true -> (vget 0 (histogram (macdData s)) i <=? 0)%float = false)
   /\ (useBollinger p = true ->
       (vget 0 (upper (bb s)) i <? vget 0 (closes s) i)%float = false))
  /\ (inPosition bt = true ->
      (inPosition after = false \/ after <> bt) ->
      after = exitPosition data p i bt
      /\ (checkStopLoss data p i bt = true
          \/ checkTakeProfit data p i bt = true
          \/ (0 < i /\ currentCross = false /\ previousCross = true))).
Proof.
  cbv zeta. unfold run_step. split; intros Hin Hchange; rewrite Hin in *; cbn in *.
  - pose proof (crossover_cases s i) as [Hentry _]. cbv zeta in Hentry.
    destruct (crossover s i) as [entrySignal exitSignal]. cbn [fst] in Hentry.
    rewrite andb_true_r, andb_false_r in *.
    destruct (filter_entry p s i entrySignal) eqn:Hf.
    + apply filter_entry_passes in Hf as (-> & Hrsi & Hmacd & Hbb).
      destruct (Hentry eq_refl) as (Hi & Hc & Hp). auto 10.
    + exfalso. destruct Hchange as [Hopen | Hne]; congruence.
  - pose proof (crossover_cases s i) as [_ Hexit]. cbv zeta in Hexit.
    destruct (checkStopLoss data p i bt); [auto|].
    destruct (checkTakeProfit data p i bt); [auto|].
    destruct (crossover s i) as [entrySignal exitSignal]. cbn [snd] in Hexit.
    rewrite andb_true_r, andb_false_r in *.
    destruct exitSignal.
    + split; [reflexivity|]. right; right. now apply Hexit.
    + exfalso. destruct Hchange as [Hopen | Hne]; congruence.
Qed.

(** * Properties of the price-file reader *)

(** ** Strings *)

Lemma string_app_nil_r (s : string) : (s ++ "")%string = s.
Proof. induction s as [|ch s IH]; cbn; [reflexivity | now rewrite IH]. Qed.

Lemma string_app_assoc (a b c : string) :
  ((a ++ b) ++ c)%string = (a ++ b ++ c)%string.
Proof. induction a as [|ch a IH]; cbn; [reflexivity | now rewrite IH]. Qed.

Lemma is_empty_true (s : string) : is_empty s = true <-> s = EmptyString.
Proof. destruct s; cbn; split; congruence. Qed.

(** ** [trim] *)

Lemma erase_leading_spec (s : string) :
  exists pre, s = (pre ++ erase_leading s)%string /\ blank pre = true.
Proof.
  induction s as [|ch s (pre & Hs & Hpre)]; [now exists EmptyString|].
  cbn [erase_leading]. destruct (isspace ch) eqn:Hch.
  - exists (String ch pre). cbn. rewrite Hch, Hpre. now rewrite <- Hs.
  - now exists EmptyString.
Qed.

Lemma erase_leading_head (s : string) : starts_with isspace (erase_leading s) = false.
Proof.
  induction s as [|ch s IH]; [reflexivity|].
  cbn [erase_leading]. destruct (isspace ch) eqn:Hch; [exact IH | exact Hch].
Qed.

Lemma erase_trailing_spec (s : string) :
  exists post, s = (erase_trailing s ++ post)%string /\ blank post = true.
Proof.
  induction s as [|ch s (post & Hs & Hpost)]; [now exists EmptyString|].
  cbn [erase_trailing]. destruct (erase_trailing s) as [|b u] eqn:Ht.
  - cbn in Hs. subst post. destruct (isspace ch) eqn:Hch.
    + exists (String ch s). cbn. now rewrite Hch, Hpost.
    + now exists s.
  - exists post. cbn. split; [|exact Hpost]. now rewrite Hs at 1.
Qed.

Lemma erase_trailing_last (s : string) : ends_with isspace (erase_trailing s) = false.
Proof.
  induction s as [|ch s IH]; [reflexivity|].
  cbn [erase_trailing]. destruct (erase_trailing s) as [|b u] eqn:Ht.
  - destruct (isspace ch) eqn:Hch; [reflexivity | exact Hch].
  - exact IH.
Qed.

Lemma erase_trailing_head (s : string) :
  starts_with isspace s = false -> starts_with isspace (erase_trailing s) = false.
Proof.
  destruct s as [|ch s]; [reflexivity|]. cbn [erase_trailing starts_with]. intros Hch.
  destruct (erase_trailing s); [now rewrite Hch | exact Hch].
Qed.

Lemma erase_trailing_idem (s : string) :
  erase_trailing (erase_trailing s) = erase_trailing s.
Proof.
  induction s as [|ch s IH]; [reflexivity|].
  cbn [erase_trailing]. destruct (erase_trailing s) as [|b u] eqn:Ht.
  - destruct (isspace ch) eqn:Hch; [reflexivity|]. cbn. now rewrite Hch.
  - change (erase_trailing (String ch (String b u)))
      with (match erase_trailing (String b u) with
            | EmptyString => if isspace ch then EmptyString else String ch EmptyString
            | String _ _ as t => String ch t
            end).
    now rewrite IH.
Qed.

Lemma erase_leading_fixed (s : string) :
  starts_with isspace s = false -> erase_leading s = s.
Proof. destruct s as [|ch s]; [reflexivity|]. cbn. now intros ->. Qed.

Lemma erase_trailing_fixed (s : string) :
  ends_with isspace s = false -> erase_trailing s = s.
Proof.
  induction s as [|ch s IH]; [reflexivity|].
  cbn [ends_with erase_trailing]. destruct s as [|b u].
  - cbn. now intros ->.
  - intros Hend. now rewrite (IH Hend).
Qed.

Lemma erase_leading_blank (s : string) : blank s = true -> erase_leading s = EmptyString.
Proof.
  induction s as [|ch s IH]; [reflexivity|]. cbn.
  destruct (isspace ch); [exact IH | discriminate].
Qed.

(** X18. [trim] removes exactly the white space at the two ends: the string
    is white space, then the result, then white space; the result neither
    starts nor ends with white space; it is empty exactly for a string of
    white space; [trim] changes a string exactly when one of its ends is
    white space, and trimming twice is trimming once. *)
Theorem trim_ends (s : string) :
  (exists pre post,
      s = (pre ++ trim s ++ post)%string /\ blank pre = true /\ blank post = true)
  /\ starts_with isspace (trim s) = false
  /\ ends_with isspace (trim s) = false
  /\ trim (trim s) = trim s
  /\ (if blank s then trim s = EmptyString else trim s <> EmptyString)
  /\ (if starts_with isspace s || ends_with isspace s then trim s <> s else trim s = s).
Proof.
  assert (Hhead : starts_with isspace (trim s) = false)
    by (apply erase_trailing_head, erase_leading_head).
  assert (Hlast : ends_with isspace (trim s) = false) by apply erase_trailing_last.
  assert (Hcut : exists pre post,
             s = (pre ++ trim s ++ post)%string /\ blank pre = true /\ blank post = true).
  { destruct (erase_leading_spec s) as (pre & Hs & Hpre).
    destruct (erase_trailing_spec (erase_leading s)) as (post & Hm & Hpost).
    exists pre, post. unfold trim. now rewrite <- Hm. }
  split; [exact Hcut|]. split; [exact Hhead|]. split; [exact Hlast|]. split; [|split].
  - unfold trim at 1. rewrite (erase_leading_fixed _ Hhead).
    unfold trim. apply erase_trailing_idem.
  - destruct (blank s) eqn:Hb.
    + unfold trim. now rewrite erase_leading_blank.
    + intros Ht. destruct Hcut as (pre & post & Hs & Hpre & Hpost).
      rewrite Ht in Hs. cbn in Hs. subst s.
      assert (Hall : forall a b, blank a = true -> blank b = true ->
                                 blank (a ++ b)%string = true).
      { intros a b Ha Hb'. induction a as [|ch a IH]; [exact Hb'|].
        cbn in *. apply andb_true_iff in Ha as [-> Ha]. now apply IH. }
      rewrite Hall in Hb by assumption. discriminate.
  - destruct (starts_with isspace s || ends_with isspace s) eqn:Hends.
    + intros Ht. rewrite Ht in Hhead, Hlast. rewrite Hhead, Hlast in Hends. discriminate.
    + apply orb_false_iff in Hends as [Hh Hl]. unfold trim.
      rewrite (erase_leading_fixed _ Hh). now apply erase_trailing_fixed.
Qed.

(** ** The [getline] loops *)

Lemma read_until_rest (d : ascii) (s : string) :
  (String.length (snd (read_until d s)) <= String.length s)%nat.
Proof.
  induction s as [|ch s IH]; [reflexivity|].
  cbn [read_until]. destruct (Ascii.eqb ch d); [cbn; lia|].
  destruct (read_until d s) as [t r]. cbn in *. lia.
Qed.

Lemma read_until_shorter (d : ascii) (ch : ascii) (s : string) :
  (String.length (snd (read_until d (String ch s))) <= String.length s)%nat.
Proof.
  cbn [read_until]. destruct (Ascii.eqb ch d); [reflexivity|].
  pose proof (read_until_rest d s). destruct (read_until d s) as [t r]. exact H.
Qed.

Lemma getlines_fuel (d : ascii) (n m : nat) (s : string) :
  (String.length s <= n)%nat -> (String.length s <= m)%nat ->
  getlines n d s = getlines m d s.
Proof.
  revert m s. induction n as [|n IH]; intros m s Hn Hm.
  - destruct s; [|cbn in Hn; lia]. now destruct m.
  - destruct s as [|ch s]; [now destruct m|].
    destruct m as [|m]; [cbn in Hm; lia|].
    cbn [getlines getline is_empty].
    pose proof (read_until_shorter d ch s) as Hr.
    destruct (read_until d (String ch s)) as [t r]. cbn [snd] in Hr.
    cbn in Hn, Hm. f_equal. apply IH; lia.
Qed.

Lemma tokens_nil (d : ascii) : tokens d EmptyString = [].
Proof. reflexivity. Qed.

Lemma tokens_cons (d : ascii) (ch : ascii) (s : string) :
  tokens d (String ch s)
  = fst (read_until d (String ch s)) :: tokens d (snd (read_until d (String ch s))).
Proof.
  unfold tokens at 1. cbn [String.length getlines getline is_empty].
  pose proof (read_until_shorter d ch s) as Hr.
  destruct (read_until d (String ch s)) as [t r]. cbn [fst snd] in *.
  f_equal. now apply getlines_fuel.
Qed.

Lemma tokens_String (d : ascii) (ch : ascii) (s : string) :
  tokens d (String ch s)
  = if Ascii.eqb ch d then EmptyString :: tokens d s
    else match tokens d s with
         | [] => [String ch EmptyString]
         | t :: l => String ch t :: l
         end.
Proof.
  rewrite tokens_cons. cbn [read_until]. destruct (Ascii.eqb ch d); [reflexivity|].
  destruct s as [|b u]; [reflexivity|].
  rewrite tokens_cons. destruct (read_until d (String b u)) as [t r]. reflexivity.
Qed.

Lemma tokens_empty (d : ascii) (s : string) : tokens d s = [] <-> s = EmptyString.
Proof.
  split; [|now intros ->]. destruct s as [|ch s]; [reflexivity|].
  rewrite tokens_String. destruct (Ascii.eqb ch d); [discriminate|].
  destruct (tokens d s); discriminate.
Qed.

Lemma join_String (d : ascii) (ch : ascii) (t : string) (l : list string) :
  join d (String ch t :: l) = String ch (join d (t :: l)).
Proof. destruct l; reflexivity. Qed.

Lemma tokens_app (d : ascii) (a b : string) :
  tokens d (a ++ String d b)%string
  = tokens d (a ++ String d EmptyString)%string ++ tokens d b.
Proof.
  induction a as [|ch a IH].
  - cbn [String.append]. rewrite !tokens_String, Ascii.eqb_refl. reflexivity.
  - cbn [String.append]. rewrite !tokens_String, IH.
    destruct (Ascii.eqb ch d); [reflexivity|].
    destruct (tokens d (a ++ String d EmptyString)%string) as [|t l] eqn:Ht; [|reflexivity].
    apply tokens_empty in Ht. destruct a; discriminate.
Qed.

Lemma tokens_trailing (d : ascii) (a : string) :
  a <> EmptyString -> ends_with (fun ch => Ascii.eqb ch d) a = false ->
  tokens d (a ++ String d EmptyString)%string = tokens d a.
Proof.
  induction a as [|ch a IH]; [congruence|]. intros _ Hend.
  cbn [String.append]. rewrite !tokens_String.
  destruct a as [|b u].
  - cbn in Hend. rewrite Hend. cbn [String.append].
    rewrite tokens_String, Ascii.eqb_refl. reflexivity.
  - rewrite IH; [reflexivity | discriminate | exact Hend].
Qed.

(** X19. The tokens of a [getline] loop hold no delimiter, and written back
    with the delimiter between them they are the line, up to one delimiter at
    the very end of the line, which closes the last token and opens no new
    one.  Only the empty line has no token, and the loop ends because the
    stream is exhausted. *)
Theorem tokens_round_trip (d : ascii) (s : string) :
  Forall (fun t => occurs d t = false) (tokens d s)
  /\ s = (join d (tokens d s)
          ++ (if ends_with (fun ch => Ascii.eqb ch d) s
              then String d EmptyString else EmptyString))%string
  /\ (is_empty s = true <-> tokens d s = [])
  /\ (forall fuel, (String.length s <= fuel)%nat -> getlines fuel d s = tokens d s).
Proof.
  split; [|split; [|split]]; [| | |intros fuel Hfuel; now apply getlines_fuel].
  - induction s as [|ch s IH]; [constructor|].
    rewrite tokens_String. destruct (Ascii.eqb ch d) eqn:Hch.
    + constructor; [reflexivity | exact IH].
    + destruct (tokens d s) as [|t l].
      * constructor; [|constructor]. cbn. now rewrite Hch.
      * inversion IH as [|? ? Ht Hl]; subst. constructor; [|exact Hl].
        cbn. now rewrite Hch.
  - induction s as [|ch s IH]; [reflexivity|].
    rewrite tokens_String. destruct (Ascii.eqb ch d) eqn:Hch.
    + apply Ascii.eqb_eq in Hch. subst ch. destruct s as [|b u].
      * cbn. now rewrite Ascii.eqb_refl.
      * change (ends_with (fun ch => Ascii.eqb ch d) (String d (String b u)))
          with (ends_with (fun ch => Ascii.eqb ch d) (String b u)).
        destruct (tokens d (String b u)) as [|t l] eqn:Ht.
        { apply tokens_empty in Ht. discriminate. }
        change (join d (EmptyString :: t :: l)) with (String d (join d (t :: l))).
        cbn [String.append]. now rewrite <- IH.
    + destruct s as [|b u]; [cbn; now rewrite Hch|].
      change (ends_with (fun ch => Ascii.eqb ch d) (String ch (String b u)))
        with (ends_with (fun ch => Ascii.eqb ch d) (String b u)).
      destruct (tokens d (String b u)) as [|t l] eqn:Ht.
      { apply tokens_empty in Ht. discriminate. }
      rewrite join_String. cbn [String.append]. now rewrite <- IH.
  - rewrite is_empty_true. symmetry. apply tokens_empty.
Qed.

(** ** [parseLine] and [parse] *)

Section Rows.
Variable stod : string -> option float.
Variable stoll : string -> option Z.

Lemma set_column_beyond (col : Z) (token : string) (row : OHLCV) :
  7 <= col -> set_column stod stoll col token row = row.
Proof.
  intros Hcol. unfold set_column. destruct col as [|p|p]; [lia | | lia].
  do 3 (destruct p as [p|p|]; try lia; try reflexivity).
Qed.

Lemma columns_beyond (toks : list string) (col : Z) (row : OHLCV) :
  7 <= col ->
  snd (fold_left (fun st token => parseLine_body stod stoll token st) toks (col, row))
  = row.
Proof.
  revert col row. induction toks as [|t toks IH]; intros col row Hcol; [reflexivity|].
  cbn [fold_left parseLine_body]. rewrite set_column_beyond by exact Hcol.
  apply IH. lia.
Qed.

Lemma parseLine_columns (junk : OHLCV) (line : string) :
  let token k := trim <$> (tokens comma line !! k) in
  let row := parseLine stod stoll junk line in
  date row = default EmptyString (token 0%nat)
  /\ open row = from_option (parseDouble stod) (open junk) (token 1%nat)
  /\ high row = from_option (parseDouble stod) (high junk) (token 2%nat)
  /\ low row = from_option (parseDouble stod) (low junk) (token 3%nat)
  /\ close row = from_option (parseDouble stod) (close junk) (token 4%nat)
  /\ adjClose row = from_option (parseDouble stod) (adjClose junk) (token 5%nat)
  /\ volume row = from_option (parseLong stoll) (volume junk) (token 6%nat).
Proof.
  cbv zeta. unfold parseLine.
  destruct (tokens comma line) as [|a [|b [|c [|d [|e [|f [|g rest]]]]]]];
    try (cbn; repeat split; reflexivity).
  cbn [fold_left parseLine_body]. rewrite columns_beyond by (cbn; lia).
  cbn. repeat split; reflexivity.
Qed.

(** X20. [parseLine] fills the fields from the first seven tokens, trimmed, in
    the order date, open, high, low, close, adjClose, volume; a field whose
    token is missing keeps what lay in memory (the date is empty), and
    tokens after the seventh are ignored. *)
Theorem parseLine_fields (junk : OHLCV) (line : string) :
  let token k := trim <$> (tokens comma line !! k) in
  let row := parseLine stod stoll junk line in
  date row = default EmptyString (token 0%nat)
  /\ open row = from_option (parseDouble stod) (open junk) (token 1%nat)
  /\ high row = from_option (parseDouble stod) (high junk) (token 2%nat)
  /\ low row = from_option (parseDouble stod) (low junk) (token 3%nat)
  /\ close row = from_option (parseDouble stod) (close junk) (token 4%nat)
  /\ adjClose row = from_option (parseDouble stod) (adjClose junk) (token 5%nat)
  /\ volume row = from_option (parseLong stoll) (volume junk) (token 6%nat).
Proof. exact (parseLine_columns junk line). Qed.

Lemma parseLine_from_tokens (junk junk' : OHLCV) (line line' : string) :
  tokens comma line = tokens comma line' ->
  (7 <= length (tokens comma line))%nat \/ junk = junk' ->
  parseLine stod stoll junk line = parseLine stod stoll junk' line'.
Proof.
  intros Ht [Hlen | ->]; unfold parseLine; rewrite <- Ht; [|reflexivity].
  destruct (tokens comma line) as [|a [|b [|c [|d [|e [|f [|g rest]]]]]]];
    cbn in Hlen; try lia.
  cbn [fold_left parseLine_body]. rewrite !columns_beyond by (cbn; lia).
  reflexivity.
Qed.

(** X21. A comma at the end of a line adds no field: the line is read as if
    the comma were not there, so that a line of up to six fields and a final
    comma leaves the volume as it lay in memory. *)
Theorem parseLine_trailing_comma (junk : OHLCV) (line : string) :
  ends_with (fun ch => Ascii.eqb ch comma) line = false ->
  parseLine stod stoll junk (line ++ String comma EmptyString)%string
  = parseLine stod stoll junk line
  /\ ((length (tokens comma line) <= 6)%nat ->
      volume (parseLine stod stoll junk (line ++ String comma EmptyString)%string)
      = volume junk).
Proof.
  intros Hend.
  assert (Heq : parseLine stod stoll junk (line ++ String comma EmptyString)%string
                = parseLine stod stoll junk line).
  { destruct line as [|ch s]; [reflexivity|].
    apply parseLine_from_tokens; [|now right].
    apply tokens_trailing; [discriminate | exact Hend]. }
  split; [exact Heq|]. intros Hlen. rewrite Heq.
  destruct (parseLine_columns junk line) as (_ & _ & _ & _ & _ & _ & ->).
  rewrite lookup_ge_None_2; [reflexivity | exact Hlen].
Qed.

(** X22. A line of seven or more fields is read without regard to what lay
    in memory. *)
Theorem parseLine_complete (junk junk' : OHLCV) (line : string) :
  (7 <= length (tokens comma line))%nat ->
  parseLine stod stoll junk line = parseLine stod stoll junk' line.
Proof. intros Hlen. apply parseLine_from_tokens; [reflexivity | now left]. Qed.

Lemma parse_loop_rows (junk : nat -> OHLCV) (n : nat) (file : string)
    (data : list OHLCV) :
  (String.length file <= n)%nat ->
  parse_loop stod stoll n junk file data
  = data ++ rows_of stod stoll (fun k => junk (length data + k)%nat) (tokens newline file).
Proof.
  revert file data. induction n as [|n IH]; intros file data Hn.
  - destruct file; [|cbn in Hn; lia]. cbn. now rewrite app_nil_r.
  - destruct file as [|ch s]; [cbn; now rewrite app_nil_r|].
    cbn [parse_loop getline is_empty]. rewrite tokens_cons.
    pose proof (read_until_shorter newline ch s) as Hr.
    destruct (read_until newline (String ch s)) as [line rest]. cbn [fst snd] in *.
    cbn in Hn. unfold rows_of. cbn [List.filter].
    destruct (is_empty line); cbn [negb].
    + apply IH. lia.
    + rewrite IH by lia. rewrite <- app_assoc. cbn [app]. rewrite imap_cons.
      rewrite Nat.add_0_r. do 2 f_equal. apply imap_ext.
      intros k x _. cbn. rewrite length_app. cbn. do 2 f_equal. lia.
Qed.

Lemma parse_stream_rows (junk : nat -> OHLCV) (contents : string) :
  parse_stream stod stoll junk contents = rows_of stod stoll junk (tail (tokens newline contents)).
Proof.
  unfold parse_stream. destruct contents as [|ch s]; [reflexivity|].
  cbn [getline is_empty]. rewrite tokens_cons.
  destruct (read_until newline (String ch s)) as [line rest]. cbn [tail snd].
  rewrite parse_loop_rows by lia. reflexivity.
Qed.
End Rows.

Lemma parseLine_trailing_comma_witness :
  let none_d := fun _ : string => @None float in
  let none_z := fun _ : string => @None Z in
  let junk := Scenario.bar "junk" 7 7 in
  volume (parseLine none_d none_z junk "2024-01-02,1,2,3,4,5,") = volume junk.
Proof.
  intros none_d none_z junk.
  destruct (parseLine_trailing_comma none_d none_z junk "2024-01-02,1,2,3,4,5")
    as [_ Hvol]; [vm_compute; reflexivity |].
  apply Hvol. vm_compute. lia.
Defined.

Lemma parseLine_complete_witness :
  let none_d := fun _ : string => @None float in
  let none_z := fun _ : string => @None Z in
  parseLine none_d none_z (Scenario.bar "junk" 7 7) "2024-01-02,1,2,3,4,5,600"
  = parseLine none_d none_z no_bar "2024-01-02,1,2,3,4,5,600".
Proof.
  intros none_d none_z. apply parseLine_complete. vm_compute. lia.
Defined.

Lemma tokens_single (d : ascii) (h : string) :
  occurs d h = false -> tokens d (h ++ String d EmptyString)%string = [h].
Proof.
  induction h as [|ch h IH]; intros Hocc.
  - cbn [String.append]. rewrite tokens_String, Ascii.eqb_refl. reflexivity.
  - cbn in Hocc. apply orb_false_iff in Hocc as [Hch Hocc].
    cbn [String.append]. rewrite tokens_String, Hch, (IH Hocc). reflexivity.
Qed.

Section Files.
Variable stod : string -> option float.
Variable stoll : string -> option Z.

(** X23. The first line of the file is never read as data: whatever it holds,
    the rows are those of the lines after it, one for each line that is not
    empty. *)
Theorem parse_header_ignored (junk : nat -> OHLCV) (header body : string) :
  occurs newline header = false ->
  parse stod stoll junk (Some (header ++ String newline body)%string)
  = Some (rows_of stod stoll junk (tokens newline body))
  /\ length (parse_stream stod stoll junk (header ++ String newline body)%string)
     = length (List.filter (fun line => negb (is_empty line)) (tokens newline body)).
Proof.
  intros Hocc. cbn [parse].
  assert (Hrows : parse_stream stod stoll junk (header ++ String newline body)%string
                  = rows_of stod stoll junk (tokens newline body)).
  { rewrite parse_stream_rows, tokens_app, (tokens_single _ _ Hocc). reflexivity. }
  rewrite Hrows. split; [reflexivity|]. unfold rows_of. apply length_imap.
Qed.

(** X24. An empty line gives no row: a file reads the same with or without
    it. *)
Theorem parse_blank_lines (junk : nat -> OHLCV) (before after : string) :
  parse stod stoll junk
    (Some (before ++ String newline (String newline after))%string)
  = parse stod stoll junk (Some (before ++ String newline after)%string).
Proof.
  cbn [parse]. f_equal. rewrite !parse_stream_rows.
  rewrite (tokens_app _ before (String newline after)), (tokens_app _ before after).
  rewrite (tokens_String newline newline after), Ascii.eqb_refl.
  destruct (tokens newline (before ++ String newline EmptyString)%string) as [|t l] eqn:Ht.
  { apply tokens_empty in Ht. destruct before; discriminate. }
  cbn [app tail]. unfold rows_of. rewrite !List.filter_app. reflexivity.
Qed.

(** X25. The line break after the last line is optional. *)
Theorem parse_final_newline (junk : nat -> OHLCV) (contents : string) :
  ends_with (fun ch => Ascii.eqb ch newline) contents = false ->
  parse stod stoll junk (Some (contents ++ String newline EmptyString)%string)
  = parse stod stoll junk (Some contents).
Proof.
  intros Hend. cbn [parse]. f_equal.
  destruct contents as [|ch s]; [reflexivity|].
  rewrite !parse_stream_rows. rewrite tokens_trailing; [reflexivity | discriminate | exact Hend].
Qed.
End Files.

Lemma parse_header_ignored_witness :
  let none_d := fun _ : string => @None float in
  let none_z := fun _ : string => @None Z in
  let junk := fun _ : nat => no_bar in
  length (parse_stream none_d none_z junk
            ("Date,Open,High,Low,Close,Adj Close,Volume"
             ++ String newline ("2024-01-02,1,2,3,4,5,600"
             ++ String newline (String newline "2024-01-03,1,2,3,4,5,600"))))
  = 2%nat.
Proof.
  intros none_d none_z junk.
  destruct (parse_header_ignored none_d none_z junk
              "Date,Open,High,Low,Close,Adj Close,Volume"
              ("2024-01-02,1,2,3,4,5,600"
               ++ String newline (String newline "2024-01-03,1,2,3,4,5,600")))
    as [_ Hlen]; [vm_compute; reflexivity |].
  rewrite Hlen. vm_compute. reflexivity.
Defined.

Lemma parse_final_newline_witness :
  let none_d := fun _ : string => @None float in
  let none_z := fun _ : string => @None Z in
  let junk := fun _ : nat => no_bar in
  parse none_d none_z junk
    (Some (("Date" ++ String newline "2024-01-02,1,2,3,4,5,600")
           ++ String newline EmptyString)%string)
  = parse none_d none_z junk
      (Some ("Date" ++ String newline "2024-01-02,1,2,3,4,5,600")%string).
Proof.
  intros none_d none_z junk. apply parse_final_newline. vm_compute. reflexivity.
Defined.
